(** * Embedding-based clustering: the greedy seed decoder, its kernels,
      the centroid estimator and the discriminative loss

    A shallow embedding of
      - [inference/spatial_embeddings.py]: [gaussian_kernel],
        [ellipsoidal_kernel], [find_cluster_means], [cluster_remainder],
        [fit_predict1], [fit_predict2] and the F-score line of [main_loop];
      - [mlreco/models/cluster/loss.py]: the methods of [DiscriminativeLoss]
        up to [combine].

    Numbers.  A finite float64 is idealised as a real number (no rounding,
    no overflow); the three special values a numpy division or exponential
    can produce are kept, because the decoder's control flow depends on
    them.  What is stated about the decoders holds for every kernel, in
    terms of the values the kernel returns; what is stated about the
    values of the two kernels of the file is stated for bandwidths and
    rows in the range where a float64 neither underflows to zero nor
    overflows.  Integer labels are [Z], indices and counts are [nat]. *)

From Stdlib Require Import String.
From Stdlib Require Import Reals Lra Lia List ZArith Bool.
From Stdlib Require Import Sorted Permutation.
Import ListNotations.
Open Scope R_scope.

(* ================================================================== *)
(** ** Numeric layer *)

Inductive np_float : Type :=
| Fin (r : R)
| PInf
| NInf
| NaN.

Definition Rltb (a b : R) : bool := if Rlt_dec a b then true else false.
Definition Rleb (a b : R) : bool := if Rle_dec a b then true else false.
Definition Reqb (a b : R) : bool := if Req_dec_T a b then true else false.

(** [a / b] on two finite operands, with numpy's results for a zero
    divisor (a warning, not an exception).  Every divisor in the modelled
    code is a square or a sum of non-negative terms, so a zero divisor is
    the positive zero. *)
Definition np_div (a b : R) : np_float :=
  if Reqb b 0 then
    if Reqb a 0 then NaN else if Rltb 0 a then PInf else NInf
  else Fin (a / b).

Definition np_neg (a : np_float) : np_float :=
  match a with
  | Fin r => Fin (- r)
  | PInf => NInf
  | NInf => PInf
  | NaN => NaN
  end.

Definition np_add (a b : np_float) : np_float :=
  match a, b with
  | NaN, _ | _, NaN => NaN
  | Fin x, Fin y => Fin (x + y)
  | PInf, NInf | NInf, PInf => NaN
  | PInf, _ | _, PInf => PInf
  | NInf, _ | _, NInf => NInf
  end.

Definition np_exp (a : np_float) : np_float :=
  match a with
  | Fin r => Fin (exp r)
  | PInf => PInf
  | NInf => Fin 0
  | NaN => NaN
  end.

(** IEEE comparison: false as soon as one side is NaN. *)
Definition np_ltb (a b : np_float) : bool :=
  match a, b with
  | NaN, _ | _, NaN => false
  | Fin x, Fin y => Rltb x y
  | NInf, NInf => false
  | NInf, _ => true
  | Fin _, PInf => true
  | _, _ => false
  end.

Definition np_gtb (a b : np_float) : bool := np_ltb b a.

Definition Rsum (l : list R) : R := fold_right Rplus 0 l.

(** [np.sum] of values that may be special. *)
Definition np_sum (l : list np_float) : np_float := fold_left np_add l (Fin 0).

Fixpoint zip_with {A B C : Type} (f : A -> B -> C) (a : list A) (b : list B)
  : list C :=
  match a, b with
  | x :: a', y :: b' => f x y :: zip_with f a' b'
  | _, _ => []
  end.

(** Row operations; a matrix is the list of its rows. *)
Definition vsub (a b : list R) : list R := zip_with Rminus a b.
Definition vadd (a b : list R) : list R := zip_with Rplus a b.
Definition sq (x : R) : R := x ^ 2.

(* ================================================================== *)
(** ** Python outcomes *)

Inductive exn : Type :=
| NameError (name : string)
| IndexError
| ValueError
| TypeError
| ZeroDivisionError
| RuntimeError.

(** What a call does: it returns, raises, or (for the modelled [while]
    loops, which are run with a bound on the number of iterations) is
    still running when the bound is reached. *)
Inductive outcome (A : Type) : Type :=
| Done (a : A)
| Raise (e : exn)
| OutOfFuel.

Arguments Done {A} a.
Arguments Raise {A} e.
Arguments OutOfFuel {A}.

Definition bind {A B : Type} (m : outcome A) (k : A -> outcome B) : outcome B :=
  match m with
  | Done a => k a
  | Raise e => Raise e
  | OutOfFuel => OutOfFuel
  end.

Notation "x <- m ;; k" := (bind m (fun x => k))
  (at level 61, m at next level, right associativity).

(** [a[i]] for a non-negative index. *)
Definition index {A : Type} (a : list A) (i : nat) : outcome A :=
  match nth_error a i with
  | Some x => Done x
  | None => Raise IndexError
  end.

(* ================================================================== *)
(** ** numpy helpers used by the decoder *)

Fixpoint insert_by (key : nat -> R) (i : nat) (s : list nat) : list nat :=
  match s with
  | [] => [i]
  | j :: s' => if Rleb (key i) (key j) then i :: s else j :: insert_by key i s'
  end.

(** [np.argsort(a)]: the indices of [a] in ascending order of value.  Equal
    values keep their index order, which is what numpy's default sort does
    on short arrays; the spec leaves the order of ties open. *)
Definition argsort (a : list R) : list nat :=
  fold_right (insert_by (fun i => nth i a 0)) [] (seq 0 (length a)).

(** The order [argsort] puts the indices in. *)
Definition key_le (key : nat -> R) (i j : nat) : Prop := key i <= key j.

(** [np.argsort(a)[::-1][0]] *)
Definition argsort_rev_first (a : list R) : outcome nat :=
  index (rev (argsort a)) 0.

(** [a[mask] = v] on a copy; numpy raises IndexError when the boolean mask
    has another length than [a]. *)
Fixpoint mask_assign {A : Type} (a : list A) (mask : list bool) (v : A)
  : list A :=
  match a, mask with
  | x :: a', b :: mask' => (if b then v else x) :: mask_assign a' mask' v
  | _, _ => a
  end.

Definition set_masked {A : Type} (a : list A) (mask : list bool) (v : A)
  : outcome (list A) :=
  if Nat.eqb (length mask) (length a) then Done (mask_assign a mask v)
  else Raise IndexError.

(** [sum(mask)] *)
Definition count_true (mask : list bool) : nat :=
  length (filter (fun b => b) mask).

(** [np.argmax] of one row: the first index holding the maximum, a NaN
    counting as larger than everything else. *)
Definition takes_over (x best : np_float) : bool :=
  match best with
  | NaN => false
  | _ => match x with NaN => true | _ => np_ltb best x end
  end.

Fixpoint argmax_from (best : nat) (bv : np_float) (i : nat)
  (l : list np_float) : nat :=
  match l with
  | [] => best
  | x :: l' =>
      if takes_over x bv then argmax_from i x (S i) l'
      else argmax_from best bv (S i) l'
  end.

Definition np_argmax (row : list np_float) : nat :=
  match row with
  | [] => 0%nat
  | x :: l => argmax_from 0 x 1 l
  end.

(** The [N] rows of the matrix whose columns are the [N x 1] arrays
    collected in [probs]. *)
Definition hstack_rows (N : nat) (probs : list (list np_float))
  : list (list np_float) :=
  map (fun p => map (fun col => nth p col NaN) probs) (seq 0 N).

(** [np.hstack(probs)]: the result has as many rows as the columns have,
    and numpy raises ValueError when the columns differ in their number
    of rows (or when there is no column at all). *)
Definition np_hstack (probs : list (list np_float))
  : outcome (list (list np_float)) :=
  match probs with
  | [] => Raise ValueError
  | col :: rest =>
      if forallb (fun c => Nat.eqb (length c) (length col)) rest
      then Done (hstack_rows (length col) probs)
      else Raise ValueError
  end.

(* ================================================================== *)
(** ** Kernels (inference/spatial_embeddings.py) *)

(** A kernel takes a centroid and a bandwidth and gives a function from
    the matrix of points to one probability per point.  [M] is the type of
    one entry of [margins]: a scalar, or a row of per-axis bandwidths. *)
Definition kernel (M : Type) : Type :=
  list R -> M -> list (list R) -> list np_float.

Definition gaussian_kernel : kernel R :=
  fun centroid sigma x =>
    map (fun row =>
           let dists := Rsum (map sq (vsub row centroid)) in
           np_exp (np_div (- dists) (2 * sigma ^ 2))) x.

Definition ellipsoidal_kernel : kernel (list R) :=
  fun centroid sigma x =>
    map (fun row =>
           let dists :=
             zip_with (fun d s => np_div (sq d) (2 * s ^ 2))
                      (vsub row centroid) sigma in
           np_exp (np_neg (np_sum (map np_neg dists)))) x.

(** The formula of the spec for the ellipsoidal kernel, for one point. *)
Definition ellipsoidal_spec (centroid sigma x : list R) : R :=
  exp (- Rsum (zip_with (fun d s => sq d / (2 * s ^ 2)) (vsub x centroid) sigma)).

(* ================================================================== *)
(** ** The greedy seed decoder, best-fit policy: [fit_predict2] *)

Section Decoder2.
Context {M : Type}.
Variable embeddings : list (list R).
Variable seediness : list R.
Variable margins : list M.
Variable fitfunc : kernel M.
Variable s_threshold p_threshold : R.

Record fp2_state : Type := mk_fp2 {
  probs : list (list np_float);
  spheres : list (list R * M);
  seediness_copy : list R;
  count : nat
}.

Definition fp2_init : fp2_state := mk_fp2 [] [] seediness 0.

(** [pValues > p_threshold] *)
Definition claimed (pValues : list np_float) : list bool :=
  map (fun p => np_gtb p (Fin p_threshold)) pValues.

(** What one pass through the body of the [while] does: [inl] is the
    [break], [inr] the state at the end of the body. *)
Definition fp2_body (st : fp2_state) : outcome (fp2_state + fp2_state) :=
  i <- argsort_rev_first (seediness_copy st) ;;
  seedScore <- index seediness i ;;
  if Rltb seedScore s_threshold then Done (inl st)
  else
    centroid <- index embeddings i ;;
    sigma <- index margins i ;;
    let pValues := fitfunc centroid sigma embeddings in
    let cluster_index := claimed pValues in
    copy' <- set_masked (seediness_copy st) cluster_index 0 ;;
    Done (inr (mk_fp2 (probs st ++ [pValues])
                      (spheres st ++ [(centroid, sigma)])
                      copy'
                      (count st + count_true cluster_index))).

Fixpoint fp2_loop (fuel : nat) (st : fp2_state) : outcome fp2_state :=
  if Nat.ltb (count st) (length seediness) then
    match fuel with
    | O => OutOfFuel
    | S fuel' =>
        r <- fp2_body st ;;
        match r with
        | inl st' => Done st'
        | inr st' => fp2_loop fuel' st'
        end
    end
  else Done st.

Definition fit_predict2 (fuel : nat) (cluster_all : bool)
  : outcome (list Z * list (list R * M)) :=
  st <- fp2_loop fuel fp2_init ;;
  match probs st with
  | [] => Done (repeat (-1)%Z (length embeddings), spheres st)
  | _ =>
      rows <- np_hstack (probs st) ;;
      Done (map (fun row => Z.of_nat (np_argmax row)) rows, spheres st)
  end.
End Decoder2.

Arguments fp2_state : clear implicits.
Arguments mk_fp2 {M}.

(* ================================================================== *)
(** ** Centroid estimator: [find_cluster_means] *)

(** [np.unique], [Tensor.unique(sorted=True)]: the distinct values in
    ascending order. *)
Fixpoint insert_unique (x : Z) (s : list Z) : list Z :=
  match s with
  | [] => [x]
  | y :: s' =>
      if (x <? y)%Z then x :: s
      else if (x =? y)%Z then s
      else y :: insert_unique x s'
  end.

Definition np_unique (l : list Z) : list Z := fold_right insert_unique [] l.

(** Python's [sorted] on integers. *)
Fixpoint insert_sorted (x : Z) (s : list Z) : list Z :=
  match s with
  | [] => [x]
  | y :: s' => if (x <=? y)%Z then x :: s else y :: insert_sorted x s'
  end.

Definition py_sorted (l : list Z) : list Z := fold_right insert_sorted [] l.

(** [labels == c] *)
Definition label_mask (labels : list Z) (c : Z) : list bool :=
  map (fun l => (l =? c)%Z) labels.

(** [features[index]] for a boolean mask over the rows. *)
Fixpoint mask_rows {A : Type} (rows : list A) (mask : list bool) : list A :=
  match rows, mask with
  | r :: rows', b :: mask' =>
      if b then r :: mask_rows rows' mask' else mask_rows rows' mask'
  | _, _ => []
  end.

Definition select {A : Type} (rows : list A) (mask : list bool)
  : outcome (list A) :=
  if Nat.eqb (length mask) (length rows) then Done (mask_rows rows mask)
  else Raise IndexError.

(** Number of columns of a matrix given by its rows. *)
Definition ncols (x : list (list R)) : nat :=
  match x with
  | [] => 0%nat
  | r :: _ => length r
  end.

(** [x.mean(0)] of a [m x d] matrix. *)
Definition col_sums (d : nat) (rows : list (list R)) : list R :=
  fold_right vadd (repeat 0 d) rows.

Definition mean0 (d : nat) (rows : list (list R)) : list R :=
  map (fun s => s / INR (length rows)) (col_sums d rows).

(** The loop over the group ids, shared by the numpy and the torch
    version. *)
Fixpoint cluster_means_loop (features : list (list R)) (labels : list Z)
  (group_ids : list Z) : outcome (list (list R)) :=
  match group_ids with
  | [] => Done []
  | c :: rest =>
      members <- select features (label_mask labels c) ;;
      let mu_c := mean0 (ncols features) members in
      means <- cluster_means_loop features labels rest ;;
      Done (mu_c :: means)
  end.

(** inference/spatial_embeddings.py; [np.vstack] of an empty list raises
    ValueError. *)
Definition find_cluster_means (features : list (list R)) (labels : list Z)
  : outcome (list Z * list (list R)) :=
  let group_ids := py_sorted (np_unique labels) in
  cluster_means <- cluster_means_loop features labels group_ids ;;
  match cluster_means with
  | [] => Raise ValueError
  | _ => Done (group_ids, cluster_means)
  end.

(** mlreco/models/cluster/loss.py; [torch.stack] of an empty list raises
    RuntimeError. *)
Definition DiscriminativeLoss_find_cluster_means
  (features : list (list R)) (labels : list Z) : outcome (list (list R)) :=
  let clabels := np_unique labels in
  cluster_means <- cluster_means_loop features labels clabels ;;
  match cluster_means with
  | [] => Raise RuntimeError
  | _ => Done cluster_means
  end.

(** The words of the spec: the points whose label is [c], and the
    arithmetic mean of coordinate [j] over them. *)
Definition members_of (labels : list Z) (c : Z) : list nat :=
  filter (fun p => (nth p labels 0 =? c)%Z) (seq 0 (length labels)).

Definition member_mean (features : list (list R)) (labels : list Z)
  (c : Z) (j : nat) : R :=
  Rsum (map (fun p => nth j (nth p features []) 0) (members_of labels c))
  / INR (length (members_of labels c)).

(* ================================================================== *)
(** ** [cluster_remainder] *)

Definition euclidean (a b : list R) : R := sqrt (Rsum (map sq (vsub a b))).

(** [scipy.spatial.distance.cdist(a, b)] *)
Definition cdist (a b : list (list R)) : list (list R) :=
  map (fun x => map (fun y => euclidean x y) b) a.

(** [np.argmin] of one row of finite values: the first index holding the
    minimum. *)
Fixpoint argmin_from (best : nat) (bv : R) (i : nat) (l : list R) : nat :=
  match l with
  | [] => best
  | x :: l' =>
      if Rltb x bv then argmin_from i x (S i) l'
      else argmin_from best bv (S i) l'
  end.

Definition np_argmin (row : list R) : outcome nat :=
  match row with
  | [] => Raise ValueError
  | x :: l => Done (argmin_from 0 x 1 l)
  end.

Fixpoint map_outcome {A B : Type} (f : A -> outcome B) (l : list A)
  : outcome (list B) :=
  match l with
  | [] => Done []
  | x :: l' => y <- f x ;; ys <- map_outcome f l' ;; Done (y :: ys)
  end.

(** [a[mask] = values], one value for each true position, in order. *)
Fixpoint mask_scatter (a : list Z) (mask : list bool) (values : list Z)
  : list Z :=
  match a, mask with
  | x :: a', true :: mask' =>
      match values with
      | v :: values' => v :: mask_scatter a' mask' values'
      | [] => x :: mask_scatter a' mask' []
      end
  | x :: a', false :: mask' => x :: mask_scatter a' mask' values
  | _, _ => a
  end.

Definition cluster_remainder (embedding : list (list R))
  (semi_predictions : list Z) : outcome (list Z) :=
  let unassigned := label_mask semi_predictions (-1) in
  if Nat.eqb (count_true unassigned) 0
     || Nat.eqb (count_true (map negb unassigned)) 0
  then Done semi_predictions
  else
    r <- find_cluster_means embedding semi_predictions ;;
    let predicted_cmeans := snd r in
    rest <- select embedding unassigned ;;
    nearest <- map_outcome np_argmin (cdist rest (tl predicted_cmeans)) ;;
    Done (mask_scatter semi_predictions unassigned (map Z.of_nat nearest)).

(* ================================================================== *)
(** ** Names a function body reads from its module *)

(** The objects a module-level name can be bound to, as far as the
    modelled functions use them. *)
Inductive pyobj (M : Type) : Type :=
| PyFloat (r : R)
| PyKernel (k : kernel M)
| PyOther.

Arguments PyFloat {M} r.
Arguments PyKernel {M} k.
Arguments PyOther {M}.

Definition namespace (M : Type) : Type := list (string * pyobj M).

Fixpoint assoc {M : Type} (env : namespace M) (name : string)
  : option (pyobj M) :=
  match env with
  | [] => None
  | (n, v) :: env' => if String.eqb n name then Some v else assoc env' name
  end.

(** Reading a name that the function does not bind itself. *)
Definition read_global {M : Type} (env : namespace M) (name : string)
  : outcome (pyobj M) :=
  match assoc env name with
  | Some v => Done v
  | None => Raise (NameError name)
  end.

(** Using an object as a number, or calling it as a kernel; anything else
    than a number, respectively a kernel, is a TypeError. *)
Definition as_float {M : Type} (v : pyobj M) : outcome R :=
  match v with
  | PyFloat r => Done r
  | _ => Raise TypeError
  end.

Definition as_kernel {M : Type} (v : pyobj M) : outcome (kernel M) :=
  match v with
  | PyKernel k => Done k
  | _ => Raise TypeError
  end.

(** The names inference/spatial_embeddings.py binds at module level: its
    imports, its functions and the variables of its [__main__] block.
    [outside] stands for what the file does not show: the names brought in
    by [from mlreco.utils.metrics import *] and the builtins. *)
Definition spatial_embeddings_names : list string :=
  ["np"; "pd"; "sys"; "os"; "re"; "torch"; "yaml"; "time"; "cdist"; "ari";
   "Path"; "argparse"; "current_directory"; "process_config"; "train";
   "inference"; "trainval"; "loader_factory"; "cycle";
   "make_inference_cfg"; "gaussian_kernel"; "ellipsoidal_kernel";
   "find_cluster_means"; "cluster_remainder"; "fit_predict1";
   "fit_predict2"; "main_loop";
   "parser"; "args"; "cfg"; "train_cfg"; "s_thresholds"; "p_thresholds";
   "p"; "t"; "start"; "output"; "end"; "name"; "target"]%string.

Definition spatial_embeddings_globals {M : Type} (outside : namespace M)
  : namespace M :=
  map (fun n => (n, PyOther)) spatial_embeddings_names ++ outside.

(** The same for mlreco/models/cluster/loss.py. *)
Definition loss_names : list string :=
  ["torch"; "nn"; "np"; "scn"; "defaultdict"; "DiscriminativeLoss";
   "MultiScaleLoss"; "AllyEnemyLoss"; "SequentialMaskLoss"; "LovaszHinge";
   "LovaszSoftmax"]%string.

Definition loss_globals {M : Type} (outside : namespace M) : namespace M :=
  map (fun n => (n, PyOther)) loss_names ++ outside.

(* ================================================================== *)
(** ** The greedy seed decoder, first-claim policy: [fit_predict1] *)

Section Decoder1.
Context {M : Type}.
(** The module namespace the body reads [s_threshold], [fitfunc] and
    [p_threshold] from: none of them is a parameter or a local. *)
Variable globals : namespace M.
Variable embeddings : list (list R).
Variable seediness : list R.
Variable margins : list M.

Record fp1_state : Type := mk_fp1 {
  pred_labels : list Z;
  spheres1 : list (list R * M);
  seediness_copy1 : list R;
  check_completion : list bool;
  c : nat
}.

Definition fp1_init : fp1_state :=
  mk_fp1 (repeat (-1)%Z (length embeddings)) [] seediness
         (repeat false (length seediness)) 0.

Definition fp1_body (st : fp1_state) : outcome (fp1_state + fp1_state) :=
  i <- argsort_rev_first (seediness_copy1 st) ;;
  seedScore <- index seediness i ;;
  g <- read_global globals "s_threshold" ;;
  s_threshold <- as_float g ;;
  if Rltb seedScore s_threshold then Done (inl st)
  else
    centroid <- index embeddings i ;;
    sigma <- index margins i ;;
    g <- read_global globals "fitfunc" ;;
    fitfunc <- as_kernel g ;;
    let pValues := fitfunc centroid sigma embeddings in
    g <- read_global globals "p_threshold" ;;
    p_threshold <- as_float g ;;
    let cluster_index := map (fun p => np_gtb p (Fin p_threshold)) pValues in
    copy' <- set_masked (seediness_copy1 st) cluster_index 0 ;;
    check' <- set_masked (check_completion st) cluster_index true ;;
    labels' <- set_masked (pred_labels st) cluster_index (Z.of_nat (c st)) ;;
    Done (inr (mk_fp1 labels' (spheres1 st ++ [(centroid, sigma)])
                      copy' check' (S (c st)))).

Fixpoint fp1_loop (fuel : nat) (st : fp1_state) : outcome fp1_state :=
  if negb (forallb (fun b => b) (check_completion st)) then
    match fuel with
    | O => OutOfFuel
    | S fuel' =>
        r <- fp1_body st ;;
        match r with
        | inl st' => Done st'
        | inr st' => fp1_loop fuel' st'
        end
    end
  else Done st.

Definition fit_predict1 (fuel : nat) (threshold : R) (cluster_all : bool)
  : outcome (list Z * list (list R * M)) :=
  st <- fp1_loop fuel fp1_init ;;
  labels <- (if cluster_all
             then cluster_remainder embeddings (pred_labels st)
             else Done (pred_labels st)) ;;
  Done (labels, spheres1 st).
End Decoder1.

(* ================================================================== *)
(** ** The F-score line of [main_loop] *)

(** [fscore = 2 * (purity * efficiency) / (purity + efficiency)] on the
    two numbers [purity_efficiency] returns (numpy floats). *)
Definition fscore (purity efficiency : R) : np_float :=
  np_div (2 * (purity * efficiency)) (purity + efficiency).

(* ================================================================== *)
(** ** [DiscriminativeLoss] (mlreco/models/cluster/loss.py) *)

Definition eps : R := / 100000000.

(** [v + 1e-8] *)
Definition add_eps (v : list R) : list R := map (fun x => x + eps) v.

Definition enumerate {A : Type} (l : list A) : list (nat * A) :=
  List.combine (seq 0 (length l)) l.

(** [torch.norm(v, p=2)], the default of [self._norm]. *)
Definition norm2 (v : list R) : R := sqrt (Rsum (map sq v)).

(** [kwargs.get(key, default)] *)
Fixpoint kwargs_get (kwargs : list (string * R)) (key : string) (default : R)
  : R :=
  match kwargs with
  | [] => default
  | (k, v) :: rest => if String.eqb k key then v else kwargs_get rest key default
  end.

Record loss_blob : Type := mk_blob {
  total_loss : R;
  var_loss : R;
  dist_loss : R;
  reg_loss : R
}.

Section DiscriminativeLoss.
(** [torch.norm(., p=self._norm)] for the configured [self._norm]. *)
Variable norm : list R -> R.

Fixpoint intra_loop (features : list (list R)) (labels : list Z)
  (cluster_means : list (list R)) (margin : R)
  (cluster_labels : list (nat * Z)) (acc : R) : outcome R :=
  match cluster_labels with
  | [] => Done acc
  | (i, c) :: rest =>
      members <- select features (label_mask labels c) ;;
      mu <- index cluster_means i ;;
      let dists := map (fun x => norm (add_eps (vsub x mu))) members in
      let hinge := map (fun d => Rmax (d - margin) 0) dists in
      let l := Rsum (map sq hinge) / INR (length hinge) in
      intra_loop features labels cluster_means margin rest (acc + l)
  end.

Definition intra_cluster_loss (features : list (list R)) (labels : list Z)
  (cluster_means : list (list R)) (margin : R) : outcome R :=
  let n_clusters := length cluster_means in
  v <- intra_loop features labels cluster_means margin
         (enumerate (np_unique labels)) 0 ;;
  if Nat.eqb n_clusters 0 then Raise ZeroDivisionError
  else Done (v / INR n_clusters).

(** The two nested [for ... in enumerate(cluster_means)] loops. *)
Definition inter_inner (margin : R) (i : nat) (c1 : list R)
  (cluster_means : list (list R)) (acc : R) : R :=
  fold_left
    (fun a jc =>
       let '(j, c2) := jc in
       if negb (Nat.eqb i j) then
         let dist := norm (add_eps (vsub c1 c2)) in
         let hinge := Rmax (2 * margin - dist) 0 in
         a + hinge ^ 2
       else a)
    (enumerate cluster_means) acc.

Definition inter_cluster_loss (cluster_means : list (list R)) (margin : R)
  : R :=
  let n_clusters := length cluster_means in
  if Nat.ltb n_clusters 2 then 0
  else
    let dist_loss :=
      fold_left
        (fun a ic => let '(i, c1) := ic in
                     inter_inner margin i c1 cluster_means a)
        (enumerate cluster_means) 0 in
    dist_loss / INR ((n_clusters - 1) * n_clusters).

Definition regularization (cluster_means : list (list R)) : outcome R :=
  let n_clusters := length cluster_means in
  let reg :=
    fold_left (fun a row => a + norm (add_eps row)) cluster_means 0 in
  if Nat.eqb n_clusters 0 then Raise ZeroDivisionError
  else Done (reg / INR n_clusters).

(** Lines 165-177 of [combine]: the hyperparameters and the three
    components, in the order [(inter_loss, intra_loss, reg_loss)]. *)
Definition combine_components (features : list (list R)) (labels : list Z)
  (kwargs : list (string * R)) : outcome (R * R * R) :=
  let delta_var := kwargs_get kwargs "intra_margin" (1/2) in
  let delta_dist := kwargs_get kwargs "inter_margin" (3/2) in
  c_means <- DiscriminativeLoss_find_cluster_means features labels ;;
  let inter_loss := inter_cluster_loss c_means delta_var in
  intra_loss <- intra_cluster_loss features labels c_means delta_dist ;;
  reg_loss <- regularization c_means ;;
  Done (inter_loss, intra_loss, reg_loss).

(** [combine]; [loss_var], [loss_dist] and [loss_reg] are read from the
    module namespace, the function binds none of them. *)
Definition DiscriminativeLoss_combine (globals : namespace R)
  (features : list (list R)) (labels : list Z) (kwargs : list (string * R))
  : outcome loss_blob :=
  let intra_weight := kwargs_get kwargs "intra_weight" 1 in
  let inter_weight := kwargs_get kwargs "inter_weight" 1 in
  let reg_weight := kwargs_get kwargs "reg_weight" 1 in
  r <- combine_components features labels kwargs ;;
  let '(inter_loss, intra_loss, reg_loss) := r in
  g <- read_global globals "loss_var" ;;
  loss_var <- as_float g ;;
  g <- read_global globals "loss_dist" ;;
  loss_dist <- as_float g ;;
  g <- read_global globals "loss_reg" ;;
  loss_reg <- as_float g ;;
  let loss := intra_weight * loss_var + inter_weight * loss_dist
              + reg_weight * loss_reg in
  Done (mk_blob loss intra_loss inter_loss reg_loss).

End DiscriminativeLoss.

(** The words of the spec for the inter-cluster loss: the sum, over the
    ordered pairs of distinct centroids, of the squared hinge
    [max(0, 2 margin - dist(mu_i, mu_j))], divided by [n (n - 1)].  The
    distance is a parameter: the spec has the norm of the difference, the
    code adds [1e-8] to every coordinate of the difference first. *)
Definition ordered_pairs (n : nat) : list (nat * nat) :=
  filter (fun ij => negb (Nat.eqb (fst ij) (snd ij)))
         (list_prod (seq 0 n) (seq 0 n)).

Definition pair_hinge (dist : list R -> list R -> R)
  (cluster_means : list (list R)) (margin : R) (ij : nat * nat) : R :=
  let mu_i := nth (fst ij) cluster_means [] in
  let mu_j := nth (snd ij) cluster_means [] in
  (Rmax 0 (2 * margin - dist mu_i mu_j)) ^ 2.

Definition inter_cluster_sum (dist : list R -> list R -> R)
  (cluster_means : list (list R)) (margin : R) : R :=
  let n := length cluster_means in
  Rsum (map (pair_hinge dist cluster_means margin) (ordered_pairs n))
  / (INR n * (INR n - 1)).

Definition exact_dist (norm : list R -> R) (a b : list R) : R :=
  norm (vsub a b).

Definition perturbed_dist (norm : list R -> R) (a b : list R) : R :=
  norm (add_eps (vsub a b)).


(* ================================================================== *)
(** ** Properties of a run of the best-fit decoder *)

Section Decoder2Run.
Context {M : Type}.
Variable embeddings : list (list R).
Variable seediness : list R.
Variable margins : list M.
Variable fitfunc : kernel M.
Variable s_threshold p_threshold : R.

(** Point [k] has been excluded (peeled): one of the spheres found so far
    claimed it, which zeroed its entry of [seediness_copy]. *)
Definition peeled (st : fp2_state M) (k : nat) : bool :=
  existsb (fun col => np_gtb (nth k col NaN) (Fin p_threshold)) (probs st).

(** The states at the head of the [while]. *)
Inductive reachable : fp2_state M -> Prop :=
| reach_init : reachable (fp2_init seediness)
| reach_step st st' :
    reachable st ->
    (count st < length seediness)%nat ->
    fp2_body embeddings seediness margins fitfunc s_threshold p_threshold st
      = Done (inr st') ->
    reachable st'.

(** [i] is a point that is not yet excluded and has the highest seediness
    among those. *)
Definition highest_remaining (st : fp2_state M) (i : nat) : Prop :=
  (i < length seediness)%nat /\ peeled st i = false /\
  forall k, (k < length seediness)%nat -> peeled st k = false ->
            nth k seediness 0 <= nth i seediness 0.

(** Every pass through the body works on a highest remaining point: it
    leaves the loop when the score of that point is below [s_threshold]
    and seeds the new sphere there otherwise. *)
Definition seed_discipline : Prop :=
  forall st, reachable st -> (count st < length seediness)%nat ->
  exists i, highest_remaining st i /\
    if Rltb (nth i seediness 0) s_threshold
    then fp2_body embeddings seediness margins fitfunc s_threshold
           p_threshold st = Done (inl st)
    else exists st' centroid sigma,
        fp2_body embeddings seediness margins fitfunc s_threshold
          p_threshold st = Done (inr st') /\
        nth_error embeddings i = Some centroid /\
        nth_error margins i = Some sigma /\
        spheres st' = spheres st ++ [(centroid, sigma)].

(** The state at the end of a pass that seeds a sphere at
    [(centroid, sigma)]. *)
Definition fp2_next (st : fp2_state M) (centroid : list R) (sigma : M)
  : fp2_state M :=
  let pValues := fitfunc centroid sigma embeddings in
  let cluster_index := claimed p_threshold pValues in
  mk_fp2 (probs st ++ [pValues])
         (spheres st ++ [(centroid, sigma)])
         (mask_assign (seediness_copy st) cluster_index 0)
         (count st + count_true cluster_index).

(** What holds at the head of the loop: [seediness_copy] is [seediness]
    with the peeled entries zeroed, [count] is at least the number of
    peeled points, and there is one full column of probabilities for each
    sphere. *)
Definition fp2_invariant (st : fp2_state M) : Prop :=
  length (seediness_copy st) = length seediness /\
  (forall k, (k < length seediness)%nat ->
     nth k (seediness_copy st) 0
     = if peeled st k then 0 else nth k seediness 0) /\
  (length (filter (peeled st) (seq 0 (length seediness))) <= count st)%nat /\
  Forall (fun col => length col = length seediness) (probs st) /\
  length (probs st) = length (spheres st).

(** Every column of probabilities comes from a seed that no earlier
    sphere had claimed, has finite values that are at most 1, and is 1 at
    its seed. *)
Definition seeded_columns (st : fp2_state M) : Prop :=
  forall earlier col later, probs st = earlier ++ col :: later ->
  exists i vals,
    (i < length seediness)%nat /\
    col = map Fin vals /\
    length vals = length seediness /\
    Forall (fun v => v <= 1) vals /\
    nth i vals 0 = 1 /\
    forall colj, In colj earlier ->
                 np_gtb (nth i colj NaN) (Fin p_threshold) = false.

(** The call comes to an end (it returns or raises) within some number of
    iterations. *)
Definition terminates : Prop :=
  exists fuel,
    fit_predict2 embeddings seediness margins fitfunc s_threshold
      p_threshold fuel false <> OutOfFuel.
End Decoder2Run.

(** The labels are exactly the values [0 .. m-1], each of them attained. *)
Definition label_range_attained (labels : list Z) (m : nat) : Prop :=
  (forall l, In l labels -> (0 <= l < Z.of_nat m)%Z) /\
  (forall v, (0 <= v < Z.of_nat m)%Z -> In v labels).

(** The labels are below [m], without every value having to occur. *)
Definition label_range (labels : list Z) (m : nat) : Prop :=
  forall l, In l labels -> (0 <= l < Z.of_nat m)%Z.

(** A kernel whose values on the given points are finite and at most 1,
    and exactly 1 at the point the sphere is seeded at. *)
Definition unit_peaked {M : Type} (fitfunc : kernel M)
  (embeddings : list (list R)) (margins : list M) : Prop :=
  forall i centroid sigma,
    nth_error embeddings i = Some centroid ->
    nth_error margins i = Some sigma ->
    exists vals,
      fitfunc centroid sigma embeddings = map Fin vals /\
      length vals = length embeddings /\
      Forall (fun v => v <= 1) vals /\
      nth i vals 0 = 1.

(* ================================================================== *)
(** ** Quantities the statements about the kernels and the decoders use *)

(** [np.sum(np.power(x - centroid, 2))] for one row. *)
Definition sq_dist (row centroid : list R) : R :=
  Rsum (map sq (vsub row centroid)).



(** Bandwidths between 1e-150 and 1e150 in absolute value: their square
    is a float64 that is neither zero nor infinite. *)
Definition bandwidth_in_range (sigma : R) : Prop :=
  / 10 ^ 150 <= Rabs sigma <= 10 ^ 150.



(** Sphere [sp] claims point [k]: its kernel value there is above
    [p_threshold]. *)
Definition claims {M : Type} (fitfunc : kernel M) (embeddings : list (list R))
  (p_threshold : R) (sp : list R * M) (k : nat) : bool :=
  np_gtb (nth k (fitfunc (fst sp) (snd sp) embeddings) NaN) (Fin p_threshold).

(** The kernel value of sphere [sp] at point [k]: entry [k] of the column
    the kernel returned for that sphere. *)
Definition sphere_value {M : Type} (fitfunc : kernel M)
  (embeddings : list (list R)) (sp : list R * M) (k : nat) : np_float :=
  nth k (fitfunc (fst sp) (snd sp) embeddings) NaN.

(** The index of the last sphere of [found] that claims point [k], and -1
    when none does; [t] is the index of the first sphere of the list. *)
Fixpoint last_claim {M : Type} (fitfunc : kernel M)
  (embeddings : list (list R)) (p_threshold : R)
  (found : list (list R * M)) (t : nat) (k : nat) (acc : Z) : Z :=
  match found with
  | [] => acc
  | sp :: rest =>
      last_claim fitfunc embeddings p_threshold rest (S t) k
        (if claims fitfunc embeddings p_threshold sp k then Z.of_nat t
         else acc)
  end.

(** The state of [fit_predict1] at the end of a pass that seeds a sphere
    at [(centroid, sigma)], for the kernel and the threshold the module
    namespace provides. *)
Definition fp1_next {M : Type} (fitfunc : kernel M)
  (embeddings : list (list R)) (p_threshold : R) (st : @fp1_state M)
  (centroid : list R) (sigma : M) : @fp1_state M :=
  let cluster_index := claimed p_threshold (fitfunc centroid sigma embeddings) in
  mk_fp1 (mask_assign (pred_labels st) cluster_index (Z.of_nat (c st)))
         (spheres1 st ++ [(centroid, sigma)])
         (mask_assign (seediness_copy1 st) cluster_index 0)
         (mask_assign (check_completion st) cluster_index true)
         (S (c st)).

(* ================================================================== *)
(** * Proofs *)

(** ** Deciding comparisons of concrete reals *)

Lemma Rltb_true a b : a < b -> Rltb a b = true.
Proof. unfold Rltb; destruct (Rlt_dec a b); tauto. Qed.

Lemma Rltb_false a b : b <= a -> Rltb a b = false.
Proof. unfold Rltb; destruct (Rlt_dec a b); [lra | reflexivity]. Qed.

Lemma Rleb_true a b : a <= b -> Rleb a b = true.
Proof. unfold Rleb; destruct (Rle_dec a b); tauto. Qed.

Lemma Rleb_false a b : b < a -> Rleb a b = false.
Proof. unfold Rleb; destruct (Rle_dec a b); [lra | reflexivity]. Qed.

Lemma Reqb_true a b : a = b -> Reqb a b = true.
Proof. unfold Reqb; destruct (Req_dec_T a b); tauto. Qed.

Lemma Reqb_false a b : a <> b -> Reqb a b = false.
Proof. unfold Reqb; destruct (Req_dec_T a b); tauto. Qed.

Lemma Rltb_spec a b : reflect (a < b) (Rltb a b).
Proof. unfold Rltb; destruct (Rlt_dec a b); constructor; assumption. Qed.

Lemma Rleb_spec a b : reflect (a <= b) (Rleb a b).
Proof. unfold Rleb; destruct (Rle_dec a b); constructor; assumption. Qed.

Lemma Reqb_spec a b : reflect (a = b) (Reqb a b).
Proof. unfold Reqb; destruct (Req_dec_T a b); constructor; assumption. Qed.

(** Two elementary bounds on the exponential, enough to place the kernel
    values of the scenarios on either side of a threshold. *)
Lemma exp_ge_1_plus a : 1 + a <= exp a.
Proof.
  destruct (Req_dec_T a 0) as [->|H].
  - rewrite exp_0; lra.
  - left; apply exp_ineq1; assumption.
Qed.

Lemma exp_gt_const a c : c < 1 + a -> c < exp a.
Proof. intros; pose proof (exp_ge_1_plus a); lra. Qed.

Lemma exp_lt_const a c : a < 0 -> 1 < c * (1 - a) -> exp a < c.
Proof.
  intros Ha Hc.
  pose proof (exp_ge_1_plus (- a)) as H.
  rewrite exp_Ropp in H.
  pose proof (exp_pos a) as Hp.
  assert (Hc0 : 0 < c) by nra.
  assert (H1 : (1 - a) * exp a <= 1).
  { assert (E : / exp a * exp a = 1) by (field; lra).
    rewrite <- E. apply Rmult_le_compat_r; lra. }
  nra.
Qed.

Lemma exp_le_1 a : a <= 0 -> exp a <= 1.
Proof.
  intros [H | ->].
  - left. rewrite <- exp_0. apply exp_increasing; assumption.
  - rewrite exp_0; lra.
Qed.

Ltac real_lt :=
  first [ lra
        | apply exp_increasing; lra
        | apply exp_gt_const; lra
        | apply exp_lt_const; lra ].

Ltac real_le :=
  first [ lra | right; f_equal; lra | left; real_lt ].

Ltac real_eq := first [ lra | f_equal; lra ].

Ltac real_neq :=
  first [ lra
        | apply Rlt_not_eq; real_lt
        | apply Rgt_not_eq; real_lt ].

Ltac decide_one :=
  match goal with
  | |- context [Rltb ?a ?b] =>
      first [ rewrite (Rltb_true a b) by real_lt
            | rewrite (Rltb_false a b) by real_le ]
  | |- context [Rleb ?a ?b] =>
      first [ rewrite (Rleb_true a b) by real_le
            | rewrite (Rleb_false a b) by real_lt ]
  | |- context [Reqb ?a ?b] =>
      first [ rewrite (Reqb_true a b) by real_eq
            | rewrite (Reqb_false a b) by real_neq ]
  end.

Ltac np_unfold :=
  unfold fp2_body, argsort_rev_first, argsort, set_masked, claimed,
    gaussian_kernel, ellipsoidal_kernel, np_hstack, hstack_rows, np_argmax,
    count_true, np_gtb, vsub, sq, Rsum, np_sum, np_div.

Ltac np_step :=
  cbn [bind index nth_error insert_by fold_right fold_left seq length rev
       app nth mask_assign filter map np_exp np_neg np_add np_ltb zip_with
       probs spheres seediness_copy count Nat.ltb Nat.leb Nat.eqb Nat.add
       argmax_from takes_over repeat existsb forallb andb].

Ltac np_eval := np_unfold; repeat (np_step; try decide_one).

(** ** Unfolding the loop *)

Section LoopEquations.
Context {M : Type}.
Variable E : list (list R).
Variable Sd : list R.
Variable Mg : list M.
Variable K : kernel M.
Variable s p : R.

Lemma fp2_loop_S fuel st :
  fp2_loop E Sd Mg K s p (S fuel) st =
  if Nat.ltb (count st) (length Sd) then
    r <- fp2_body E Sd Mg K s p st ;;
    match r with
    | inl st' => Done st'
    | inr st' => fp2_loop E Sd Mg K s p fuel st'
    end
  else Done st.
Proof. reflexivity. Qed.

Lemma fp2_loop_exit fuel st :
  Nat.ltb (count st) (length Sd) = false ->
  fp2_loop E Sd Mg K s p fuel st = Done st.
Proof. intros H. destruct fuel; simpl; rewrite H; reflexivity. Qed.

Lemma fp2_loop_mono fuel st r :
  fp2_loop E Sd Mg K s p fuel st = Done r ->
  forall fuel', (fuel <= fuel')%nat -> fp2_loop E Sd Mg K s p fuel' st = Done r.
Proof.
  revert st. induction fuel as [|fuel IH]; intros st H fuel' Hle.
  - simpl in H. destruct (Nat.ltb (count st) (length Sd)) eqn:Hc;
      [discriminate|].
    rewrite fp2_loop_exit; assumption.
  - destruct fuel' as [|fuel']; [lia|].
    rewrite fp2_loop_S in *.
    destruct (Nat.ltb (count st) (length Sd)); [|assumption].
    destruct (fp2_body E Sd Mg K s p st) as [[st'|st']| |]; simpl in *;
      try discriminate; try assumption.
    apply IH; [assumption | lia].
Qed.
End LoopEquations.

Ltac loop_step := rewrite fp2_loop_S; np_eval.

(* ================================================================== *)
(** ** The two-blob scenario *)

Lemma two_blobs_run (fuel : nat) :
  fit_predict2 [[0; 0]; [1/10; 0]; [5; 5]; [51/10; 5]]
    [1; 9/10; 1; 9/10] [1/2; 1/2; 1/2; 1/2] gaussian_kernel
    0 (1/2) (S (S fuel)) false
  = Done ([1; 1; 0; 0]%Z, [([5; 5], 1/2); ([0; 0], 1/2)]).
Proof.
  unfold fit_predict2, fp2_init.
  loop_step. loop_step.
  rewrite fp2_loop_exit by reflexivity.
  np_eval. reflexivity.
Qed.

(** C1.  On the four points [(0,0)], [(0.1,0)], [(5,5)], [(5.1,5)] with
    seediness [1, 0.9, 1, 0.9], margins [0.5], [s_threshold = 0],
    [p_threshold = 0.5] and the symmetric Gaussian kernel, [fit_predict2]
    returns after two iterations: the spheres list has exactly two
    entries and the label vector has exactly two distinct labels, one
    shared by points 0 and 1 and the other by points 2 and 3. *)
Theorem fit_predict2_two_blobs (fuel : nat) :
  exists labels found,
    fit_predict2 [[0; 0]; [1/10; 0]; [5; 5]; [51/10; 5]]
      [1; 9/10; 1; 9/10] [1/2; 1/2; 1/2; 1/2] gaussian_kernel
      0 (1/2) (S (S fuel)) false = Done (labels, found) /\
    length found = 2%nat /\
    exists a b, a <> b /\ labels = [a; a; b; b].
Proof.
  exists [1; 1; 0; 0]%Z, [([5; 5], 1/2); ([0; 0], 1/2)].
  split; [apply two_blobs_run|].
  split; [reflexivity | exists 1%Z, 0%Z; split; [lia | reflexivity]].
Qed.

(* ================================================================== *)
(** ** The kernels *)

Lemma Rsum_sq_nonneg (v : list R) : 0 <= Rsum (map sq v).
Proof.
  induction v as [|x v IH]; simpl; [lra|].
  unfold sq at 1. pose proof (pow2_ge_0 x). lra.
Qed.

Lemma pow2_gt_0 (x : R) : x <> 0 -> 0 < x ^ 2.
Proof. intros H. destruct (Rtotal_order x 0) as [H0 | [H0 | H0]]; nra. Qed.

Lemma gaussian_kernel_nonzero centroid sigma x :
  sigma <> 0 ->
  gaussian_kernel centroid sigma x =
  map (fun row => Fin (exp (- Rsum (map sq (vsub row centroid))
                            / (2 * sigma ^ 2)))) x.
Proof.
  intros Hs. unfold gaussian_kernel. apply map_ext. intros row.
  unfold np_div. rewrite Reqb_false; [reflexivity|].
  assert (0 < sigma ^ 2) by (apply pow2_gt_0; assumption). lra.
Qed.

(** The symmetric Gaussian kernel, for a bandwidth that is not zero: each
    value lies in (0, 1] and a larger squared distance gives a smaller or
    equal value. *)
Lemma gaussian_value_unit centroid sigma row :
  sigma <> 0 ->
  let v := exp (- Rsum (map sq (vsub row centroid)) / (2 * sigma ^ 2)) in
  0 < v <= 1.
Proof.
  intros Hs v. split; [apply exp_pos|].
  apply exp_le_1.
  assert (0 < sigma ^ 2) by (apply pow2_gt_0; assumption).
  pose proof (Rsum_sq_nonneg (vsub row centroid)).
  assert (0 < / (2 * sigma ^ 2)) by (apply Rinv_0_lt_compat; lra).
  unfold Rdiv. nra.
Qed.


Lemma vsub_self (v : list R) : map sq (vsub v v) = map (fun _ => 0) v.
Proof.
  induction v as [|x v IH]; [reflexivity|].
  unfold vsub in *. simpl. rewrite IH. f_equal. unfold sq. ring.
Qed.

Lemma Rsum_zeros {A : Type} (v : list A) : Rsum (map (fun _ => 0) v) = 0.
Proof. induction v as [|x v IH]; simpl; [reflexivity | rewrite IH; lra]. Qed.

Lemma gaussian_value_self sigma row :
  exp (- Rsum (map sq (vsub row row)) / (2 * sigma ^ 2)) = 1.
Proof.
  rewrite vsub_self, Rsum_zeros.
  replace (- 0 / (2 * sigma ^ 2)) with 0 by (unfold Rdiv; ring).
  apply exp_0.
Qed.

(** A bandwidth in the range where its square is an ordinary float64 is
    not zero, and the bandwidths of the scenarios are in that range. *)
Lemma bandwidth_in_range_nonzero (sigma : R) :
  bandwidth_in_range sigma -> sigma <> 0.
Proof.
  intros [Hlo _] ->. rewrite Rabs_R0 in Hlo.
  assert (0 < / 10 ^ 150) by (apply Rinv_0_lt_compat, pow_lt; lra).
  lra.
Qed.

Lemma bandwidth_in_range_mid (sigma : R) :
  / 10 <= sigma <= 10 -> bandwidth_in_range sigma.
Proof.
  intros [Hlo Hhi]. unfold bandwidth_in_range.
  assert (H1 : 1 <= 10 ^ 149) by (apply pow_R1_Rle; lra).
  assert (H10 : 10 <= 10 ^ 150).
  { change (10 ^ 150) with (10 * 10 ^ 149). lra. }
  assert (Hinv : / 10 ^ 150 <= / 10)
    by (apply Rinv_le_contravar; lra).
  rewrite Rabs_pos_eq by lra. lra.
Qed.




(** C2.  The ellipsoidal kernel of the code negates the scaled squared
    distances twice.  For centroid [0], bandwidth [1] and the point [1]
    it returns exp(1/2), which is above 1, where the formula of the spec
    gives exp(-1/2); and the point [2], further away, gets the larger
    value exp(2). *)
Theorem ellipsoidal_kernel_above_one :
  exists p q,
    ellipsoidal_kernel [0] [1] [[1]; [2]] = [Fin p; Fin q] /\
    1 < p /\ p < q /\
    ellipsoidal_spec [0] [1] [1] < 1 /\
    p <> ellipsoidal_spec [0] [1] [1].
Proof.
  eexists _, _. split; [np_eval; reflexivity|].
  unfold ellipsoidal_spec, vsub, sq, Rsum. cbn [zip_with fold_right].
  match goal with
  | |- 1 < ?p /\ ?p < ?q /\ ?sp < 1 /\ _ =>
      assert (H1 : 1 < p) by real_lt;
      assert (H2 : sp < 1) by real_lt;
      assert (H3 : p < q) by real_lt
  end.
  repeat split; try assumption. lra.
Qed.

(* ================================================================== *)
(** ** The F-score *)

(** C9, as the spec states it, fails when purity and efficiency are both
    0: the division of [main_loop] is not guarded and gives NaN. *)
Lemma fscore_zero_zero_nan : fscore 0 0 = NaN.
Proof.
  unfold fscore, np_div.
  rewrite Reqb_true by lra. rewrite Reqb_true by lra. reflexivity.
Qed.

(** C9, amended.  For purity and efficiency in [0,1] that are not both 0
    the F-score is the finite number 2 p e / (p + e), it lies in [0,1]
    and it is 0 when one of the two is 0. *)
Theorem fscore_defined (purity efficiency : R) :
  0 <= purity <= 1 -> 0 <= efficiency <= 1 -> 0 < purity + efficiency ->
  exists f,
    fscore purity efficiency = Fin f /\
    f = 2 * purity * efficiency / (purity + efficiency) /\
    0 <= f <= 1 /\
    (purity = 0 \/ efficiency = 0 -> f = 0).
Proof.
  intros Hp He Hs.
  exists (2 * (purity * efficiency) / (purity + efficiency)).
  assert (Hi : 0 < / (purity + efficiency)) by (apply Rinv_0_lt_compat; lra).
  split; [| split; [| split]].
  - unfold fscore, np_div. rewrite Reqb_false by lra. reflexivity.
  - unfold Rdiv. ring.
  - split.
    + unfold Rdiv. apply Rmult_le_pos; [nra | lra].
    + apply (Rmult_le_reg_r (purity + efficiency)); [lra|].
      unfold Rdiv. rewrite Rmult_assoc, Rinv_l by lra. nra.
  - intros [-> | ->]; unfold Rdiv; ring.
Qed.

Lemma fscore_defined_witness :
  exists f, fscore (1/2) 1 = Fin f /\ f = 2 * (1/2) * 1 / (1/2 + 1) /\
            0 <= f <= 1 /\ (1/2 = 0 \/ 1 = 0 -> f = 0).
Proof. apply (fscore_defined (1/2) 1); lra. Defined.

(* ================================================================== *)
(** ** The first-claim decoder *)

Lemma assoc_app_none {M : Type} (a b : namespace M) name :
  assoc a name = None -> assoc (a ++ b) name = assoc b name.
Proof.
  induction a as [|[n v] a IH]; simpl; [reflexivity|].
  destruct (String.eqb n name); [discriminate | exact IH].
Qed.

Lemma read_global_unbound {M : Type} (env : namespace M) name :
  assoc env name = None -> read_global env name = Raise (NameError name).
Proof. unfold read_global. intros ->. reflexivity. Qed.

Lemma argsort_rev_first_cons (x : R) (a : list R) :
  exists i, argsort_rev_first (x :: a) = Done i.
Proof.
  unfold argsort_rev_first, index.
  destruct (rev (argsort (x :: a))) as [|i l] eqn:Hr.
  - exfalso. apply (f_equal (@length nat)) in Hr.
    rewrite length_rev in Hr. unfold argsort in Hr.
    cbn [length seq fold_right] in Hr.
    set (key := fun i => nth i (x :: a) 0) in Hr.
    set (s := fold_right (insert_by key) [] (seq 1 (length a))) in Hr.
    destruct s as [|j s']; simpl in Hr; [discriminate|].
    destruct (Rleb (key 0%nat) (key j)); discriminate.
  - exists i. reflexivity.
Qed.

(** *** [np.argsort(a)[::-1][0]] is the index of a maximum *)

Section Argsort.
Variable key : nat -> R.

Lemma insert_by_perm i s : Permutation (insert_by key i s) (i :: s).
Proof.
  induction s as [|j s IH]; simpl; [apply Permutation_refl|].
  destruct (Rleb (key i) (key j)); [apply Permutation_refl|].
  eapply perm_trans; [apply perm_skip, IH | apply perm_swap].
Qed.

Lemma insert_by_sorted i s :
  StronglySorted (key_le key) s -> StronglySorted (key_le key) (insert_by key i s).
Proof.
  induction 1 as [|j s Hs IH Hall]; simpl.
  - constructor; constructor.
  - destruct (Rleb_spec (key i) (key j)) as [Hle | Hgt].
    + constructor; [constructor; assumption|].
      constructor; [exact Hle|].
      eapply Forall_impl; [| exact Hall].
      intros k Hk. unfold key_le in *. lra.
    + constructor; [exact IH|].
      eapply Permutation_Forall;
        [apply Permutation_sym, insert_by_perm|].
      constructor; [unfold key_le; lra | exact Hall].
Qed.

Lemma sorted_snoc_max (l : list nat) (x : nat) :
  StronglySorted (key_le key) (l ++ [x]) -> forall y, In y l -> key y <= key x.
Proof.
  induction l as [|z l IH]; intros Hs y Hy; [destruct Hy|].
  simpl in Hs. inversion Hs as [|? ? Hs' Hall]; subst.
  destruct Hy as [-> | Hy].
  - rewrite Forall_forall in Hall. apply Hall, in_or_app. right. left.
    reflexivity.
  - apply IH; assumption.
Qed.
End Argsort.

Lemma argsort_perm (a : list R) :
  Permutation (argsort a) (seq 0 (length a)).
Proof.
  unfold argsort. generalize (seq 0 (length a)) as l.
  induction l as [|i l IH]; simpl; [constructor|].
  eapply perm_trans; [apply insert_by_perm | apply perm_skip, IH].
Qed.

Lemma argsort_sorted (a : list R) :
  StronglySorted (key_le (fun i => nth i a 0)) (argsort a).
Proof.
  unfold argsort. generalize (seq 0 (length a)) as l.
  induction l as [|i l IH]; simpl; [constructor|].
  apply insert_by_sorted, IH.
Qed.

Lemma argsort_rev_first_max (a : list R) (i : nat) :
  argsort_rev_first a = Done i ->
  (i < length a)%nat /\
  forall k, (k < length a)%nat -> nth k a 0 <= nth i a 0.
Proof.
  unfold argsort_rev_first, index. intros H.
  destruct (rev (argsort a)) as [|i' l] eqn:Hr; simpl in H; [discriminate|].
  injection H as ->.
  assert (Ha : argsort a = rev l ++ [i]).
  { rewrite <- (rev_involutive (argsort a)), Hr. reflexivity. }
  pose proof (argsort_perm a) as Hp.
  pose proof (argsort_sorted a) as Hs.
  rewrite Ha in Hp, Hs.
  split.
  - assert (Hin : In i (seq 0 (length a))).
    { eapply Permutation_in; [exact Hp|]. apply in_or_app. right. left.
      reflexivity. }
    apply in_seq in Hin. lia.
  - intros k Hk.
    assert (Hin : In k (rev l ++ [i])).
    { eapply Permutation_in; [apply Permutation_sym, Hp|].
      apply in_seq. lia. }
    apply in_app_or in Hin. destruct Hin as [Hin | [-> | []]]; [|lra].
    apply (sorted_snoc_max _ _ _ Hs). exact Hin.
Qed.

Lemma argsort_rev_first_total (a : list R) :
  a <> [] -> exists i, argsort_rev_first a = Done i.
Proof.
  destruct a as [|x a]; [congruence|]. intros _.
  apply argsort_rev_first_cons.
Qed.

Lemma index_nth {A : Type} (l : list A) (i : nat) (d : A) :
  (i < length l)%nat -> index l i = Done (nth i l d).
Proof.
  intros H. unfold index.
  rewrite (nth_error_nth' l d H). reflexivity.
Qed.

(** C10.  [s_threshold], [fitfunc] and [p_threshold] are bound neither by
    [fit_predict1] nor by its module (as long as nothing outside the file
    provides them), so reading any of them raises NameError.  On a
    non-empty input the first pass through the loop reaches
    [seedScore < s_threshold] and the call raises NameError before any
    label is returned; on an empty input the loop is not entered and the
    call returns an empty label vector and an empty spheres list. *)
Theorem fit_predict1_name_error {M : Type} (outside : namespace M)
  (embeddings : list (list R)) (seediness : list R) (margins : list M)
  (fuel : nat) (threshold : R) (cluster_all : bool) :
  assoc outside "s_threshold" = None ->
  assoc outside "fitfunc" = None ->
  assoc outside "p_threshold" = None ->
  length seediness = length embeddings ->
  (read_global (spatial_embeddings_globals outside) "s_threshold"
     = Raise (NameError "s_threshold") /\
   read_global (spatial_embeddings_globals outside) "fitfunc"
     = Raise (NameError "fitfunc") /\
   read_global (spatial_embeddings_globals outside) "p_threshold"
     = Raise (NameError "p_threshold")) /\
  (embeddings <> [] ->
   fit_predict1 (spatial_embeddings_globals outside) embeddings seediness
     margins (S fuel) threshold cluster_all
   = Raise (NameError "s_threshold")) /\
  (embeddings = [] ->
   fit_predict1 (spatial_embeddings_globals outside) embeddings seediness
     margins fuel threshold cluster_all
   = Done ([], [])).
Proof.
  intros Hs Hf Hp Hlen.
  assert (Gs : read_global (spatial_embeddings_globals outside) "s_threshold"
               = Raise (NameError "s_threshold")).
  { apply read_global_unbound. unfold spatial_embeddings_globals.
    rewrite assoc_app_none by reflexivity. exact Hs. }
  split; [| split].
  - split; [exact Gs | split]; apply read_global_unbound;
      unfold spatial_embeddings_globals;
      rewrite assoc_app_none by reflexivity; assumption.
  - intros Hne.
    destruct seediness as [|x sd].
    { destruct embeddings; [congruence | discriminate]. }
    unfold fit_predict1, fp1_init.
    cbn [fp1_loop check_completion length repeat forallb negb].
    unfold fp1_body. cbn [seediness_copy1].
    destruct (argsort_rev_first_total (x :: sd)) as [i Hi]; [discriminate|].
    rewrite Hi. cbn [bind].
    apply argsort_rev_first_max in Hi. destruct Hi as [Hi _].
    rewrite (index_nth _ _ 0 Hi). cbn [bind].
    rewrite Gs. reflexivity.
  - intros ->. destruct seediness; [|discriminate].
    unfold fit_predict1, fp1_init.
    destruct fuel; cbn; destruct cluster_all; reflexivity.
Qed.

Lemma fit_predict1_name_error_witness :
  fit_predict1 (spatial_embeddings_globals (M := R) []) [[0]] [1] [1]
    1 (9/10) false = Raise (NameError "s_threshold").
Proof.
  apply (fit_predict1_name_error (M := R) [] [[0]] [1] [1] 0 (9/10) false);
    try reflexivity.
  discriminate.
Defined.

(* ================================================================== *)
(** ** [DiscriminativeLoss.combine] *)

Lemma norm2_singleton (x : R) : norm2 [x] = Rabs x.
Proof.
  unfold norm2, sq. simpl.
  replace (x * (x * 1) + 0) with (Rsqr x) by (unfold Rsqr; ring).
  apply sqrt_Rsqr_abs.
Qed.

Ltac abs_one :=
  match goal with
  | |- context [Rabs ?x] =>
      first [ rewrite (Rabs_pos_eq x) by (unfold eps; lra)
            | rewrite (Rabs_left x) by (unfold eps; lra) ]
  end.

Ltac max_one :=
  match goal with
  | |- context [Rmax ?x ?y] =>
      first [ rewrite (Rmax_left x y) by (unfold eps; lra)
            | rewrite (Rmax_right x y) by (unfold eps; lra) ]
  end.

Ltac loss_unfold :=
  unfold DiscriminativeLoss_combine, combine_components,
    DiscriminativeLoss_find_cluster_means, intra_cluster_loss,
    inter_cluster_loss, inter_inner, regularization, enumerate, select,
    mean0, col_sums, ncols, label_mask, np_unique, add_eps, vsub, vadd, sq,
    Rsum.

Ltac loss_step :=
  cbn [kwargs_get String.eqb Ascii.eqb Bool.eqb fold_right fold_left
       insert_unique Z.ltb Z.eqb Z.compare Pos.compare Pos.compare_cont
       Pos.eqb cluster_means_loop intra_loop map length Nat.eqb Nat.ltb
       Nat.leb mask_rows bind index nth_error repeat zip_with seq
       List.combine negb INR Nat.sub Nat.mul Nat.add fst snd].

Ltac loss_eval :=
  repeat (progress (loss_unfold; loss_step));
  repeat rewrite norm2_singleton;
  repeat abs_one; repeat max_one.

(** C5.  [combine] hands [intra_margin] to the inter-cluster loss and
    [inter_margin] to the intra-cluster loss, and then reads [loss_var],
    which nothing binds.  On three one-dimensional points [0], [2], [3]
    with labels [0, 0, 1] and the default hyperparameters both components
    it computes are 0, where the margins of the claim give positive
    values, and the call raises NameError instead of returning a total. *)
Theorem combine_swaps_margins_and_raises :
  let features := [[0]; [2]; [3]] in
  let labels := [0; 0; 1]%Z in
  let kwargs := [("intra_weight", 1); ("inter_weight", 1);
                 ("reg_weight", 1/1000); ("intra_margin", 1/2);
                 ("inter_margin", 3/2)]%string in
  DiscriminativeLoss_combine norm2 (loss_globals []) features labels kwargs
    = Raise (NameError "loss_var") /\
  (exists inter_loss intra_loss reg,
     combine_components norm2 features labels kwargs
       = Done (inter_loss, intra_loss, reg) /\
     inter_loss = 0 /\ intra_loss = 0) /\
  (exists c_means v,
     DiscriminativeLoss_find_cluster_means features labels = Done c_means /\
     0 < inter_cluster_loss norm2 c_means (3/2) /\
     intra_cluster_loss norm2 features labels c_means (1/2) = Done v /\
     0 < v).
Proof.
  cbv zeta. split; [| split].
  - loss_eval. reflexivity.
  - eexists _, _, _. split; [loss_eval; reflexivity|].
    split; unfold eps; lra.
  - eexists _, _. split; [loss_eval; reflexivity|].
    split; [| split].
    + loss_eval. unfold eps. lra.
    + loss_eval. reflexivity.
    + unfold eps. lra.
Qed.

(* ================================================================== *)
(** ** The centroid estimator *)

Lemma insert_unique_in (x : Z) (s : list Z) (c : Z) :
  In c (insert_unique x s) <-> c = x \/ In c s.
Proof.
  induction s as [|y s IH]; simpl.
  - intuition.
  - destruct (Z.ltb_spec x y); [simpl; intuition|].
    destruct (Z.eqb_spec x y); [subst; simpl; intuition|].
    simpl. rewrite IH. intuition.
Qed.

Lemma insert_unique_sorted (x : Z) (s : list Z) :
  StronglySorted Z.lt s -> StronglySorted Z.lt (insert_unique x s).
Proof.
  induction 1 as [|y s Hs IH Hall]; simpl.
  - constructor; constructor.
  - destruct (Z.ltb_spec x y) as [Hlt | Hge].
    + constructor; [constructor; assumption|].
      constructor; [exact Hlt|].
      eapply Forall_impl; [| exact Hall]. simpl. intros; lia.
    + destruct (Z.eqb_spec x y) as [-> | Hne];
        [constructor; assumption|].
      constructor; [exact IH|].
      rewrite Forall_forall in *. intros c Hc.
      apply insert_unique_in in Hc. destruct Hc as [-> | Hc];
        [lia | apply Hall, Hc].
Qed.

Lemma np_unique_in (l : list Z) (c : Z) : In c (np_unique l) <-> In c l.
Proof.
  induction l as [|x l IH]; simpl; [tauto|].
  rewrite insert_unique_in, IH. intuition.
Qed.

Lemma np_unique_sorted (l : list Z) : StronglySorted Z.lt (np_unique l).
Proof.
  induction l as [|x l IH]; simpl; [constructor|].
  apply insert_unique_sorted, IH.
Qed.

Lemma py_sorted_of_sorted (s : list Z) :
  StronglySorted Z.lt s -> py_sorted s = s.
Proof.
  induction 1 as [|y s Hs IH Hall]; simpl; [reflexivity|].
  rewrite IH. destruct s as [|z s]; [reflexivity|].
  simpl. inversion Hall; subst.
  destruct (Z.leb_spec y z); [reflexivity | lia].
Qed.

Lemma length_label_mask (labels : list Z) (c : Z) :
  length (label_mask labels c) = length labels.
Proof. apply length_map. Qed.

Lemma cluster_means_loop_done (features : list (list R)) (labels : list Z)
  (ids : list Z) :
  length labels = length features ->
  cluster_means_loop features labels ids =
  Done (map (fun c => mean0 (ncols features)
                        (mask_rows features (label_mask labels c))) ids).
Proof.
  intros Hlen. induction ids as [|c ids IH]; simpl; [reflexivity|].
  unfold select. rewrite length_label_mask, Hlen, Nat.eqb_refl.
  simpl. rewrite IH. reflexivity.
Qed.

Lemma filter_map_comm {A B : Type} (g : A -> B) (f : B -> bool)
  (l : list A) :
  filter f (map g l) = map g (filter (fun x => f (g x)) l).
Proof.
  induction l as [|x l IH]; simpl; [reflexivity|].
  rewrite IH. destruct (f (g x)); reflexivity.
Qed.

Lemma members_of_cons (l : Z) (labels : list Z) (c : Z) :
  members_of (l :: labels) c =
  (if (l =? c)%Z then [0%nat] else []) ++ map S (members_of labels c).
Proof.
  unfold members_of.
  change (length (l :: labels)) with (S (length labels)).
  rewrite <- cons_seq, <- seq_shift. cbn [filter].
  rewrite filter_map_comm.
  change (nth 0 (l :: labels) 0%Z) with l.
  destruct (l =? c)%Z; reflexivity.
Qed.

Lemma mask_rows_members {A : Type} (d : A) (rows : list A)
  (labels : list Z) (c : Z) :
  length labels = length rows ->
  mask_rows rows (label_mask labels c) =
  map (fun p => nth p rows d) (members_of labels c).
Proof.
  revert labels. induction rows as [|r rows IH]; intros labels Hlen.
  - destruct labels; [reflexivity | discriminate].
  - destruct labels as [|l labels]; [discriminate|].
    injection Hlen as Hlen.
    rewrite members_of_cons, map_app, map_map. cbn [label_mask map mask_rows].
    fold (label_mask labels c). rewrite (IH labels Hlen).
    destruct (l =? c)%Z; reflexivity.
Qed.

Lemma members_of_nonempty (labels : list Z) (c : Z) :
  In c labels -> (0 < length (members_of labels c))%nat.
Proof.
  intros Hin. destruct (In_nth _ _ 0%Z Hin) as [p [Hp Hc]].
  assert (H : In p (members_of labels c)).
  { unfold members_of. apply filter_In. split; [apply in_seq; lia|].
    apply Z.eqb_eq. exact Hc. }
  destruct (members_of labels c); [destruct H | simpl; lia].
Qed.

Lemma length_vadd (a b : list R) :
  length a = length b -> length (vadd a b) = length a.
Proof.
  revert b. induction a as [|x a IH]; intros [|y b] H; simpl in *;
    try discriminate; [reflexivity|].
  f_equal. apply IH. lia.
Qed.

Lemma nth_vadd (a b : list R) (j : nat) :
  length a = length b ->
  nth j (vadd a b) 0 = nth j a 0 + nth j b 0.
Proof.
  revert b j. induction a as [|x a IH]; intros [|y b] j H; simpl in *;
    try discriminate.
  - destruct j; lra.
  - destruct j; [reflexivity|]. apply IH. lia.
Qed.

Lemma col_sums_spec (d : nat) (rows : list (list R)) :
  Forall (fun r => length r = d) rows ->
  length (col_sums d rows) = d /\
  forall j, nth j (col_sums d rows) 0 = Rsum (map (fun r => nth j r 0) rows).
Proof.
  induction 1 as [|r rows Hr Hall IH]; simpl.
  - split; [apply repeat_length|].
    intros j. destruct (Nat.lt_ge_cases j d) as [Hj | Hj].
    + apply nth_repeat_lt. exact Hj.
    + apply nth_overflow. rewrite repeat_length. exact Hj.
  - destruct IH as [Hl Hn].
    assert (Hrl : length r = length (col_sums d rows)) by congruence.
    split; [rewrite length_vadd; congruence|].
    intros j. rewrite nth_vadd by exact Hrl. rewrite Hn. reflexivity.
Qed.

Lemma mean0_spec (d : nat) (rows : list (list R)) :
  Forall (fun r => length r = d) rows ->
  length (mean0 d rows) = d /\
  forall j, (j < d)%nat ->
    nth j (mean0 d rows) 0
    = Rsum (map (fun r => nth j r 0) rows) / INR (length rows).
Proof.
  intros H. destruct (col_sums_spec d rows H) as [Hl Hn].
  unfold mean0. split; [rewrite length_map; exact Hl|].
  intros j Hj.
  rewrite (nth_indep _ 0 (0 / INR (length rows)))
    by (rewrite length_map; lia).
  rewrite (map_nth (fun s => s / INR (length rows))). rewrite Hn.
  reflexivity.
Qed.

Lemma Forall_mask_rows {A : Type} (P : A -> Prop) (rows : list A)
  (mask : list bool) :
  Forall P rows -> Forall P (mask_rows rows mask).
Proof.
  intros H. revert mask. induction H as [|r rows Hr Hall IH];
    intros [|b mask]; simpl; try constructor.
  destruct b; [constructor; [exact Hr | apply IH] | apply IH].
Qed.

(** C3.  On a non-empty [N x d] feature matrix with [N] integer labels,
    [find_cluster_means] returns the distinct labels in strictly
    ascending order together with one centroid row for each of them, and
    coordinate [j] of row [i] is the arithmetic mean of coordinate [j]
    over the (at least one) points whose label is the [i]-th distinct
    label.  The torch version of the loss module returns the same rows. *)
Theorem find_cluster_means_correct (features : list (list R))
  (labels : list Z) (d : nat) :
  features <> [] ->
  length labels = length features ->
  Forall (fun r => length r = d) features ->
  exists group_ids means,
    find_cluster_means features labels = Done (group_ids, means) /\
    DiscriminativeLoss_find_cluster_means features labels = Done means /\
    StronglySorted Z.lt group_ids /\
    (forall c, In c group_ids <-> In c labels) /\
    length means = length group_ids /\
    forall i c, nth_error group_ids i = Some c ->
      exists row,
        nth_error means i = Some row /\
        length row = d /\
        (0 < length (members_of labels c))%nat /\
        forall j, (j < d)%nat ->
          nth j row 0 = member_mean features labels c j.
Proof.
  intros Hne Hlen Hrect.
  assert (Hd : ncols features = d).
  { destruct features as [|r rows]; [congruence|].
    inversion Hrect; subst. reflexivity. }
  pose proof (np_unique_sorted labels) as Hsorted.
  set (ids := np_unique labels) in *.
  set (centroid := fun c => mean0 (ncols features)
                              (mask_rows features (label_mask labels c))).
  exists ids, (map centroid ids).
  assert (Hids : ids <> []).
  { destruct labels as [|l labels];
      [destruct features; [congruence | discriminate]|].
    intros Hnil.
    assert (Hin : In l ids) by (apply np_unique_in; left; reflexivity).
    rewrite Hnil in Hin. destruct Hin. }
  assert (Hmeans : map centroid ids <> []).
  { destruct ids; [congruence | discriminate]. }
  split; [| split; [| split; [| split; [| split]]]].
  - unfold find_cluster_means. rewrite py_sorted_of_sorted by exact Hsorted.
    fold ids. rewrite cluster_means_loop_done by exact Hlen.
    fold centroid. simpl.
    destruct (map centroid ids); [congruence | reflexivity].
  - unfold DiscriminativeLoss_find_cluster_means. fold ids.
    rewrite cluster_means_loop_done by exact Hlen.
    fold centroid. simpl.
    destruct (map centroid ids); [congruence | reflexivity].
  - exact Hsorted.
  - intros c. apply np_unique_in.
  - apply length_map.
  - intros i c Hi. exists (centroid c).
    assert (Hin : In c labels).
    { apply np_unique_in. eapply nth_error_In. exact Hi. }
    assert (Hall : Forall (fun r => length r = d)
                     (mask_rows features (label_mask labels c))).
    { apply Forall_mask_rows. exact Hrect. }
    destruct (mean0_spec d _ Hall) as [Hl Hn].
    split; [| split; [| split]].
    + rewrite nth_error_map, Hi. reflexivity.
    + unfold centroid. rewrite Hd. exact Hl.
    + apply members_of_nonempty. exact Hin.
    + intros j Hj. unfold centroid. rewrite Hd, (Hn j Hj).
      unfold member_mean.
      rewrite (mask_rows_members [] features labels c Hlen).
      rewrite map_map, length_map. reflexivity.
Qed.

Lemma find_cluster_means_correct_witness :
  exists group_ids means,
    find_cluster_means [[0]; [2]; [3]] [0; 0; 1]%Z = Done (group_ids, means) /\
    DiscriminativeLoss_find_cluster_means [[0]; [2]; [3]] [0; 0; 1]%Z
      = Done means /\
    StronglySorted Z.lt group_ids /\
    length means = length group_ids.
Proof.
  destruct (find_cluster_means_correct [[0]; [2]; [3]] [0; 0; 1]%Z 1)
    as (ids & means & H1 & H2 & H3 & _ & H5 & _).
  - discriminate.
  - reflexivity.
  - repeat constructor.
  - exists ids, means. repeat split; assumption.
Defined.

(* ================================================================== *)
(** ** The inter-cluster loss *)

Lemma Rsum_app (a b : list R) : Rsum (a ++ b) = Rsum a + Rsum b.
Proof. induction a as [|x a IH]; simpl; [lra | rewrite IH; lra]. Qed.

Lemma fold_left_ext {A B : Type} (f g : A -> B -> A) (l : list B) (a : A) :
  (forall a x, f a x = g a x) -> fold_left f l a = fold_left g l a.
Proof.
  intros H. revert a. induction l as [|x l IH]; intros a; simpl;
    [reflexivity|].
  rewrite H. apply IH.
Qed.

Lemma fold_left_Rsum {B : Type} (f : B -> R) (l : list B) (acc : R) :
  fold_left (fun a x => a + f x) l acc = acc + Rsum (map f l).
Proof.
  revert acc. induction l as [|x l IH]; intros acc; simpl; [lra|].
  rewrite IH. lra.
Qed.

Lemma enumerate_from {A : Type} (d : A) (l : list A) (s : nat) :
  List.combine (seq s (length l)) l
  = map (fun j => (j, nth (j - s) l d)) (seq s (length l)).
Proof.
  revert s. induction l as [|x l IH]; intros s; simpl; [reflexivity|].
  rewrite Nat.sub_diag. f_equal.
  rewrite IH. apply map_ext_in. intros j Hj. apply in_seq in Hj.
  replace (j - s)%nat with (S (j - S s)) by lia. reflexivity.
Qed.

Lemma enumerate_seq {A : Type} (d : A) (l : list A) :
  enumerate l = map (fun j => (j, nth j l d)) (seq 0 (length l)).
Proof.
  unfold enumerate. rewrite (enumerate_from d).
  apply map_ext. intros j. rewrite Nat.sub_0_r. reflexivity.
Qed.

Lemma Rsum_filter {A : Type} (P : A -> bool) (f : A -> R) (l : list A) :
  Rsum (map f (filter P l)) = Rsum (map (fun x => if P x then f x else 0) l).
Proof.
  induction l as [|x l IH]; simpl; [reflexivity|].
  destruct (P x); simpl; rewrite IH; lra.
Qed.

Lemma Rsum_list_prod {A B : Type} (f : A * B -> R) (l1 : list A)
  (l2 : list B) :
  Rsum (map f (list_prod l1 l2))
  = Rsum (map (fun i => Rsum (map (fun j => f (i, j)) l2)) l1).
Proof.
  induction l1 as [|x l1 IH]; simpl; [reflexivity|].
  rewrite map_app, Rsum_app, IH, map_map. reflexivity.
Qed.

Lemma fold_left_map_arg {A B C : Type} (f : A -> B -> A) (g : C -> B)
  (l : list C) (a : A) :
  fold_left f (map g l) a = fold_left (fun a x => f a (g x)) l a.
Proof.
  revert a. induction l as [|x l IH]; intros a; simpl; [reflexivity|].
  apply IH.
Qed.

Section InterClusterLoss.
Variable norm : list R -> R.
Variable cluster_means : list (list R).
Variable margin : R.

Let n := length cluster_means.
Let h := pair_hinge (perturbed_dist norm) cluster_means margin.

Lemma inter_inner_sum (i : nat) (a : R) :
  inter_inner norm margin i (nth i cluster_means []) cluster_means a
  = a + Rsum (map (fun j => if negb (Nat.eqb i j) then h (i, j) else 0)
                  (seq 0 n)).
Proof.
  unfold inter_inner.
  rewrite (enumerate_seq []), fold_left_map_arg.
  rewrite <- fold_left_Rsum. apply fold_left_ext.
  intros a0 j. destruct (Nat.eqb i j); simpl; [lra|].
  unfold h, pair_hinge, perturbed_dist. simpl.
  rewrite Rmax_comm. reflexivity.
Qed.

(** The two nested loops add up the hinge terms of the ordered pairs. *)
Lemma inter_loops_sum :
  fold_left
    (fun a ic => let '(i, c1) := ic in
                 inter_inner norm margin i c1 cluster_means a)
    (enumerate cluster_means) 0
  = Rsum (map h (ordered_pairs n)).
Proof.
  rewrite (enumerate_seq []), fold_left_map_arg.
  rewrite (fold_left_ext _
             (fun a i => a + Rsum (map (fun j => if negb (Nat.eqb i j)
                                                 then h (i, j) else 0)
                                       (seq 0 n)))).
  - rewrite fold_left_Rsum. unfold ordered_pairs.
    rewrite Rsum_filter, Rsum_list_prod. fold n. simpl. lra.
  - intros a i. apply inter_inner_sum.
Qed.

Lemma inter_cluster_loss_small :
  (n < 2)%nat -> inter_cluster_loss norm cluster_means margin = 0.
Proof.
  intros H. unfold inter_cluster_loss. fold n.
  destruct (Nat.ltb_spec n 2); [reflexivity | lia].
Qed.

Lemma inter_cluster_loss_sum :
  (2 <= n)%nat ->
  inter_cluster_loss norm cluster_means margin
  = inter_cluster_sum (perturbed_dist norm) cluster_means margin.
Proof.
  intros H. unfold inter_cluster_loss, inter_cluster_sum. fold n.
  destruct (Nat.ltb_spec n 2); [lia|].
  rewrite inter_loops_sum. fold h. f_equal.
  rewrite mult_INR, minus_INR by lia. simpl. ring.
Qed.
End InterClusterLoss.

(** *** The size of the [1e-8] perturbation *)

Lemma cauchy_schwarz (a b : list R) :
  Rsum (zip_with Rmult a b) ^ 2 <= Rsum (map sq a) * Rsum (map sq b).
Proof.
  revert b. induction a as [|x a IH]; intros [|y b]; simpl; try nra.
  - specialize (IH b).
    pose proof (Rsum_sq_nonneg a) as HA.
    pose proof (Rsum_sq_nonneg b) as HB.
    set (A := Rsum (map sq a)) in *.
    set (B := Rsum (map sq b)) in *.
    set (C := Rsum (zip_with Rmult a b)) in *.
    unfold sq.
    assert (Hcross : 2 * (x * y * C) <= x ^ 2 * B + y ^ 2 * A).
    { destruct HA as [HA | HA].
      - assert (H1 : 0 <= x ^ 2 * (A * B - C ^ 2)).
        { apply Rmult_le_pos; [apply pow2_ge_0 | lra]. }
        pose proof (pow2_ge_0 (x * C - y * A)) as H2.
        assert (H3 : 0 <= A * (x ^ 2 * B + y ^ 2 * A - 2 * (x * y * C))).
        { replace (A * (x ^ 2 * B + y ^ 2 * A - 2 * (x * y * C)))
            with (x ^ 2 * (A * B - C ^ 2) + (x * C - y * A) ^ 2) by ring.
          lra. }
        assert (H4 : 0 <= x ^ 2 * B + y ^ 2 * A - 2 * (x * y * C)).
        { apply (Rmult_le_reg_l A); [exact HA | lra]. }
        lra.
      - rewrite <- HA in *.
        assert (HC : C = 0).
        { pose proof (pow2_ge_0 C). nra. }
        rewrite HC. pose proof (pow2_ge_0 x). nra. }
    nra.
Qed.

Lemma Rsum_sq_vadd (a b : list R) :
  length a = length b ->
  Rsum (map sq (vadd a b))
  = Rsum (map sq a) + Rsum (map sq b) + 2 * Rsum (zip_with Rmult a b).
Proof.
  revert b. induction a as [|x a IH]; intros [|y b] H; simpl in *;
    try discriminate; [lra|].
  unfold vadd in *. rewrite IH by lia. unfold sq. ring.
Qed.

Lemma norm2_nonneg (v : list R) : 0 <= norm2 v.
Proof. apply sqrt_pos. Qed.

Lemma norm2_triangle (a b : list R) :
  length a = length b -> norm2 (vadd a b) <= norm2 a + norm2 b.
Proof.
  intros H. unfold norm2. rewrite (Rsum_sq_vadd a b H).
  pose proof (Rsum_sq_nonneg a) as HA.
  pose proof (Rsum_sq_nonneg b) as HB.
  pose proof (cauchy_schwarz a b) as HCS.
  set (A := Rsum (map sq a)) in *.
  set (B := Rsum (map sq b)) in *.
  set (C := Rsum (zip_with Rmult a b)) in *.
  pose proof (sqrt_pos A) as HsA. pose proof (sqrt_pos B) as HsB.
  pose proof (pow2_sqrt A HA) as EA. pose proof (pow2_sqrt B HB) as EB.
  assert (HC : C <= sqrt A * sqrt B).
  { destruct (Rle_lt_dec C (sqrt A * sqrt B)) as [Hle | Hgt]; [exact Hle|].
    exfalso.
    assert (H0 : 0 <= sqrt A * sqrt B) by (apply Rmult_le_pos; assumption).
    assert (H1 : (sqrt A * sqrt B) ^ 2 < C ^ 2) by nra.
    replace ((sqrt A * sqrt B) ^ 2) with (sqrt A ^ 2 * sqrt B ^ 2) in H1
      by ring.
    rewrite EA, EB in H1. lra. }
  rewrite <- (sqrt_pow2 (sqrt A + sqrt B)) by lra.
  apply sqrt_le_1_alt. nra.
Qed.

Lemma add_eps_vadd (v : list R) :
  add_eps v = vadd v (repeat eps (length v)).
Proof.
  unfold add_eps, vadd. induction v as [|x v IH]; simpl; [reflexivity|].
  rewrite IH. reflexivity.
Qed.

Lemma vadd_add_eps_back (v : list R) :
  v = vadd (add_eps v) (repeat (- eps) (length v)).
Proof.
  unfold add_eps, vadd. induction v as [|x v IH]; simpl; [reflexivity|].
  rewrite <- IH. f_equal. ring.
Qed.

Lemma norm2_repeat (c : R) (d : nat) :
  norm2 (repeat c d) = Rabs c * sqrt (INR d).
Proof.
  unfold norm2.
  assert (H : Rsum (map sq (repeat c d)) = Rsqr c * INR d).
  { induction d as [|d IH]; [simpl; ring|].
    rewrite S_INR. cbn [repeat map]. unfold Rsum in *. cbn [fold_right].
    rewrite IH. unfold sq, Rsqr. ring. }
  rewrite H, sqrt_mult by (try apply Rle_0_sqr; apply pos_INR).
  rewrite sqrt_Rsqr_abs. reflexivity.
Qed.

Lemma eps_pos : 0 < eps.
Proof. unfold eps. lra. Qed.

Lemma norm2_add_eps_close (v : list R) :
  Rabs (norm2 (add_eps v) - norm2 v) <= eps * sqrt (INR (length v)).
Proof.
  pose proof eps_pos as He.
  assert (H1 : norm2 (add_eps v) <= norm2 v + eps * sqrt (INR (length v))).
  { rewrite add_eps_vadd.
    eapply Rle_trans; [apply norm2_triangle; rewrite repeat_length;
                       reflexivity|].
    rewrite norm2_repeat, Rabs_pos_eq by lra. lra. }
  assert (H2 : norm2 v <= norm2 (add_eps v) + eps * sqrt (INR (length v))).
  { rewrite (vadd_add_eps_back v) at 1.
    eapply Rle_trans;
      [apply norm2_triangle; unfold add_eps;
       rewrite repeat_length, length_map; reflexivity|].
    rewrite norm2_repeat, Rabs_Ropp, Rabs_pos_eq by lra. lra. }
  apply Rabs_le. lra.
Qed.

Lemma Rabs_le_inv (x y : R) : Rabs x <= y -> - y <= x <= y.
Proof.
  intros H. pose proof (Rle_abs x) as H1. pose proof (Rle_abs (- x)) as H2.
  rewrite Rabs_Ropp in H2. lra.
Qed.

Lemma hinge_sq_close (m d d' delta : R) :
  0 <= d -> 0 <= d' -> Rabs (d' - d) <= delta ->
  Rabs (Rmax 0 (2 * m - d') ^ 2 - Rmax 0 (2 * m - d) ^ 2)
  <= 4 * Rabs m * delta.
Proof.
  intros Hd Hd' Hc.
  apply Rabs_le_inv in Hc.
  assert (Hm : m <= Rabs m) by apply Rle_abs.
  pose proof (Rabs_pos m) as Hm0.
  set (h := Rmax 0 (2 * m - d)). set (h' := Rmax 0 (2 * m - d')).
  assert (Hh : 0 <= h <= 2 * Rabs m).
  { unfold h. split; [apply Rmax_l | apply Rmax_lub; lra]. }
  assert (Hh' : 0 <= h' <= 2 * Rabs m).
  { unfold h'. split; [apply Rmax_l | apply Rmax_lub; lra]. }
  assert (Hdiff : - delta <= h' - h <= delta).
  { unfold h, h', Rmax.
    destruct (Rle_dec 0 (2 * m - d)), (Rle_dec 0 (2 * m - d')); lra. }
  assert (Hdelta : 0 <= delta) by lra.
  apply Rabs_le.
  replace (h' ^ 2 - h ^ 2) with ((h' - h) * (h' + h)) by ring.
  split; nra.
Qed.

Lemma Rsum_close {A : Type} (f g : A -> R) (l : list A) (tol : R) :
  (forall x, In x l -> Rabs (f x - g x) <= tol) ->
  Rabs (Rsum (map f l) - Rsum (map g l)) <= INR (length l) * tol.
Proof.
  induction l as [|x l IH]; intros H.
  - simpl. rewrite Rminus_diag, Rabs_R0. lra.
  - cbn [map Rsum fold_right length]. rewrite S_INR.
    fold (Rsum (map f l)). fold (Rsum (map g l)).
    assert (H1 : Rabs (f x - g x) <= tol) by (apply H; left; reflexivity).
    assert (H2 : Rabs (Rsum (map f l) - Rsum (map g l)) <= INR (length l) * tol).
    { apply IH. intros y Hy. apply H. right. exact Hy. }
    apply Rabs_le_inv in H1. apply Rabs_le_inv in H2.
    apply Rabs_le. lra.
Qed.

Lemma Rsum_const {A : Type} (c : R) (l : list A) :
  Rsum (map (fun _ => c) l) = INR (length l) * c.
Proof.
  induction l as [|x l IH]; [simpl; ring|].
  cbn [map length]. rewrite S_INR. unfold Rsum in *. cbn [fold_right].
  rewrite IH. ring.
Qed.

Lemma Rsum_off_diagonal_out (i s m : nat) :
  (i < s \/ s + m <= i)%nat ->
  Rsum (map (fun j => if negb (Nat.eqb i j) then 1 else 0) (seq s m))
  = INR m.
Proof.
  intros H. rewrite (map_ext_in _ (fun _ => 1)).
  - rewrite Rsum_const, length_seq. ring.
  - intros j Hj. apply in_seq in Hj.
    destruct (Nat.eqb_spec i j); [lia | reflexivity].
Qed.

Lemma Rsum_off_diagonal (i s m : nat) :
  (s <= i < s + m)%nat ->
  Rsum (map (fun j => if negb (Nat.eqb i j) then 1 else 0) (seq s m))
  = INR m - 1.
Proof.
  revert s. induction m as [|m IH]; intros s H; [lia|].
  rewrite S_INR. cbn [seq map]. unfold Rsum in *. cbn [fold_right].
  destruct (Nat.eqb_spec i s) as [-> | Hne]; cbn [negb].
  - pose proof (Rsum_off_diagonal_out s (S s) m) as Hout.
    unfold Rsum in Hout. rewrite Hout by lia. ring.
  - rewrite IH by lia. ring.
Qed.

Lemma length_ordered_pairs (n : nat) :
  INR (length (ordered_pairs n)) = INR n * (INR n - 1).
Proof.
  unfold ordered_pairs.
  assert (Hlen : forall (A : Type) (P : A -> bool) (l : list A),
             INR (length (filter P l))
             = Rsum (map (fun x => if P x then 1 else 0) l)).
  { intros A P l. induction l as [|x l IH]; [reflexivity|].
    simpl. destruct (P x); [|rewrite IH; lra].
    cbn [length]. rewrite S_INR, IH. lra. }
  rewrite Hlen, Rsum_list_prod. cbn [fst snd].
  rewrite (map_ext_in _ (fun _ => INR n - 1)).
  - rewrite Rsum_const, length_seq. reflexivity.
  - intros i Hi. apply in_seq in Hi. apply Rsum_off_diagonal. lia.
Qed.

Lemma length_zip_with {A B C : Type} (f : A -> B -> C) (a : list A)
  (b : list B) :
  length a = length b -> length (zip_with f a b) = length a.
Proof.
  revert b. induction a as [|x a IH]; intros [|y b] H; simpl in *;
    try discriminate; [reflexivity|].
  f_equal. apply IH. lia.
Qed.

Lemma ordered_pairs_in (n i j : nat) :
  In (i, j) (ordered_pairs n) -> (i < n)%nat /\ (j < n)%nat /\ i <> j.
Proof.
  unfold ordered_pairs. intros H. apply filter_In in H.
  destruct H as [H Hne]. apply in_prod_iff in H. destruct H as [Hi Hj].
  apply in_seq in Hi. apply in_seq in Hj. simpl in Hne.
  destruct (Nat.eqb_spec i j); [discriminate|]. lia.
Qed.

Lemma inter_cluster_tolerance (cluster_means : list (list R)) (margin : R)
  (d : nat) :
  (2 <= length cluster_means)%nat ->
  Forall (fun r => length r = d) cluster_means ->
  Rabs (inter_cluster_sum (perturbed_dist norm2) cluster_means margin
        - inter_cluster_sum (exact_dist norm2) cluster_means margin)
  <= 4 * Rabs margin * (eps * sqrt (INR d)).
Proof.
  intros Hn Hrect. unfold inter_cluster_sum.
  set (n := length cluster_means) in *.
  set (tol := 4 * Rabs margin * (eps * sqrt (INR d))).
  assert (HD : 0 < INR n * (INR n - 1)).
  { assert (2 <= INR n) by (apply (le_INR 2); exact Hn). nra. }
  assert (Hsum :
    Rabs (Rsum (map (pair_hinge (perturbed_dist norm2) cluster_means margin)
                    (ordered_pairs n))
          - Rsum (map (pair_hinge (exact_dist norm2) cluster_means margin)
                      (ordered_pairs n)))
    <= INR n * (INR n - 1) * tol).
  { rewrite <- length_ordered_pairs. apply Rsum_close.
    intros [i j] Hin. apply ordered_pairs_in in Hin.
    destruct Hin as (Hi & Hj & _).
    unfold pair_hinge, perturbed_dist, exact_dist, tol. cbn [fst snd].
    rewrite Forall_forall in Hrect.
    assert (Hli : length (nth i cluster_means []) = d)
      by (apply Hrect, nth_In; exact Hi).
    assert (Hlj : length (nth j cluster_means []) = d)
      by (apply Hrect, nth_In; exact Hj).
    set (v := vsub (nth i cluster_means []) (nth j cluster_means [])).
    assert (Hv : length v = d).
    { unfold v, vsub. rewrite length_zip_with; congruence. }
    apply hinge_sq_close; try apply norm2_nonneg.
    rewrite <- Hv. apply norm2_add_eps_close. }
  apply Rabs_le_inv in Hsum. apply Rabs_le.
  assert (Hi : 0 < / (INR n * (INR n - 1))) by (apply Rinv_0_lt_compat; lra).
  set (D := INR n * (INR n - 1)) in *.
  set (SA := Rsum (map (pair_hinge (perturbed_dist norm2) cluster_means
                          margin) (ordered_pairs n))) in *.
  set (SB := Rsum (map (pair_hinge (exact_dist norm2) cluster_means margin)
                       (ordered_pairs n))) in *.
  assert (E : SA / D - SB / D = (SA - SB) * / D) by (unfold Rdiv; ring).
  rewrite E.
  assert (T : tol = D * tol * / D) by (field; lra).
  split.
  - rewrite T. replace (- (D * tol * / D)) with ((- (D * tol)) * / D) by ring.
    apply Rmult_le_compat_r; lra.
  - rewrite T. apply Rmult_le_compat_r; lra.
Qed.

(** C4.  With fewer than two centroids [inter_cluster_loss] returns
    exactly 0, whatever the centroids are.  With [n >= 2] centroids it
    returns the sum, over the ordered pairs of distinct centroids, of
    [max(0, 2 margin - dist)^2] divided by [n (n - 1)], where [dist] is
    the configured norm of the difference with [1e-8] added to every
    coordinate.  For the 2-norm and centroids of dimension [d] this is
    within [4 |margin| 1e-8 sqrt(d)] of the same sum taken with the
    unperturbed distance. *)
Theorem inter_cluster_loss_correct (norm : list R -> R)
  (cluster_means : list (list R)) (margin : R) (d : nat) :
  ((length cluster_means < 2)%nat ->
   inter_cluster_loss norm cluster_means margin = 0) /\
  ((2 <= length cluster_means)%nat ->
   inter_cluster_loss norm cluster_means margin
   = inter_cluster_sum (perturbed_dist norm) cluster_means margin) /\
  ((2 <= length cluster_means)%nat ->
   Forall (fun r => length r = d) cluster_means ->
   Rabs (inter_cluster_loss norm2 cluster_means margin
         - inter_cluster_sum (exact_dist norm2) cluster_means margin)
   <= 4 * Rabs margin * (eps * sqrt (INR d))).
Proof.
  split; [| split].
  - apply inter_cluster_loss_small.
  - apply inter_cluster_loss_sum.
  - intros Hn Hrect. rewrite inter_cluster_loss_sum by exact Hn.
    apply inter_cluster_tolerance; assumption.
Qed.

Lemma inter_cluster_loss_correct_witness :
  inter_cluster_loss norm2 [[1; 0]] (3/2) = 0 /\
  inter_cluster_loss norm2 [[1; 0]; [3; 0]] (3/2)
  = inter_cluster_sum (perturbed_dist norm2) [[1; 0]; [3; 0]] (3/2) /\
  Rabs (inter_cluster_loss norm2 [[1; 0]; [3; 0]] (3/2)
        - inter_cluster_sum (exact_dist norm2) [[1; 0]; [3; 0]] (3/2))
  <= 4 * Rabs (3/2) * (eps * sqrt (INR 2)).
Proof.
  split; [| split].
  - apply (inter_cluster_loss_correct norm2 [[1; 0]] (3/2) 2). simpl. lia.
  - apply (inter_cluster_loss_correct norm2 [[1; 0]; [3; 0]] (3/2) 2).
    simpl. lia.
  - apply (inter_cluster_loss_correct norm2 [[1; 0]; [3; 0]] (3/2) 2).
    + simpl. lia.
    + repeat constructor.
Defined.

(* ================================================================== *)
(** ** The loop of the best-fit decoder *)

Lemma nth_mask_assign (a : list R) (mask : list bool) (k : nat) :
  nth k (mask_assign a mask 0) 0
  = if nth k mask false then 0 else nth k a 0.
Proof.
  revert mask k. induction a as [|x a IH]; intros mask k.
  - destruct mask, k; simpl; try reflexivity;
      match goal with |- context [if ?b then _ else _] => destruct b end;
      reflexivity.
  - destruct mask as [|b mask]; simpl.
    + destruct k; reflexivity.
    + destruct k; [destruct b; reflexivity | apply IH].
Qed.

Lemma length_mask_assign {A : Type} (a : list A) (mask : list bool) (v : A) :
  length (mask_assign a mask v) = length a.
Proof.
  revert mask. induction a as [|x a IH]; intros [|b mask]; simpl;
    try reflexivity.
  f_equal. apply IH.
Qed.

Lemma nth_claimed (p : R) (col : list np_float) (k : nat) :
  nth k (claimed p col) false = np_gtb (nth k col NaN) (Fin p).
Proof.
  unfold claimed.
  change false with ((fun v => np_gtb v (Fin p)) NaN) at 1.
  apply map_nth.
Qed.

Lemma map_nth_seq {A : Type} (d : A) (l : list A) :
  map (fun k => nth k l d) (seq 0 (length l)) = l.
Proof.
  induction l as [|x l IH]; [reflexivity|].
  cbn [length seq map nth]. f_equal.
  rewrite <- seq_shift, map_map. exact IH.
Qed.

Lemma count_true_claimed (p : R) (col : list np_float) :
  count_true (claimed p col)
  = length (filter (fun k => np_gtb (nth k col NaN) (Fin p))
                   (seq 0 (length col))).
Proof.
  unfold count_true, claimed.
  rewrite filter_map_comm, length_map.
  rewrite <- (map_nth_seq NaN col) at 1.
  rewrite filter_map_comm, length_map. reflexivity.
Qed.

Lemma filter_orb_length {A : Type} (f g : A -> bool) (l : list A) :
  (length (filter (fun x => f x || g x) l)
   <= length (filter f l) + length (filter g l))%nat.
Proof.
  induction l as [|x l IH]; simpl; [lia|].
  destruct (f x), (g x); simpl; lia.
Qed.

Lemma filter_not_all {A : Type} (f : A -> bool) (l : list A) :
  (length (filter f l) < length l)%nat -> exists x, In x l /\ f x = false.
Proof.
  induction l as [|x l IH]; simpl; [lia|].
  destruct (f x) eqn:Hf; simpl; intros H.
  - destruct IH as [y [Hy Hfy]]; [lia|]. exists y. split; [right|]; assumption.
  - exists x. split; [left; reflexivity | exact Hf].
Qed.

Lemma count_true_pos (mask : list bool) (i : nat) :
  nth i mask false = true -> (1 <= count_true mask)%nat.
Proof.
  unfold count_true. revert i. induction mask as [|b mask IH]; intros i H.
  - destruct i; discriminate.
  - destruct i; simpl in *.
    + subst b. simpl. lia.
    + specialize (IH i H). destruct b; simpl; lia.
Qed.

Section DecoderColumns.
Context {M : Type}.
Variable E : list (list R).
Variable Sd : list R.
Variable Mg : list M.
Variable K : kernel M.
Variable s p : R.

(** A pass that reaches the end of the body has seeded a sphere at an
    input point whose seediness is not below [s_threshold], and the
    kernel has returned as many values as [seediness_copy] has entries:
    the masked assignment raises otherwise. *)
Lemma fp2_body_inr st st' :
  fp2_body E Sd Mg K s p st = Done (inr st') ->
  exists i c sigma score,
    nth_error E i = Some c /\ nth_error Mg i = Some sigma /\
    nth_error Sd i = Some score /\ s <= score /\
    length (K c sigma E) = length (seediness_copy st) /\
    st' = fp2_next E K p st c sigma.
Proof.
  unfold fp2_body.
  destruct (argsort_rev_first (seediness_copy st)) as [i| |];
    cbn [bind]; try discriminate.
  unfold index.
  destruct (nth_error Sd i) as [score|] eqn:Hs; cbn [bind];
    try discriminate.
  destruct (Rltb_spec score s) as [Hlt | Hge]; [discriminate|].
  destruct (nth_error E i) as [c|] eqn:Hc; cbn [bind]; try discriminate.
  destruct (nth_error Mg i) as [sigma|] eqn:Hm; cbn [bind];
    try discriminate.
  unfold set_masked.
  destruct (Nat.eqb_spec (length (claimed p (K c sigma E)))
              (length (seediness_copy st))) as [Hl | Hl];
    cbn [bind]; try discriminate.
  intros H. injection H as <-. exists i, c, sigma, score.
  unfold claimed in Hl. rewrite length_map in Hl.
  repeat split; try assumption. lra.
Qed.

Lemma fp2_body_inl st st' :
  fp2_body E Sd Mg K s p st = Done (inl st') -> st' = st.
Proof.
  unfold fp2_body.
  destruct (argsort_rev_first (seediness_copy st)) as [i| |];
    cbn [bind]; try discriminate.
  destruct (index Sd i) as [score| |]; cbn [bind]; try discriminate.
  destruct (Rltb score s).
  { intros H. injection H as <-. reflexivity. }
  destruct (index E i) as [c| |]; cbn [bind]; try discriminate.
  destruct (index Mg i) as [sigma| |]; cbn [bind]; try discriminate.
  unfold set_masked.
  destruct (Nat.eqb _ _); cbn [bind]; discriminate.
Qed.

(** The body returns or raises: it has no loop of its own. *)
Lemma fp2_body_ends st : fp2_body E Sd Mg K s p st <> OutOfFuel.
Proof.
  unfold fp2_body, argsort_rev_first, index, set_masked.
  destruct (nth_error (rev (argsort (seediness_copy st))) 0) as [i|];
    cbn [bind]; try discriminate.
  destruct (nth_error Sd i) as [score|]; cbn [bind]; try discriminate.
  destruct (Rltb score s); [discriminate|].
  destruct (nth_error E i) as [c|]; cbn [bind]; try discriminate.
  destruct (nth_error Mg i) as [sigma|]; cbn [bind]; try discriminate.
  destruct (Nat.eqb _ _); cbn [bind]; discriminate.
Qed.

(** In a run that leaves the loop every column of [probs] has one entry
    for each seediness value. *)
Lemma fp2_loop_full_columns fuel st st' :
  fp2_loop E Sd Mg K s p fuel st = Done st' ->
  length (seediness_copy st) = length Sd ->
  Forall (fun col => length col = length Sd) (probs st) ->
  length (seediness_copy st') = length Sd /\
  Forall (fun col => length col = length Sd) (probs st').
Proof.
  revert st. induction fuel as [|fuel IH]; intros st H Hcopy Hcols.
  - simpl in H. destruct (Nat.ltb (count st) (length Sd));
      [discriminate | injection H as <-; split; assumption].
  - rewrite fp2_loop_S in H.
    destruct (Nat.ltb (count st) (length Sd));
      [| injection H as <-; split; assumption].
    destruct (fp2_body E Sd Mg K s p st) as [[st1 | st1]| |] eqn:Hb;
      cbn [bind] in H; try discriminate.
    + injection H as <-. rewrite (fp2_body_inl st st1 Hb).
      split; assumption.
    + destruct (fp2_body_inr st st1 Hb)
        as (i & c & sigma & score & _ & _ & _ & _ & Hl & ->).
      apply (IH _ H); unfold fp2_next; cbn [seediness_copy probs].
      * rewrite length_mask_assign. exact Hcopy.
      * apply Forall_app. split; [exact Hcols|].
        constructor; [congruence | constructor].
Qed.

(** More iterations do not change what a run that has come to an end
    gives. *)
Lemma fp2_loop_mono_any fuel st :
  fp2_loop E Sd Mg K s p fuel st <> OutOfFuel ->
  forall fuel', (fuel <= fuel')%nat ->
    fp2_loop E Sd Mg K s p fuel' st = fp2_loop E Sd Mg K s p fuel st.
Proof.
  revert st. induction fuel as [|fuel IH]; intros st Hne fuel' Hle.
  - simpl in *. destruct (Nat.ltb (count st) (length Sd)) eqn:Hc;
      [congruence|].
    apply fp2_loop_exit. exact Hc.
  - destruct fuel' as [|fuel']; [lia|].
    rewrite !fp2_loop_S in *.
    destruct (Nat.ltb (count st) (length Sd)); [|reflexivity].
    destruct (fp2_body E Sd Mg K s p st) as [[st1 | st1]| |];
      cbn [bind] in *; try reflexivity.
    apply IH; [exact Hne | lia].
Qed.
End DecoderColumns.

Lemma np_hstack_full (n : nat) (cols : list (list np_float)) :
  cols <> [] -> Forall (fun col => length col = n) cols ->
  np_hstack cols = Done (hstack_rows n cols).
Proof.
  destruct cols as [|col rest]; [congruence|].
  intros _ H. inversion H as [|? ? Hcol Hrest]; subst.
  unfold np_hstack.
  replace (forallb (fun c => Nat.eqb (length c) (length col)) rest)
    with true; [reflexivity|].
  symmetry. apply forallb_forall. intros c Hc. apply Nat.eqb_eq.
  rewrite Forall_forall in Hrest. apply Hrest. exact Hc.
Qed.

Section DecoderInvariant.
Context {M : Type}.
Variable E : list (list R).
Variable Sd : list R.
Variable Mg : list M.
Variable K : kernel M.
Variable s p : R.

Hypothesis length_E : length E = length Sd.
Hypothesis length_Mg : length Mg = length Sd.
Hypothesis length_K : forall c sigma, length (K c sigma E) = length E.

Let N := length Sd.
Let body := fp2_body E Sd Mg K s p.
Let next := fp2_next E K p.
Let inv := fp2_invariant (M := M) Sd p.

Lemma peeled_next st c sigma k :
  peeled p (next st c sigma) k
  = (peeled p st k || np_gtb (nth k (K c sigma E) NaN) (Fin p))%bool.
Proof.
  unfold peeled, next, fp2_next. cbn [probs].
  rewrite existsb_app. simpl. rewrite orb_false_r. reflexivity.
Qed.

Lemma fp2_invariant_init : inv (fp2_init Sd).
Proof.
  unfold inv, fp2_invariant, fp2_init, peeled. cbn [probs spheres
    seediness_copy count existsb].
  repeat split; try reflexivity.
  - assert (H : forall l, filter (fun _ : nat => false) l = [])
      by (induction l; simpl; auto).
    rewrite H. simpl. lia.
  - constructor.
Qed.

Lemma fp2_invariant_next st c sigma :
  inv st -> inv (next st c sigma).
Proof.
  intros (I1 & I2 & I3 & I4 & I5).
  unfold inv, fp2_invariant.
  assert (HK : length (K c sigma E) = length Sd)
    by (rewrite length_K; exact length_E).
  split; [| split; [| split; [| split]]].
  - unfold next, fp2_next. cbn [seediness_copy].
    rewrite length_mask_assign. exact I1.
  - intros k Hk. rewrite peeled_next.
    unfold next, fp2_next. cbn [seediness_copy].
    rewrite nth_mask_assign, nth_claimed, (I2 k Hk).
    destruct (peeled p st k), (np_gtb (nth k (K c sigma E) NaN) (Fin p));
      reflexivity.
  - rewrite (filter_ext _ _ (peeled_next st c sigma)).
    eapply Nat.le_trans; [apply filter_orb_length|].
    unfold next, fp2_next. cbn [count].
    rewrite count_true_claimed, HK. lia.
  - unfold next, fp2_next. cbn [probs].
    apply Forall_app. split; [exact I4|]. constructor; [exact HK|constructor].
  - unfold next, fp2_next. cbn [probs spheres].
    rewrite !length_app. simpl. lia.
Qed.

(** With the invariant, one pass through the body does not raise: it
    picks an index holding a maximum of [seediness_copy] and either
    breaks or moves to the next state. *)
Lemma fp2_body_step st :
  inv st -> (count st < N)%nat ->
  exists i c sigma,
    (i < N)%nat /\
    (forall k, (k < N)%nat ->
               nth k (seediness_copy st) 0 <= nth i (seediness_copy st) 0) /\
    nth_error E i = Some c /\
    nth_error Mg i = Some sigma /\
    body st = if Rltb (nth i Sd 0) s then Done (inl st)
              else Done (inr (next st c sigma)).
Proof.
  intros (I1 & I2 & I3 & I4 & I5) Hc.
  assert (Hne : seediness_copy st <> []).
  { intros Hnil. rewrite Hnil in I1. simpl in I1. fold N in I1. lia. }
  destruct (argsort_rev_first_total _ Hne) as [i Hi].
  destruct (argsort_rev_first_max _ _ Hi) as [HiN Hmax].
  rewrite I1 in HiN, Hmax. fold N in HiN, Hmax.
  destruct (nth_error E i) as [c|] eqn:Hce;
    [| apply nth_error_None in Hce; fold N in length_E; lia].
  destruct (nth_error Mg i) as [sigma|] eqn:Hme;
    [| apply nth_error_None in Hme; fold N in length_Mg; lia].
  exists i, c, sigma. repeat split; try assumption.
  unfold body, fp2_body. rewrite Hi. cbn [bind].
  rewrite (index_nth Sd i 0 HiN). cbn [bind].
  destruct (Rltb (nth i Sd 0) s); [reflexivity|].
  unfold index. rewrite Hce, Hme. cbn [bind].
  unfold set_masked, claimed. rewrite length_map, length_K, length_E, I1.
  rewrite Nat.eqb_refl. reflexivity.
Qed.

Lemma reachable_invariant st :
  reachable E Sd Mg K s p st -> inv st.
Proof.
  induction 1 as [|st st' Hr IH Hc Hb]; [apply fp2_invariant_init|].
  destruct (fp2_body_step st IH Hc) as (i & c & sigma & _ & _ & _ & _ & Hbody).
  fold body in Hb. rewrite Hbody in Hb.
  destruct (Rltb (nth i Sd 0) s); [discriminate|].
  injection Hb as <-. apply fp2_invariant_next. exact IH.
Qed.

(** While [count] is below the number of points, some point is not
    peeled. *)
Lemma unpeeled_exists st :
  inv st -> (count st < N)%nat ->
  exists u, (u < N)%nat /\ peeled p st u = false.
Proof.
  intros (_ & _ & I3 & _) Hc.
  destruct (filter_not_all (peeled p st) (seq 0 N)) as [u [Hu Hf]].
  - rewrite length_seq. fold N in I3. lia.
  - exists u. apply in_seq in Hu. split; [lia | exact Hf].
Qed.

(** With strictly positive seediness the index picked by the body is a
    highest remaining point. *)
Lemma picked_is_highest_remaining st i :
  Forall (fun x => 0 < x) Sd ->
  inv st -> (count st < N)%nat ->
  (i < N)%nat ->
  (forall k, (k < N)%nat ->
             nth k (seediness_copy st) 0 <= nth i (seediness_copy st) 0) ->
  highest_remaining Sd p st i.
Proof.
  intros Hpos Hinv Hc Hi Hmax.
  destruct (unpeeled_exists st Hinv Hc) as (u & Hu & Hpu).
  destruct Hinv as (I1 & I2 & _).
  fold N in I2.
  assert (Hposn : forall k, (k < N)%nat -> 0 < nth k Sd 0).
  { intros k Hk. rewrite Forall_forall in Hpos. apply Hpos, nth_In. exact Hk. }
  assert (Hcu : 0 < nth i (seediness_copy st) 0).
  { specialize (Hmax u Hu). rewrite (I2 u Hu), Hpu in Hmax.
    specialize (Hposn u Hu). lra. }
  assert (Hpi : peeled p st i = false).
  { destruct (peeled p st i) eqn:Hp; [|reflexivity].
    rewrite (I2 i Hi), Hp in Hcu. lra. }
  split; [exact Hi | split; [exact Hpi|]].
  intros k Hk Hpk. specialize (Hmax k Hk).
  rewrite (I2 k Hk), Hpk, (I2 i Hi), Hpi in Hmax. exact Hmax.
Qed.
End DecoderInvariant.

Lemma length_gaussian_kernel centroid sigma x :
  length (gaussian_kernel centroid sigma x) = length x.
Proof. apply length_map. Qed.

(** C6, as the spec states it, fails on seediness [1, -1] (two points far
    apart, [s_threshold = 0]).  After the first sphere has peeled point 0
    the only remaining point has seediness -1, below the threshold, and
    yet the second pass does not break: the zero left in
    [seediness_copy] is the maximum, the score is read from the original
    [seediness], and a second sphere is seeded at the peeled point 0. *)
Lemma fit_predict2_reseeds_peeled_point :
  ~ seed_discipline [[0]; [10]] [1; -1] [1; 1] gaussian_kernel 0 (1/2).
Proof.
  intros H.
  eassert (B0 : fp2_body [[0]; [10]] [1; -1] [1; 1] gaussian_kernel 0 (1/2)
                  (fp2_init [1; -1]) = Done (inr _)).
  { unfold fp2_init. np_eval. reflexivity. }
  match type of B0 with _ = Done (inr ?st) => set (st1 := st) in * end.
  assert (R1 : reachable [[0]; [10]] [1; -1] [1; 1] gaussian_kernel 0 (1/2)
                 st1).
  { eapply reach_step; [apply reach_init | | exact B0]. simpl. lia. }
  assert (C1 : (count st1 < 2)%nat) by (simpl; lia).
  destruct (H st1 R1 C1) as (i & (Hi & Hp & _) & Hb).
  assert (P0 : peeled (1/2) st1 0 = true).
  { unfold peeled, st1. np_eval. reflexivity. }
  assert (B1 : exists st2,
             fp2_body [[0]; [10]] [1; -1] [1; 1] gaussian_kernel 0 (1/2) st1
             = Done (inr st2)).
  { eexists. unfold st1. np_eval. reflexivity. }
  destruct B1 as [st2 B1].
  destruct i as [|[|i]]; [congruence | | simpl in Hi; lia].
  cbn [nth] in Hb. rewrite Rltb_true in Hb by lra.
  rewrite Hb in B1. discriminate.
Qed.

(** C6, amended.  When all seediness values are strictly positive (and
    the input is well formed: as many embeddings and margins as
    seediness values, one kernel value for each point), every pass
    through the body picks a point that is not yet peeled and has the
    highest seediness among those; the loop is left when that score is
    below [s_threshold], and otherwise the new sphere is seeded at that
    point. *)
Theorem fit_predict2_seed_discipline {M : Type} (embeddings : list (list R))
  (seediness : list R) (margins : list M) (fitfunc : kernel M)
  (s_threshold p_threshold : R) :
  length embeddings = length seediness ->
  length margins = length seediness ->
  (forall c sigma, length (fitfunc c sigma embeddings) = length embeddings) ->
  Forall (fun x => 0 < x) seediness ->
  seed_discipline embeddings seediness margins fitfunc s_threshold
    p_threshold.
Proof.
  intros HE HM HK Hpos st Hr Hc.
  pose proof (reachable_invariant _ _ _ _ s_threshold _ HE HM HK st Hr)
    as Hinv.
  destruct (fp2_body_step _ _ _ _ s_threshold _ HE HM HK st Hinv Hc)
    as (i & c & sigma & Hi & Hmax & Hce & Hme & Hbody).
  exists i. split.
  - apply picked_is_highest_remaining with (E := embeddings) (Mg := margins);
      assumption.
  - rewrite Hbody. destruct (Rltb (nth i seediness 0) s_threshold);
      [reflexivity|].
    exists (fp2_next embeddings fitfunc p_threshold st c sigma), c, sigma.
    repeat split; assumption.
Qed.

Lemma fit_predict2_seed_discipline_witness :
  seed_discipline [[0; 0]; [1/10; 0]; [5; 5]; [51/10; 5]]
    [1; 9/10; 1; 9/10] [1/2; 1/2; 1/2; 1/2] gaussian_kernel 0 (1/2).
Proof.
  apply fit_predict2_seed_discipline.
  - reflexivity.
  - reflexivity.
  - intros. apply length_gaussian_kernel.
  - repeat constructor; lra.
Defined.

(** *** Termination *)

Section DecoderTermination.
Context {M : Type}.
Variable E : list (list R).
Variable Sd : list R.
Variable Mg : list M.
Variable K : kernel M.
Variable s p : R.

(** The sphere seeded at a point that can be a seed claims that point. *)
Hypothesis seed_claimed :
  forall i c sigma score,
    nth_error E i = Some c -> nth_error Mg i = Some sigma ->
    nth_error Sd i = Some score -> s <= score ->
    np_gtb (nth i (K c sigma E) NaN) (Fin p) = true.

Lemma fp2_body_count_increases st st' :
  fp2_body E Sd Mg K s p st = Done (inr st') ->
  (count st < count st')%nat.
Proof.
  intros Hb.
  destruct (fp2_body_inr E Sd Mg K s p st st' Hb)
    as (i & c & sigma & score & Hc & Hm & Hs & Hge & _ & ->).
  unfold fp2_next. cbn [count].
  pose proof (count_true_pos (claimed p (K c sigma E)) i) as Hpos.
  rewrite nth_claimed in Hpos.
  specialize (Hpos (seed_claimed i c sigma score Hc Hm Hs Hge)). lia.
Qed.

Lemma fp2_loop_ends fuel st :
  (length Sd - count st <= fuel)%nat ->
  fp2_loop E Sd Mg K s p fuel st <> OutOfFuel.
Proof.
  revert st. induction fuel as [|fuel IH]; intros st Hf.
  - rewrite fp2_loop_exit; [discriminate|]. apply Nat.ltb_ge. lia.
  - rewrite fp2_loop_S.
    destruct (Nat.ltb_spec (count st) (length Sd)) as [Hc | Hc];
      [| discriminate].
    destruct (fp2_body E Sd Mg K s p st) as [[st1 | st1]| |] eqn:Hb;
      cbn [bind]; try discriminate.
    + apply IH. pose proof (fp2_body_count_increases st st1 Hb). lia.
    + exfalso. exact (fp2_body_ends E Sd Mg K s p st Hb).
Qed.

Lemma fit_predict2_ends (cluster_all : bool) :
  exists res, res <> OutOfFuel /\
    forall fuel, (length Sd <= fuel)%nat ->
      fit_predict2 E Sd Mg K s p fuel cluster_all = res.
Proof.
  assert (Hend : fp2_loop E Sd Mg K s p (length Sd) (fp2_init Sd)
                 <> OutOfFuel)
    by (apply fp2_loop_ends; unfold fp2_init; cbn [count]; lia).
  exists (fit_predict2 E Sd Mg K s p (length Sd) cluster_all). split.
  - unfold fit_predict2.
    destruct (fp2_loop E Sd Mg K s p (length Sd) (fp2_init Sd))
      as [st| |]; cbn [bind]; try discriminate; [|congruence].
    destruct (probs st); [discriminate|].
    unfold np_hstack. destruct (forallb _ _); cbn [bind]; discriminate.
  - intros fuel Hfuel. unfold fit_predict2.
    rewrite (fp2_loop_mono_any E Sd Mg K s p _ _ Hend fuel Hfuel).
    reflexivity.
Qed.
End DecoderTermination.

Section DecoderReturns.
Context {M : Type}.
Variable E : list (list R).
Variable Sd : list R.
Variable Mg : list M.
Variable K : kernel M.
Variable s p : R.

Hypothesis length_E : length E = length Sd.
Hypothesis length_Mg : length Mg = length Sd.
Hypothesis length_K : forall c sigma, length (K c sigma E) = length E.
(** The sphere seeded at a point that can be a seed claims that point. *)
Hypothesis seed_claimed :
  forall i c sigma score,
    nth_error E i = Some c -> nth_error Mg i = Some sigma ->
    nth_error Sd i = Some score -> s <= score ->
    np_gtb (nth i (K c sigma E) NaN) (Fin p) = true.

Lemma fp2_body_count_grows st st' :
  fp2_invariant Sd p st -> (count st < length Sd)%nat ->
  fp2_body E Sd Mg K s p st = Done (inr st') ->
  (count st < count st')%nat /\ fp2_invariant Sd p st'.
Proof.
  intros Hinv Hc Hb. split.
  - apply (fp2_body_count_increases E Sd Mg K s p seed_claimed st st' Hb).
  - destruct (fp2_body_step E Sd Mg K s p length_E length_Mg length_K
                st Hinv Hc)
      as (i & c & sigma & Hi & _ & Hce & Hme & Hbody).
    rewrite Hbody in Hb.
    destruct (Rltb (nth i Sd 0) s); [discriminate|].
    injection Hb as <-.
    apply (fp2_invariant_next E Sd Mg K p length_E length_Mg length_K).
    exact Hinv.
Qed.

Lemma fp2_loop_terminates fuel st :
  fp2_invariant Sd p st ->
  (length Sd - count st <= fuel)%nat ->
  exists st', fp2_loop E Sd Mg K s p fuel st = Done st'.
Proof.
  revert st. induction fuel as [|fuel IH]; intros st Hinv Hf.
  - exists st. apply fp2_loop_exit. apply Nat.ltb_ge. lia.
  - rewrite fp2_loop_S.
    destruct (Nat.ltb_spec (count st) (length Sd)) as [Hc | Hc];
      [| exists st; reflexivity].
    destruct (fp2_body_step E Sd Mg K s p length_E length_Mg length_K
                st Hinv Hc)
      as (i & c & sigma & _ & _ & _ & _ & Hbody).
    destruct (Rltb (nth i Sd 0) s) eqn:Hlt.
    + rewrite Hbody. exists st. reflexivity.
    + destruct (fp2_body_count_grows st _ Hinv Hc Hbody) as [Hgrow Hinv'].
      rewrite Hbody. cbn [bind].
      apply IH; [exact Hinv' | lia].
Qed.

Lemma fit_predict2_returns (cluster_all : bool) :
  exists res, forall fuel, (length Sd <= fuel)%nat ->
    fit_predict2 E Sd Mg K s p fuel cluster_all = Done res.
Proof.
  destruct (fp2_loop_terminates (length Sd) (fp2_init Sd)) as [st' Hst].
  - apply fp2_invariant_init with (E := E) (Mg := Mg); assumption.
  - lia.
  - destruct (fp2_loop_full_columns E Sd Mg K s p _ _ _ Hst eq_refl
                (Forall_nil _)) as [_ Hcols].
    exists (match probs st' with
            | [] => (repeat (-1)%Z (length E), spheres st')
            | _ => (map (fun row => Z.of_nat (np_argmax row))
                        (hstack_rows (length Sd) (probs st')), spheres st')
            end).
    intros fuel Hfuel. unfold fit_predict2.
    rewrite (fp2_loop_mono E Sd Mg K s p _ _ _ Hst fuel Hfuel).
    cbn [bind]. destruct (probs st') as [|col cols] eqn:Hp; [reflexivity|].
    rewrite (np_hstack_full (length Sd)); [reflexivity | discriminate|].
    exact Hcols.
Qed.
End DecoderReturns.

Lemma gaussian_seed_value (embeddings : list (list R)) (i : nat)
  (centroid : list R) (sigma : R) :
  sigma <> 0 -> nth_error embeddings i = Some centroid ->
  nth i (gaussian_kernel centroid sigma embeddings) NaN = Fin 1.
Proof.
  intros Hs Hc. rewrite gaussian_kernel_nonzero by exact Hs.
  apply nth_error_nth. rewrite nth_error_map, Hc. cbn [option_map].
  rewrite gaussian_value_self. reflexivity.
Qed.

(** C7, as the spec states it, fails when the margin of the seed is 0:
    the kernel value at the seed is 0/0 = NaN, which is not above
    [p_threshold], so no point is claimed, [count] stays 0 and the loop
    never ends. *)
Lemma fit_predict2_zero_margin_diverges :
  ~ terminates [[0]] [1] [0] gaussian_kernel 0 (1/2).
Proof.
  intros [fuel H]. apply H. clear H.
  unfold fit_predict2, fp2_init.
  assert (Hloop : forall pr sp,
             fp2_loop [[0]] [1] [0] gaussian_kernel 0 (1/2) fuel
               (mk_fp2 pr sp [1] 0) = OutOfFuel).
  { induction fuel as [|fuel IH]; intros pr sp; [reflexivity|].
    rewrite fp2_loop_S. np_eval. apply IH. }
  rewrite Hloop. reflexivity.
Qed.

(** With margins in the range where their square is an ordinary float64
    the Gaussian kernel is 1 at its own centroid, which is above every
    [p_threshold < 1]. *)
Lemma gaussian_seed_claimed (embeddings : list (list R))
  (seediness margins : list R) (s_threshold p_threshold : R) :
  Forall bandwidth_in_range margins ->
  p_threshold < 1 ->
  forall i centroid sigma score,
    nth_error embeddings i = Some centroid ->
    nth_error margins i = Some sigma ->
    nth_error seediness i = Some score -> s_threshold <= score ->
    np_gtb (nth i (gaussian_kernel centroid sigma embeddings) NaN)
           (Fin p_threshold) = true.
Proof.
  intros Hnz Hp i c sigma score Hc Hm _ _.
  rewrite (gaussian_seed_value embeddings i c sigma); [| | exact Hc].
  - unfold np_gtb. simpl. apply Rltb_true. exact Hp.
  - apply bandwidth_in_range_nonzero.
    rewrite Forall_forall in Hnz. apply Hnz. eapply nth_error_In, Hm.
Qed.

(** C7, amended.  For every kernel and every input such that, at every
    point whose seediness is not below [s_threshold], the value the
    kernel seeded there returns at that point itself is above
    [p_threshold] (for the Gaussian kernel that value is exp(-0) = 1
    unless [2 * sigma**2] evaluates to zero or NaN), every pass that
    creates a sphere claims at least the seed and increases [count], and
    the call comes to an end, returning or raising, within as many
    iterations as there are seediness values.  With as many embeddings
    and margins as seediness values and one kernel value for each point
    it returns. *)
Theorem fit_predict2_terminates {M : Type} (embeddings : list (list R))
  (seediness : list R) (margins : list M) (fitfunc : kernel M)
  (s_threshold p_threshold : R) (cluster_all : bool) :
  (forall i centroid sigma score,
     nth_error embeddings i = Some centroid ->
     nth_error margins i = Some sigma ->
     nth_error seediness i = Some score -> s_threshold <= score ->
     np_gtb (nth i (fitfunc centroid sigma embeddings) NaN)
            (Fin p_threshold) = true) ->
  (forall st st',
     fp2_body embeddings seediness margins fitfunc s_threshold
       p_threshold st = Done (inr st') ->
     (count st < count st')%nat) /\
  (exists res, res <> OutOfFuel /\
     forall fuel, (length seediness <= fuel)%nat ->
       fit_predict2 embeddings seediness margins fitfunc s_threshold
         p_threshold fuel cluster_all = res) /\
  (length embeddings = length seediness ->
   length margins = length seediness ->
   (forall c sigma, length (fitfunc c sigma embeddings) = length embeddings) ->
   exists res, forall fuel, (length seediness <= fuel)%nat ->
     fit_predict2 embeddings seediness margins fitfunc s_threshold
       p_threshold fuel cluster_all = Done res).
Proof.
  intros Hclaim. split; [| split].
  - intros st st' Hb.
    apply (fp2_body_count_increases embeddings seediness margins fitfunc
             s_threshold p_threshold Hclaim st st' Hb).
  - apply fit_predict2_ends. exact Hclaim.
  - intros HE HM HK. apply fit_predict2_returns; assumption.
Qed.

Lemma fit_predict2_terminates_witness :
  exists res, forall fuel, (4 <= fuel)%nat ->
    fit_predict2 [[0; 0]; [1/10; 0]; [5; 5]; [51/10; 5]]
      [1; 9/10; 1; 9/10] [1/2; 1/2; 1/2; 1/2] gaussian_kernel 0 (1/2)
      fuel false = Done res.
Proof.
  destruct (fit_predict2_terminates [[0; 0]; [1/10; 0]; [5; 5]; [51/10; 5]]
              [1; 9/10; 1; 9/10] [1/2; 1/2; 1/2; 1/2] gaussian_kernel
              0 (1/2) false) as (_ & _ & Hret).
  - apply gaussian_seed_claimed; [| lra].
    repeat (apply Forall_cons; [apply bandwidth_in_range_mid; lra|]).
    apply Forall_nil.
  - apply Hret.
    + reflexivity.
    + reflexivity.
    + intros. apply length_gaussian_kernel.
Defined.

(** *** The labels *)

Lemma argmax_from_bound (best : nat) (bv : np_float) (i : nat)
  (l : list np_float) :
  (best < i)%nat -> (argmax_from best bv i l < i + length l)%nat.
Proof.
  revert best bv i. induction l as [|x l IH]; intros best bv i H; simpl;
    [lia|].
  destruct (takes_over x bv).
  - specialize (IH i x (S i)). lia.
  - specialize (IH best bv (S i)). lia.
Qed.

Lemma np_argmax_lt (row : list np_float) :
  row <> [] -> (np_argmax row < length row)%nat.
Proof.
  destruct row as [|x l]; [congruence|]. intros _. simpl.
  apply (argmax_from_bound 0 x 1 l). lia.
Qed.

Lemma argmax_from_stay (best : nat) (bv : R) (i : nat) (l : list R) :
  Forall (fun x => x <= bv) l ->
  argmax_from best (Fin bv) i (map Fin l) = best.
Proof.
  intros H. revert i. induction H as [|x l Hx Hl IH]; intros i;
    [reflexivity|].
  simpl. rewrite Rltb_false by exact Hx. apply IH.
Qed.

Lemma argmax_from_reach (best : nat) (bv : R) (i : nat) (r1 r2 : list R) :
  bv < 1 ->
  Forall (fun x => x < 1) r1 -> Forall (fun x => x <= 1) r2 ->
  argmax_from best (Fin bv) i (map Fin (r1 ++ 1 :: r2))
  = (i + length r1)%nat.
Proof.
  intros Hbv H1 H2. revert best bv i Hbv.
  induction H1 as [|x r1 Hx Hr1 IH]; intros best bv i Hbv.
  - simpl. rewrite Rltb_true by exact Hbv.
    rewrite argmax_from_stay by exact H2. lia.
  - cbn [app map argmax_from takes_over np_ltb length].
    destruct (Rltb bv x).
    + rewrite IH by exact Hx. lia.
    + rewrite IH by exact Hbv. lia.
Qed.

Lemma np_argmax_first_one (r1 r2 : list R) :
  Forall (fun x => x < 1) r1 -> Forall (fun x => x <= 1) r2 ->
  np_argmax (map Fin (r1 ++ 1 :: r2)) = length r1.
Proof.
  intros H1 H2. destruct r1 as [|x r1].
  - simpl. apply argmax_from_stay. exact H2.
  - inversion H1; subst. cbn [app map np_argmax length].
    rewrite argmax_from_reach by assumption. reflexivity.
Qed.

Section DecoderLabels.
Context {M : Type}.
Variable E : list (list R).
Variable Sd : list R.
Variable Mg : list M.
Variable K : kernel M.
Variable s p : R.

Lemma fp2_body_result st r :
  fp2_body E Sd Mg K s p st = Done r ->
  r = inl st \/ exists c sigma, r = inr (fp2_next E K p st c sigma).
Proof.
  unfold fp2_body.
  destruct (argsort_rev_first (seediness_copy st)) as [i| |];
    cbn [bind]; try discriminate.
  destruct (index Sd i) as [score| |]; cbn [bind]; try discriminate.
  destruct (Rltb score s).
  { intros H. injection H as <-. left. reflexivity. }
  destruct (index E i) as [c| |]; cbn [bind]; try discriminate.
  destruct (index Mg i) as [sigma| |]; cbn [bind]; try discriminate.
  unfold set_masked.
  destruct (Nat.eqb _ _); cbn [bind]; try discriminate.
  intros H. injection H as <-. right. exists c, sigma. reflexivity.
Qed.

Lemma fp2_loop_columns fuel st st' :
  fp2_loop E Sd Mg K s p fuel st = Done st' ->
  length (probs st) = length (spheres st) ->
  length (probs st') = length (spheres st').
Proof.
  revert st. induction fuel as [|fuel IH]; intros st H Hlen.
  - simpl in H. destruct (Nat.ltb (count st) (length Sd));
      [discriminate | injection H as <-; exact Hlen].
  - rewrite fp2_loop_S in H.
    destruct (Nat.ltb (count st) (length Sd));
      [| injection H as <-; exact Hlen].
    destruct (fp2_body E Sd Mg K s p st) as [r| |] eqn:Hb;
      cbn [bind] in H; try discriminate.
    destruct (fp2_body_result st r Hb) as [-> | (c & sigma & ->)].
    + injection H as <-. exact Hlen.
    + apply (IH _ H). unfold fp2_next. cbn [probs spheres].
      rewrite !length_app. simpl. lia.
Qed.

Lemma fp2_loop_reachable fuel st st' :
  reachable E Sd Mg K s p st ->
  fp2_loop E Sd Mg K s p fuel st = Done st' ->
  reachable E Sd Mg K s p st'.
Proof.
  revert st. induction fuel as [|fuel IH]; intros st Hr H.
  - simpl in H. destruct (Nat.ltb (count st) (length Sd));
      [discriminate | injection H as <-; exact Hr].
  - rewrite fp2_loop_S in H.
    destruct (Nat.ltb_spec (count st) (length Sd)) as [Hc | Hc];
      [| injection H as <-; exact Hr].
    destruct (fp2_body E Sd Mg K s p st) as [r| |] eqn:Hb;
      cbn [bind] in H; try discriminate.
    destruct (fp2_body_result st r Hb) as [-> | (c & sigma & ->)].
    + injection H as <-. exact Hr.
    + apply (IH _ (reach_step _ _ _ _ _ _ _ _ Hr Hc Hb) H).
Qed.

(** What [fit_predict2] returns, in terms of the final state of the
    loop. *)
Lemma fit_predict2_result fuel cluster_all labels found :
  fit_predict2 E Sd Mg K s p fuel cluster_all = Done (labels, found) ->
  exists st,
    fp2_loop E Sd Mg K s p fuel (fp2_init Sd) = Done st /\
    found = spheres st /\
    length (probs st) = length found /\
    ((probs st = [] /\ labels = repeat (-1)%Z (length E)) \/
     (probs st <> [] /\
      labels = map (fun row => Z.of_nat (np_argmax row))
                   (hstack_rows (length Sd) (probs st)))).
Proof.
  unfold fit_predict2.
  destruct (fp2_loop E Sd Mg K s p fuel (fp2_init Sd)) as [st| |] eqn:Hl;
    cbn [bind]; try discriminate.
  intros H. exists st.
  pose proof (fp2_loop_columns _ _ _ Hl eq_refl) as Hlen.
  destruct (fp2_loop_full_columns E Sd Mg K s p _ _ _ Hl eq_refl
              (Forall_nil _)) as [_ Hcols].
  destruct (probs st) as [|col cols] eqn:Hp.
  - injection H as <- <-. repeat split; try reflexivity.
    + exact Hlen.
    + left. split; reflexivity.
  - rewrite (np_hstack_full (length Sd)) in H;
      [| discriminate | exact Hcols].
    cbn [bind] in H. injection H as <- <-. repeat split; try reflexivity.
    + exact Hlen.
    + right. split; [discriminate | reflexivity].
Qed.

Lemma fit_predict2_label_range fuel cluster_all labels found :
  fit_predict2 E Sd Mg K s p fuel cluster_all = Done (labels, found) ->
  (found = [] /\ Forall (eq (-1)%Z) labels) \/
  (found <> [] /\ label_range labels (length found)).
Proof.
  intros H.
  destruct (fit_predict2_result _ _ _ _ H)
    as (st & _ & _ & Hlen & [[Hp ->] | [Hp ->]]).
  - left. rewrite Hp in Hlen. split.
    + destruct found; [reflexivity | discriminate].
    + apply Forall_forall. intros l Hl. apply repeat_spec in Hl.
      congruence.
  - right. split.
    + intros ->. destruct (probs st); [congruence | discriminate].
    + intros l Hl. apply in_map_iff in Hl. destruct Hl as (row & <- & Hrow).
      unfold hstack_rows in Hrow. apply in_map_iff in Hrow.
      destruct Hrow as (k & <- & _).
      assert (Hne : map (fun col : list np_float => nth k col NaN) (probs st)
                    <> []).
      { destruct (probs st); [congruence | discriminate]. }
      pose proof (np_argmax_lt _ Hne) as Hlt.
      rewrite length_map, Hlen in Hlt. lia.
Qed.
End DecoderLabels.

Lemma existsb_false {A : Type} (f : A -> bool) (l : list A) :
  existsb f l = false -> forall x, In x l -> f x = false.
Proof.
  intros H x Hx. destruct (f x) eqn:Hf; [|reflexivity].
  assert (Ht : existsb f l = true) by (apply existsb_exists; eauto).
  congruence.
Qed.

Lemma nth_map_Fin (vals : list R) (i : nat) :
  (i < length vals)%nat -> nth i (map Fin vals) NaN = Fin (nth i vals 0).
Proof.
  intros H. rewrite (nth_indep _ NaN (Fin 0)) by (rewrite length_map; exact H).
  apply map_nth.
Qed.

(** Reading one row off columns that are finite at that row. *)
Lemma row_of_finite_columns (Q : R -> Prop) (i : nat)
  (cols : list (list np_float)) :
  (forall col, In col cols -> exists v, nth i col NaN = Fin v /\ Q v) ->
  exists r, map (fun col => nth i col NaN) cols = map Fin r /\ Forall Q r.
Proof.
  induction cols as [|col cols IH]; intros H.
  - exists []. split; [reflexivity | constructor].
  - destruct (H col (or_introl eq_refl)) as (v & Hv & Qv).
    destruct IH as (r & Hr & Qr); [intros c Hc; apply H; right; exact Hc|].
    exists (v :: r). split; [simpl; rewrite Hv, Hr; reflexivity|].
    constructor; assumption.
Qed.

Section DecoderAttained.
Context {M : Type}.
Variable E : list (list R).
Variable Sd : list R.
Variable Mg : list M.
Variable K : kernel M.
Variable s p : R.

Hypothesis length_E : length E = length Sd.
Hypothesis length_Mg : length Mg = length Sd.
Hypothesis length_K : forall c sigma, length (K c sigma E) = length E.
Hypothesis positive : Forall (fun x => 0 < x) Sd.
Hypothesis p_below_1 : p < 1.
Hypothesis peaked : unit_peaked K E Mg.

Lemma seeded_columns_init : seeded_columns Sd p (fp2_init (M := M) Sd).
Proof.
  intros earlier col later H. unfold fp2_init in H. cbn [probs] in H.
  destruct earlier; discriminate.
Qed.

Lemma seeded_columns_next (st : fp2_state M) i c sigma :
  seeded_columns Sd p st ->
  (i < length Sd)%nat ->
  peeled p st i = false ->
  nth_error E i = Some c -> nth_error Mg i = Some sigma ->
  seeded_columns Sd p (fp2_next E K p st c sigma).
Proof.
  intros Hsc Hi Hpi Hce Hme earlier col later Hsplit.
  unfold fp2_next in Hsplit. cbn [probs] in Hsplit.
  destruct (exists_last (l := col :: later)) as (front & lst & Hfl);
    [discriminate|].
  rewrite Hfl, app_assoc in Hsplit.
  apply app_inj_tail in Hsplit. destruct Hsplit as [Hprobs Hlast].
  destruct front as [|col' front].
  - simpl in Hfl. injection Hfl as -> ->.
    rewrite app_nil_r in Hprobs. subst earlier.
    destruct (peaked i c sigma Hce Hme) as (vals & Hv & Hlv & Hle & Hone).
    exists i, vals. rewrite <- Hlast, Hv.
    repeat split; try assumption; try congruence.
    intros colj Hj. unfold peeled in Hpi.
    apply (existsb_false _ _ Hpi colj Hj).
  - simpl in Hfl. injection Hfl as -> Hlater.
    apply (Hsc earlier col' front). exact Hprobs.
Qed.

Lemma reachable_seeded st :
  reachable E Sd Mg K s p st -> seeded_columns Sd p st.
Proof.
  induction 1 as [|st st' Hr IH Hc Hb]; [apply seeded_columns_init|].
  pose proof (reachable_invariant E Sd Mg K s p length_E length_Mg length_K
                st Hr) as Hinv.
  destruct (fp2_body_step E Sd Mg K s p length_E length_Mg length_K
              st Hinv Hc)
    as (i & c & sigma & Hi & Hmax & Hce & Hme & Hbody).
  rewrite Hbody in Hb.
  destruct (Rltb (nth i Sd 0) s); [discriminate|].
  injection Hb as <-.
  assert (Hhr : highest_remaining Sd p st i).
  { apply picked_is_highest_remaining with (E := E) (Mg := Mg); assumption. }
  destruct Hhr as (_ & Hpi & _).
  apply (seeded_columns_next st i c sigma IH Hi Hpi Hce Hme).
Qed.

(** The seed of the sphere with index [length earlier] gets that index as
    its label. *)
Lemma seed_label (st : fp2_state M) earlier col later :
  seeded_columns Sd p st ->
  probs st = earlier ++ col :: later ->
  exists i, (i < length Sd)%nat /\
    np_argmax (map (fun c => nth i c NaN) (probs st)) = length earlier.
Proof.
  intros Hsc Hsplit.
  destruct (Hsc earlier col later Hsplit)
    as (i & vals & Hi & Hcol & Hlv & Hle & Hone & Hearlier).
  exists i. split; [exact Hi|].
  assert (Hfin : forall cj, In cj (probs st) ->
             exists v, nth i cj NaN = Fin v /\ v <= 1).
  { intros cj Hj. destruct (in_split _ _ Hj) as (a & b & Hab).
    destruct (Hsc a cj b Hab) as (i' & vj & _ & Hcj & Hlj & Hlej & _).
    exists (nth i vj 0). split.
    - rewrite Hcj. apply nth_map_Fin. lia.
    - rewrite Forall_forall in Hlej. apply Hlej, nth_In. lia. }
  destruct (row_of_finite_columns (fun v => v < 1) i earlier)
    as (r1 & Hr1 & Q1).
  { intros cj Hj.
    destruct (Hfin cj) as (v & Hv & _);
      [rewrite Hsplit; apply in_or_app; left; exact Hj|].
    exists v. split; [exact Hv|].
    specialize (Hearlier cj Hj). rewrite Hv in Hearlier.
    unfold np_gtb in Hearlier. simpl in Hearlier.
    destruct (Rltb_spec p v); [discriminate | lra]. }
  destruct (row_of_finite_columns (fun v => v <= 1) i later)
    as (r2 & Hr2 & Q2).
  { intros cj Hj. apply Hfin. rewrite Hsplit. apply in_or_app. right. right.
    exact Hj. }
  rewrite Hsplit, map_app. cbn [map]. rewrite Hr1, Hr2.
  rewrite Hcol, nth_map_Fin, Hone by lia.
  change (map Fin r1 ++ Fin 1 :: map Fin r2)
    with (map Fin r1 ++ map Fin (1 :: r2)).
  rewrite <- map_app, np_argmax_first_one by assumption.
  rewrite <- (length_map (fun c => nth i c NaN) earlier), Hr1.
  symmetry. apply length_map.
Qed.

Lemma fit_predict2_attained fuel cluster_all labels found :
  fit_predict2 E Sd Mg K s p fuel cluster_all = Done (labels, found) ->
  found <> [] ->
  label_range_attained labels (length found).
Proof.
  intros H Hne.
  destruct (fit_predict2_label_range E Sd Mg K s p _ _ _ _ H)
    as [[Hnil _] | [_ Hrange]]; [congruence|].
  split; [exact Hrange|].
  intros v Hv.
  destruct (fit_predict2_result E Sd Mg K s p _ _ _ _ H)
    as (st & Hloop & _ & Hlen & [[Hp _] | [Hp ->]]).
  { rewrite Hp in Hlen. destruct found; [congruence | discriminate]. }
  pose proof (fp2_loop_reachable E Sd Mg K s p _ _ _
                (reach_init E Sd Mg K s p) Hloop) as Hr.
  pose proof (reachable_seeded st Hr) as Hsc.
  assert (Ht : (Z.to_nat v < length (probs st))%nat) by lia.
  destruct (nth_error (probs st) (Z.to_nat v)) as [col|] eqn:Hcol;
    [| apply nth_error_None in Hcol; lia].
  destruct (nth_error_split _ _ Hcol) as (earlier & later & Hsplit & Hl).
  destruct (seed_label st earlier col later Hsc Hsplit) as (i & Hi & Harg).
  apply in_map_iff.
  exists (map (fun c => nth i c NaN) (probs st)). split.
  - rewrite Harg, Hl. lia.
  - unfold hstack_rows. apply in_map_iff. exists i. split; [reflexivity|].
    apply in_seq. lia.
Qed.
End DecoderAttained.

Lemma gaussian_unit_peaked (embeddings : list (list R)) (margins : list R) :
  Forall (fun sigma => sigma <> 0) margins ->
  unit_peaked gaussian_kernel embeddings margins.
Proof.
  intros Hnz i centroid sigma Hc Hm.
  assert (Hs : sigma <> 0).
  { rewrite Forall_forall in Hnz. apply Hnz. eapply nth_error_In, Hm. }
  exists (map (fun row => exp (- Rsum (map sq (vsub row centroid))
                           / (2 * sigma ^ 2))) embeddings).
  split; [| split; [| split]].
  - rewrite gaussian_kernel_nonzero by exact Hs. rewrite map_map.
    reflexivity.
  - apply length_map.
  - apply Forall_forall. intros v Hv. apply in_map_iff in Hv.
    destruct Hv as (row & <- & _).
    apply (gaussian_value_unit centroid sigma row Hs).
  - apply nth_error_nth. rewrite nth_error_map, Hc. cbn [option_map].
    rewrite gaussian_value_self. reflexivity.
Qed.

(** C8, as the spec states it, fails on six points with some negative
    seediness values: the run finds three spheres, the second of them
    seeded at a point that the first had already peeled and that lies at
    the same place as the first seed, and the labels come out as
    [2, 2, 2, 0, 0, 2]: no point has label 1. *)
Lemma fit_predict2_skips_a_label :
  exists labels found,
    fit_predict2 [[10]; [10]; [10]; [0]; [0]; [2]]
      [-2; -2; -2; 1; 9/10; -1/2] [1; 1; 1; 1; 3; 3] gaussian_kernel
      (-1) (1/2) 3 false = Done (labels, found) /\
    ~ (Forall (eq (-1)%Z) labels \/
       exists m, label_range_attained labels m).
Proof.
  exists [2; 2; 2; 0; 0; 2]%Z, [([0], 1); ([0], 3); ([2], 3)].
  split.
  - unfold fit_predict2, fp2_init.
    loop_step. loop_step. loop_step.
    rewrite fp2_loop_exit by reflexivity.
    np_eval. reflexivity.
  - intros [H | [m [Hr Ha]]].
    + inversion H; subst. discriminate.
    + assert (H2 : (0 <= 2 < Z.of_nat m)%Z) by (apply Hr; left; reflexivity).
      assert (H1 : In 1%Z [2; 2; 2; 0; 0; 2]%Z) by (apply Ha; lia).
      simpl in H1. intuition discriminate.
Qed.

(** C8, amended.  Whenever [fit_predict2] returns, either no sphere was
    found and every label is -1, or at least one sphere was found and
    every label is an integer in [0 .. m-1], where [m] is the number of
    spheres.  Every value of that range is attained when all seediness
    values are strictly positive, [p_threshold < 1] and the kernel, on a
    well-formed input, gives finite values that are at most 1 and equal
    to 1 at the seed of the sphere (as the Gaussian kernel over the reals
    does for margins that are not zero). *)
Theorem fit_predict2_labels {M : Type} (embeddings : list (list R))
  (seediness : list R) (margins : list M) (fitfunc : kernel M)
  (s_threshold p_threshold : R) (fuel : nat) (cluster_all : bool)
  (labels : list Z) (found : list (list R * M)) :
  fit_predict2 embeddings seediness margins fitfunc s_threshold p_threshold
    fuel cluster_all = Done (labels, found) ->
  ((found = [] /\ Forall (eq (-1)%Z) labels) \/
   (found <> [] /\ label_range labels (length found))) /\
  (length embeddings = length seediness ->
   length margins = length seediness ->
   (forall c sigma, length (fitfunc c sigma embeddings) = length embeddings) ->
   Forall (fun x => 0 < x) seediness ->
   p_threshold < 1 ->
   unit_peaked fitfunc embeddings margins ->
   found <> [] ->
   label_range_attained labels (length found)).
Proof.
  intros H. split.
  - eapply fit_predict2_label_range. exact H.
  - intros HE HM HK Hpos Hp Hpeak Hne.
    eapply (fit_predict2_attained embeddings seediness margins fitfunc
              s_threshold p_threshold HE HM HK Hpos Hp Hpeak); eassumption.
Qed.

Lemma fit_predict2_labels_witness :
  label_range_attained [1; 1; 0; 0]%Z 2.
Proof.
  apply (fit_predict2_labels [[0; 0]; [1/10; 0]; [5; 5]; [51/10; 5]]
           [1; 9/10; 1; 9/10] [1/2; 1/2; 1/2; 1/2] gaussian_kernel
           0 (1/2) 2 false [1; 1; 0; 0]%Z
           [([5; 5], 1/2); ([0; 0], 1/2)] (two_blobs_run 0)).
  - reflexivity.
  - reflexivity.
  - intros. apply length_gaussian_kernel.
  - repeat constructor; lra.
  - lra.
  - apply gaussian_unit_peaked. repeat constructor; lra.
  - discriminate.
Defined.

(* ================================================================== *)
(** * Further properties of the modelled code *)

(** ** The kernels, in general *)



(** X2.  For the bandwidth 0 the Gaussian kernel does not raise: a row at
    squared distance 0 from the centroid gets NaN (from 0/0) and every
    other row gets 0 (the exponential of minus infinity). *)
Theorem gaussian_kernel_zero_bandwidth (centroid : list R)
  (x : list (list R)) :
  gaussian_kernel centroid 0 x
  = map (fun row => if Reqb (sq_dist row centroid) 0 then NaN else Fin 0) x.
Proof.
  unfold gaussian_kernel. apply map_ext. intros row. cbv zeta.
  fold (sq_dist row centroid).
  pose proof (Rsum_sq_nonneg (vsub row centroid)) as Hd.
  fold (sq_dist row centroid) in Hd.
  unfold np_div. rewrite (Reqb_true (2 * 0 ^ 2) 0) by lra.
  destruct (Reqb_spec (sq_dist row centroid) 0) as [H0 | Hn].
  - rewrite Reqb_true by lra. reflexivity.
  - rewrite Reqb_false by lra. rewrite Rltb_false by lra. reflexivity.
Qed.




(** ** The centroid estimator and [cluster_remainder] *)

(** X4.  On an empty label vector the numpy version of
    [find_cluster_means] raises ValueError and the torch version
    RuntimeError (there is nothing to stack); on a non-empty label vector
    whose length differs from the number of feature rows both raise
    IndexError at the first boolean mask. *)
Theorem find_cluster_means_errors (features : list (list R))
  (labels : list Z) :
  (labels = [] ->
   find_cluster_means features labels = Raise ValueError /\
   DiscriminativeLoss_find_cluster_means features labels
     = Raise RuntimeError) /\
  (labels <> [] -> length labels <> length features ->
   find_cluster_means features labels = Raise IndexError /\
   DiscriminativeLoss_find_cluster_means features labels
     = Raise IndexError).
Proof.
  split.
  - intros ->. split; reflexivity.
  - intros Hne Hlen.
    pose proof (np_unique_sorted labels) as Hs.
    assert (Hids : exists c ids, np_unique labels = c :: ids).
    { destruct labels as [|l labels]; [congruence|].
      destruct (np_unique (l :: labels)) as [|c ids] eqn:Hu; [|eauto].
      assert (Hin : In l (np_unique (l :: labels)))
        by (apply np_unique_in; left; reflexivity).
      rewrite Hu in Hin. destruct Hin. }
    destruct Hids as (c & ids & Hu).
    assert (Hsel : select features (label_mask labels c) = Raise IndexError).
    { unfold select. rewrite length_label_mask.
      destruct (Nat.eqb_spec (length labels) (length features));
        [contradiction | reflexivity]. }
    unfold find_cluster_means, DiscriminativeLoss_find_cluster_means.
    rewrite py_sorted_of_sorted by exact Hs. rewrite Hu.
    cbn [cluster_means_loop]. rewrite Hsel. split; reflexivity.
Qed.

Lemma find_cluster_means_errors_witness :
  find_cluster_means [[0]; [1]] [0%Z] = Raise IndexError /\
  DiscriminativeLoss_find_cluster_means [[0]; [1]] [0%Z] = Raise IndexError.
Proof.
  apply (find_cluster_means_errors [[0]; [1]] [0%Z]).
  - discriminate.
  - simpl. lia.
Defined.

Lemma count_true_zero (mask : list bool) :
  (forall b, In b mask -> b = false) -> count_true mask = 0%nat.
Proof.
  unfold count_true. induction mask as [|b mask IH]; intros H;
    [reflexivity|].
  simpl. rewrite (H b (or_introl eq_refl)). apply IH.
  intros b' Hb'. apply H. right. exact Hb'.
Qed.

(** X5.  [cluster_remainder] returns the labels unchanged when no label
    is -1, and also when every label is -1. *)
Theorem cluster_remainder_noop (embedding : list (list R))
  (semi_predictions : list Z) :
  (forall l, In l semi_predictions -> l <> (-1)%Z) \/
  (forall l, In l semi_predictions -> l = (-1)%Z) ->
  cluster_remainder embedding semi_predictions = Done semi_predictions.
Proof.
  intros H. unfold cluster_remainder.
  destruct H as [H | H].
  - rewrite (count_true_zero (label_mask semi_predictions (-1))).
    + reflexivity.
    + intros b Hb. unfold label_mask in Hb. apply in_map_iff in Hb.
      destruct Hb as (l & <- & Hl). apply Z.eqb_neq. apply H. exact Hl.
  - rewrite (count_true_zero (map negb (label_mask semi_predictions (-1)))).
    + rewrite orb_true_r. reflexivity.
    + intros b Hb. apply in_map_iff in Hb. destruct Hb as (b' & <- & Hb').
      unfold label_mask in Hb'. apply in_map_iff in Hb'.
      destruct Hb' as (l & <- & Hl). rewrite (H l Hl). reflexivity.
Qed.

Lemma cluster_remainder_noop_witness :
  cluster_remainder [[0]; [1]] [3; 7]%Z = Done [3; 7]%Z.
Proof.
  apply cluster_remainder_noop. left. intros l [<- | [<- | []]]; lia.
Defined.

Lemma argmin_from_bound (best : nat) (bv : R) (i : nat) (l : list R) :
  (best < i)%nat -> (argmin_from best bv i l < i + length l)%nat.
Proof.
  revert best bv i. induction l as [|x l IH]; intros best bv i H; simpl;
    [lia|].
  destruct (Rltb x bv).
  - specialize (IH i x (S i)). lia.
  - specialize (IH best bv (S i)). lia.
Qed.

Lemma map_outcome_done {A B : Type} (f : A -> outcome B) (P : B -> Prop)
  (l : list A) :
  (forall x, In x l -> exists y, f x = Done y /\ P y) ->
  exists ys, map_outcome f l = Done ys /\ length ys = length l /\ Forall P ys.
Proof.
  induction l as [|x l IH]; intros H.
  - exists []. repeat split. constructor.
  - destruct (H x (or_introl eq_refl)) as (y & Hy & Py).
    destruct IH as (ys & Hys & Hl & Pys);
      [intros x' Hx'; apply H; right; exact Hx'|].
    exists (y :: ys). simpl. rewrite Hy. cbn [bind]. rewrite Hys.
    cbn [bind]. repeat split; [simpl; lia | constructor; assumption].
Qed.

Lemma length_mask_rows {A : Type} (rows : list A) (mask : list bool) :
  length mask = length rows ->
  length (mask_rows rows mask) = count_true mask.
Proof.
  unfold count_true. revert mask.
  induction rows as [|r rows IH]; intros [|b mask] H; simpl in *;
    try discriminate; [reflexivity|].
  destruct b; simpl; rewrite IH by lia; reflexivity.
Qed.

Lemma mask_scatter_spec (P : Z -> Prop) (a : list Z) (mask : list bool)
  (values : list Z) :
  length mask = length a ->
  length values = count_true mask ->
  Forall P values ->
  length (mask_scatter a mask values) = length a /\
  forall k, (k < length a)%nat ->
    (nth k mask false = false ->
     nth k (mask_scatter a mask values) 0%Z = nth k a 0%Z) /\
    (nth k mask false = true -> P (nth k (mask_scatter a mask values) 0%Z)).
Proof.
  unfold count_true. revert mask values.
  induction a as [|x a IH]; intros [|b mask] values Hm Hv HP;
    simpl in *; try discriminate.
  - split; [reflexivity | intros k Hk; lia].
  - injection Hm as Hm. destruct b; simpl in Hv.
    + destruct values as [|v values]; [discriminate|].
      injection Hv as Hv. inversion HP as [|? ? Pv Pvs]; subst.
      destruct (IH mask values Hm Hv Pvs) as [Hl Hk].
      split; [simpl; lia|].
      intros [|k] Hlt; simpl.
      * split; [discriminate | intros _; exact Pv].
      * apply Hk. lia.
    + destruct (IH mask values Hm Hv HP) as [Hl Hk].
      split; [simpl; lia|].
      intros [|k] Hlt; simpl.
      * split; [reflexivity | discriminate].
      * apply Hk. lia.
Qed.

Lemma count_true_exists (mask : list bool) :
  In true mask -> (0 < count_true mask)%nat.
Proof.
  unfold count_true. induction mask as [|b mask IH]; intros H;
    [destruct H|].
  destruct H as [-> | H]; simpl; [lia|].
  specialize (IH H). destruct b; simpl; lia.
Qed.

(** X6.  When the label vector has as many entries as there are
    embedding rows, at least one label -1 and at least one other label,
    [cluster_remainder] returns a label vector of the same length in
    which every label other than -1 is unchanged and every -1 has been
    replaced by a position in the centroid list without its first entry:
    a number from 0 up to the number of distinct labels minus 2, not the
    group id of the nearest centroid. *)
Theorem cluster_remainder_assigns (embedding : list (list R))
  (semi_predictions : list Z) :
  length semi_predictions = length embedding ->
  In (-1)%Z semi_predictions ->
  (exists l, In l semi_predictions /\ l <> (-1)%Z) ->
  exists out,
    cluster_remainder embedding semi_predictions = Done out /\
    length out = length semi_predictions /\
    forall k, (k < length semi_predictions)%nat ->
      (nth k semi_predictions 0%Z <> (-1)%Z ->
       nth k out 0%Z = nth k semi_predictions 0%Z) /\
      (nth k semi_predictions 0%Z = (-1)%Z ->
       (0 <= nth k out 0
        < Z.of_nat (length (np_unique semi_predictions)) - 1)%Z).
Proof.
  intros Hlen Hminus (l & Hl & Hlne).
  set (mask := label_mask semi_predictions (-1)).
  assert (Hmask_len : length mask = length semi_predictions)
    by apply length_label_mask.
  assert (Hc1 : (0 < count_true mask)%nat).
  { apply count_true_exists. unfold mask, label_mask. apply in_map_iff.
    exists (-1)%Z. split; [reflexivity | exact Hminus]. }
  assert (Hc2 : (0 < count_true (map negb mask))%nat).
  { apply count_true_exists. apply in_map_iff. exists false.
    split; [reflexivity|]. unfold mask, label_mask. apply in_map_iff.
    exists l. split; [apply Z.eqb_neq; exact Hlne | exact Hl]. }
  pose proof (np_unique_sorted semi_predictions) as Hsorted.
  set (ids := np_unique semi_predictions) in *.
  set (centroid := fun c => mean0 (ncols embedding)
                     (mask_rows embedding (label_mask semi_predictions c))).
  assert (Hids : (2 <= length ids)%nat).
  { assert (H1 : In (-1)%Z ids) by (apply np_unique_in; exact Hminus).
    assert (H2 : In l ids) by (apply np_unique_in; exact Hl).
    destruct ids as [|a [|b ids']]; simpl in *; try lia; contradiction. }
  assert (Hfind : find_cluster_means embedding semi_predictions
                  = Done (ids, map centroid ids)).
  { unfold find_cluster_means. rewrite py_sorted_of_sorted by exact Hsorted.
    fold ids. rewrite cluster_means_loop_done by exact Hlen.
    fold centroid. cbn [bind].
    destruct ids; [simpl in Hids; lia | reflexivity]. }
  set (targets := tl (map centroid ids)).
  assert (Htl : length targets = (length ids - 1)%nat).
  { unfold targets. destruct ids; simpl; [lia|]. rewrite length_map. lia. }
  set (P := fun z : Z => (0 <= z < Z.of_nat (length ids) - 1)%Z).
  destruct (map_outcome_done np_argmin
              (fun n => (n < length targets)%nat)
              (cdist (mask_rows embedding mask) targets))
    as (nearest & Hnear & Hnl & Hnb).
  { intros row Hrow. unfold cdist in Hrow. apply in_map_iff in Hrow.
    destruct Hrow as (x & <- & _).
    destruct targets as [|t0 ts] eqn:Ht; [simpl in Htl; lia|].
    cbn [map np_argmin]. eexists. split; [reflexivity|].
    pose proof (argmin_from_bound 0 (euclidean x t0) 1
                  (map (fun y => euclidean x y) ts)) as Hb.
    rewrite length_map in Hb. simpl. lia. }
  destruct (mask_scatter_spec P semi_predictions mask (map Z.of_nat nearest))
    as [Hol Hok].
  - exact Hmask_len.
  - rewrite length_map, Hnl. unfold cdist. rewrite length_map.
    apply length_mask_rows. congruence.
  - apply Forall_forall. intros z Hz. apply in_map_iff in Hz.
    destruct Hz as (n & <- & Hn). rewrite Forall_forall in Hnb.
    specialize (Hnb n Hn). unfold P. lia.
  - exists (mask_scatter semi_predictions mask (map Z.of_nat nearest)).
    split; [| split; [exact Hol|]].
    + unfold cluster_remainder. fold mask.
      destruct (Nat.eqb_spec (count_true mask) 0); [lia|].
      destruct (Nat.eqb_spec (count_true (map negb mask)) 0); [lia|].
      cbn [orb]. rewrite Hfind. cbn [bind snd].
      unfold select. rewrite Hmask_len, Hlen, Nat.eqb_refl. cbn [bind].
      fold targets. rewrite Hnear. reflexivity.
    + intros k Hk. destruct (Hok k Hk) as [Hkeep Hnew].
      assert (Hnth : nth k mask false
                     = (nth k semi_predictions 0 =? -1)%Z).
      { unfold mask, label_mask.
        change false with ((fun l0 => (l0 =? -1)%Z) 0%Z) at 1.
        apply map_nth. }
      split; intros Hcase.
      * apply Hkeep. rewrite Hnth. apply Z.eqb_neq. exact Hcase.
      * apply Hnew. rewrite Hnth. apply Z.eqb_eq. exact Hcase.
Qed.

Lemma cluster_remainder_assigns_witness :
  exists out,
    cluster_remainder [[0]; [1]] [5; -1]%Z = Done out /\
    length out = 2%nat.
Proof.
  destruct (cluster_remainder_assigns [[0]; [1]] [5; -1]%Z)
    as (out & H1 & H2 & _).
  - reflexivity.
  - right. left. reflexivity.
  - exists 5%Z. split; [left; reflexivity | lia].
  - exists out. split; assumption.
Defined.

(** ** The best-fit decoder, in general *)

Lemma index_Done {A : Type} (l : list A) (i : nat) (x : A) :
  index l i = Done x -> nth_error l i = Some x.
Proof.
  unfold index. destruct (nth_error l i); [|discriminate].
  intros H. injection H as ->. reflexivity.
Qed.

Section DecoderGeneral.
Context {M : Type}.
Variable E : list (list R).
Variable Sd : list R.
Variable Mg : list M.
Variable K : kernel M.
Variable s p : R.

(** A sphere is seeded at an input point whose seediness is not below
    [s_threshold]. *)
Let seeded (sp : list R * M) : Prop :=
  exists i score,
    nth_error E i = Some (fst sp) /\ nth_error Mg i = Some (snd sp) /\
    nth_error Sd i = Some score /\ s <= score.

Lemma fp2_body_seed st st' :
  fp2_body E Sd Mg K s p st = Done (inr st') ->
  exists c sigma, seeded (c, sigma) /\ st' = fp2_next E K p st c sigma.
Proof.
  unfold fp2_body.
  destruct (argsort_rev_first (seediness_copy st)) as [i| |];
    cbn [bind]; try discriminate.
  destruct (index Sd i) as [score| |] eqn:Hs; cbn [bind]; try discriminate.
  destruct (Rltb_spec score s) as [Hlt | Hge]; [discriminate|].
  destruct (index E i) as [c| |] eqn:Hc; cbn [bind]; try discriminate.
  destruct (index Mg i) as [sigma| |] eqn:Hm; cbn [bind]; try discriminate.
  unfold set_masked.
  destruct (Nat.eqb _ _); cbn [bind]; try discriminate.
  intros H. injection H as <-. exists c, sigma. split; [|reflexivity].
  exists i, score. cbn [fst snd].
  repeat split; try (apply index_Done; assumption). lra.
Qed.

Lemma fp2_loop_seeded fuel st st' :
  fp2_loop E Sd Mg K s p fuel st = Done st' ->
  Forall seeded (spheres st) /\
  probs st = map (fun sp => K (fst sp) (snd sp) E) (spheres st) ->
  Forall seeded (spheres st') /\
  probs st' = map (fun sp => K (fst sp) (snd sp) E) (spheres st').
Proof.
  revert st. induction fuel as [|fuel IH]; intros st H Hinv.
  - simpl in H. destruct (Nat.ltb (count st) (length Sd));
      [discriminate | injection H as <-; exact Hinv].
  - rewrite fp2_loop_S in H.
    destruct (Nat.ltb (count st) (length Sd));
      [| injection H as <-; exact Hinv].
    destruct (fp2_body E Sd Mg K s p st) as [[st1 | st1]| |] eqn:Hb;
      cbn [bind] in H; try discriminate.
    + destruct (fp2_body_result E Sd Mg K s p st _ Hb)
        as [Heq | (c & sigma & Heq)]; [|discriminate].
      injection Heq as ->. injection H as <-. exact Hinv.
    + destruct (fp2_body_seed st st1 Hb) as (c & sigma & Hseed & ->).
      apply (IH _ H). destruct Hinv as [Hall Hprobs].
      unfold fp2_next. cbn [probs spheres]. split.
      * apply Forall_app. split; [exact Hall|].
        constructor; [exact Hseed | constructor].
      * rewrite map_app, Hprobs. reflexivity.
Qed.

Lemma claimed_none (col : list np_float) (a : list R) :
  count_true (claimed p col) = 0%nat ->
  mask_assign a (claimed p col) 0 = a.
Proof.
  unfold count_true. generalize (claimed p col) as mask. intros mask.
  revert a. induction mask as [|b mask IH]; intros [|x a] H; simpl in *;
    try reflexivity.
  destruct b; simpl in H; [discriminate|]. rewrite IH by exact H.
  reflexivity.
Qed.

Lemma fp2_body_same_copy st st2 st1 :
  seediness_copy st2 = seediness_copy st ->
  fp2_body E Sd Mg K s p st = Done (inr st1) ->
  exists c sigma,
    st1 = fp2_next E K p st c sigma /\
    fp2_body E Sd Mg K s p st2 = Done (inr (fp2_next E K p st2 c sigma)).
Proof.
  intros Hcopy. unfold fp2_body. rewrite Hcopy.
  destruct (argsort_rev_first (seediness_copy st)) as [i| |];
    cbn [bind]; try discriminate.
  destruct (index Sd i) as [score| |]; cbn [bind]; try discriminate.
  destruct (Rltb score s); [discriminate|].
  destruct (index E i) as [c| |]; cbn [bind]; try discriminate.
  destruct (index Mg i) as [sigma| |]; cbn [bind]; try discriminate.
  unfold set_masked.
  destruct (Nat.eqb _ _); cbn [bind]; try discriminate.
  intros H. injection H as <-. exists c, sigma.
  split; [reflexivity|]. unfold fp2_next. rewrite Hcopy. reflexivity.
Qed.

(** A pass that claims no point leaves [seediness_copy] and [count] as
    they were, so every later pass does the same and the loop does not
    come to an end. *)
Lemma fp2_loop_stuck st st1 :
  (count st < length Sd)%nat ->
  fp2_body E Sd Mg K s p st = Done (inr st1) ->
  count st1 = count st ->
  forall fuel st2 st',
    seediness_copy st2 = seediness_copy st -> count st2 = count st ->
    fp2_loop E Sd Mg K s p fuel st2 <> Done st'.
Proof.
  intros Hc Hb Hsame fuel.
  induction fuel as [|fuel IH]; intros st2 st' Hcopy Hcount.
  - simpl. destruct (Nat.ltb_spec (count st2) (length Sd));
      [discriminate | lia].
  - rewrite fp2_loop_S.
    destruct (Nat.ltb_spec (count st2) (length Sd)); [|lia].
    destruct (fp2_body_same_copy st st2 st1 Hcopy Hb)
      as (c & sigma & Hst1 & Hb2).
    rewrite Hb2. cbn [bind].
    assert (Hzero : count_true (claimed p (K c sigma E)) = 0%nat).
    { rewrite Hst1 in Hsame. unfold fp2_next in Hsame. cbn [count] in Hsame.
      lia. }
    apply IH.
    + unfold fp2_next. cbn [seediness_copy].
      rewrite claimed_none by exact Hzero. exact Hcopy.
    + unfold fp2_next. cbn [count]. lia.
Qed.

Lemma fp2_loop_sphere_bound fuel st st' :
  fp2_loop E Sd Mg K s p fuel st = Done st' ->
  (length (spheres st') <= length (spheres st) + (length Sd - count st))%nat.
Proof.
  revert st. induction fuel as [|fuel IH]; intros st H.
  - simpl in H. destruct (Nat.ltb (count st) (length Sd));
      [discriminate | injection H as <-; lia].
  - rewrite fp2_loop_S in H.
    destruct (Nat.ltb_spec (count st) (length Sd)) as [Hc | Hc];
      [| injection H as <-; lia].
    destruct (fp2_body E Sd Mg K s p st) as [[st1 | st1]| |] eqn:Hb;
      cbn [bind] in H; try discriminate.
    + destruct (fp2_body_result E Sd Mg K s p st _ Hb)
        as [Heq | (c & sigma & Heq)]; [|discriminate].
      injection Heq as ->. injection H as <-. lia.
    + destruct (Nat.eq_dec (count st1) (count st)) as [Hsame | Hgrow].
      * exfalso.
        apply (fp2_loop_stuck st st1 Hc Hb Hsame fuel st1 st'); try exact H.
        -- destruct (fp2_body_same_copy st st st1 eq_refl Hb)
             as (c & sigma & -> & _).
           unfold fp2_next in *. cbn [seediness_copy count] in *.
           apply claimed_none. lia.
        -- exact Hsame.
      * specialize (IH st1 H).
        destruct (fp2_body_result E Sd Mg K s p st _ Hb)
          as [Heq | (c & sigma & Heq)]; [discriminate|].
        injection Heq as ->. unfold fp2_next in *.
        cbn [spheres count] in *. rewrite length_app in IH. simpl in IH.
        lia.
Qed.
End DecoderGeneral.

(** X7.  Whenever [fit_predict2] returns, every sphere in the returned
    list is the (embedding, margin) pair of one input point whose
    seediness is not below [s_threshold].  With no sphere there is one
    label for each embedding row; otherwise there is one label for each
    seediness value, which is also the number of values the kernel has
    returned for every sphere (the masked assignment to [seediness_copy]
    raises on any other number). *)
Theorem fit_predict2_spheres_are_seeds {M : Type}
  (embeddings : list (list R)) (seediness : list R) (margins : list M)
  (fitfunc : kernel M) (s_threshold p_threshold : R) (fuel : nat)
  (cluster_all : bool) (labels : list Z) (found : list (list R * M)) :
  fit_predict2 embeddings seediness margins fitfunc s_threshold p_threshold
    fuel cluster_all = Done (labels, found) ->
  (found = [] -> length labels = length embeddings) /\
  (found <> [] ->
   length labels = length seediness /\
   forall centroid sigma, In (centroid, sigma) found ->
     length (fitfunc centroid sigma embeddings) = length seediness) /\
  forall centroid sigma, In (centroid, sigma) found ->
    exists i score,
      nth_error embeddings i = Some centroid /\
      nth_error margins i = Some sigma /\
      nth_error seediness i = Some score /\
      s_threshold <= score.
Proof.
  intros H.
  destruct (fit_predict2_result _ _ _ _ _ _ _ _ _ _ H)
    as (st & Hloop & -> & Hlen & Hlabels).
  destruct (fp2_loop_seeded embeddings seediness margins fitfunc
              s_threshold p_threshold fuel _ _ Hloop) as [Hall Hprobs].
  { split; [constructor | reflexivity]. }
  destruct (fp2_loop_full_columns embeddings seediness margins fitfunc
              s_threshold p_threshold _ _ _ Hloop eq_refl (Forall_nil _))
    as [_ Hcols].
  split; [| split].
  - intros Hnil. destruct Hlabels as [[_ ->] | [Hp _]].
    + apply repeat_length.
    + rewrite Hnil in Hlen. destruct (probs st); [congruence | discriminate].
  - intros Hne. split.
    + destruct Hlabels as [[Hp _] | [_ ->]].
      * rewrite Hp in Hlen. destruct (spheres st); [congruence | discriminate].
      * unfold hstack_rows. rewrite !length_map, length_seq. reflexivity.
    + intros c sigma Hin. rewrite Forall_forall in Hcols.
      apply Hcols. rewrite Hprobs.
      apply (in_map (fun sp => fitfunc (fst sp) (snd sp) embeddings)
               _ (c, sigma) Hin).
  - intros c sigma Hin. rewrite Forall_forall in Hall.
    destruct (Hall (c, sigma) Hin) as (i & score & H1 & H2 & H3 & H4).
    exists i, score. repeat split; assumption.
Qed.

Lemma fit_predict2_spheres_are_seeds_witness :
  length [1; 1; 0; 0]%Z = length [1; 9/10; 1; 9/10] /\
  exists i score,
    nth_error [[0; 0]; [1/10; 0]; [5; 5]; [51/10; 5]] i = Some [5; 5] /\
    nth_error [1/2; 1/2; 1/2; 1/2] i = Some (1/2) /\
    nth_error [1; 9/10; 1; 9/10] i = Some score /\
    0 <= score.
Proof.
  destruct (fit_predict2_spheres_are_seeds
              [[0; 0]; [1/10; 0]; [5; 5]; [51/10; 5]] [1; 9/10; 1; 9/10]
              [1/2; 1/2; 1/2; 1/2] gaussian_kernel 0 (1/2) 2 false
              [1; 1; 0; 0]%Z [([5; 5], 1/2); ([0; 0], 1/2)] (two_blobs_run 0))
    as (_ & Hsome & Hseed).
  split.
  - apply Hsome. discriminate.
  - apply Hseed. left. reflexivity.
Defined.

(** X8.  When every seediness value is below [s_threshold] the first pass
    breaks at once (and with no point at all the loop is not entered):
    [fit_predict2] returns no sphere and the label -1 for every embedding
    row. *)
Theorem fit_predict2_nothing_above_threshold {M : Type}
  (embeddings : list (list R)) (seediness : list R) (margins : list M)
  (fitfunc : kernel M) (s_threshold p_threshold : R) (fuel : nat)
  (cluster_all : bool) :
  Forall (fun x => x < s_threshold) seediness ->
  fit_predict2 embeddings seediness margins fitfunc s_threshold p_threshold
    (S fuel) cluster_all
  = Done (repeat (-1)%Z (length embeddings), []).
Proof.
  intros Hall. unfold fit_predict2. rewrite fp2_loop_S.
  unfold fp2_init at 1. cbn [count].
  destruct seediness as [|x sd]; [reflexivity|].
  cbn [length Nat.ltb Nat.leb].
  unfold fp2_body, fp2_init. cbn [seediness_copy].
  destruct (argsort_rev_first_total (x :: sd)) as [i Hi]; [discriminate|].
  rewrite Hi. cbn [bind].
  apply argsort_rev_first_max in Hi. destruct Hi as [Hi _].
  rewrite (index_nth _ _ 0 Hi). cbn [bind].
  rewrite Rltb_true.
  - reflexivity.
  - rewrite Forall_forall in Hall. apply Hall, nth_In. exact Hi.
Qed.

Lemma fit_predict2_nothing_above_threshold_witness :
  fit_predict2 [[0]; [1]] [1/2; 1/4] [1; 1] gaussian_kernel 1 (1/2) 1 false
  = Done ([-1; -1]%Z, []).
Proof.
  apply (fit_predict2_nothing_above_threshold [[0]; [1]] [1/2; 1/4] [1; 1]
           gaussian_kernel 1 (1/2) 0 false).
  repeat constructor; lra.
Defined.

(** X9.  Whenever [fit_predict2] returns, it has found at most as many
    spheres as there are seediness values: a pass that creates a sphere
    without claiming any point would repeat itself for ever, so in a run
    that returns every sphere raises [count] by at least 1. *)
Theorem fit_predict2_sphere_count {M : Type}
  (embeddings : list (list R)) (seediness : list R) (margins : list M)
  (fitfunc : kernel M) (s_threshold p_threshold : R) (fuel : nat)
  (cluster_all : bool) (labels : list Z) (found : list (list R * M)) :
  fit_predict2 embeddings seediness margins fitfunc s_threshold p_threshold
    fuel cluster_all = Done (labels, found) ->
  (length found <= length seediness)%nat.
Proof.
  intros H.
  destruct (fit_predict2_result _ _ _ _ _ _ _ _ _ _ H)
    as (st & Hloop & -> & _ & _).
  pose proof (fp2_loop_sphere_bound _ _ _ _ _ _ _ _ _ Hloop) as Hb.
  unfold fp2_init in Hb. cbn [spheres count length] in Hb. lia.
Qed.

Lemma fit_predict2_sphere_count_witness :
  (length [([5; 5], 1/2); ([0; 0], 1/2)] <= length [1; 9/10; 1; 9/10])%nat.
Proof.
  apply (fit_predict2_sphere_count
           [[0; 0]; [1/10; 0]; [5; 5]; [51/10; 5]] [1; 9/10; 1; 9/10]
           [1/2; 1/2; 1/2; 1/2] gaussian_kernel 0 (1/2) 2 false
           [1; 1; 0; 0]%Z [([5; 5], 1/2); ([0; 0], 1/2)] (two_blobs_run 0)).
Defined.

(** In the order [np.argmax] compares by (a NaN above every number, and
    no value above itself), a value that takes over from [b] is above
    every value that does not. *)
Lemma takes_over_irrefl (x : np_float) : takes_over x x = false.
Proof.
  destruct x as [x| | |]; cbn [takes_over np_ltb]; try reflexivity.
  apply Rltb_false. lra.
Qed.

Lemma takes_over_chain (x y b : np_float) :
  takes_over x b = true -> takes_over y b = false ->
  takes_over x y = true /\ takes_over y x = false.
Proof.
  destruct x as [x| | |], y as [y| | |], b as [b| | |];
    cbn [takes_over np_ltb]; intros H1 H2;
    try discriminate; try (split; reflexivity).
  destruct (Rltb_spec b x) as [Hbx|]; [|discriminate].
  destruct (Rltb_spec b y) as [|Hby]; [discriminate|].
  split; [apply Rltb_true | apply Rltb_false]; lra.
Qed.

Lemma argmax_from_first_max (l pre : list np_float) (best a : nat) :
  (best < length pre)%nat ->
  (forall j, (j < length pre)%nat ->
     takes_over (nth j pre NaN) (nth best pre NaN) = false) ->
  (forall j, (j < best)%nat ->
     takes_over (nth best pre NaN) (nth j pre NaN) = true) ->
  a = argmax_from best (nth best pre NaN) (length pre) l ->
  (a < length (pre ++ l))%nat /\
  (forall j, (j < length (pre ++ l))%nat ->
     takes_over (nth j (pre ++ l) NaN) (nth a (pre ++ l) NaN) = false) /\
  (forall j, (j < a)%nat ->
     takes_over (nth a (pre ++ l) NaN) (nth j (pre ++ l) NaN) = true).
Proof.
  revert pre best. induction l as [|x l IH]; intros pre best Hb Hmax Hfirst Ha.
  - cbn [argmax_from] in Ha. subst a. rewrite app_nil_r. auto.
  - cbn [argmax_from] in Ha.
    replace (pre ++ x :: l) with ((pre ++ [x]) ++ l)
      by (rewrite <- app_assoc; reflexivity).
    assert (Hlen : length (pre ++ [x]) = S (length pre))
      by (rewrite length_app; simpl; lia).
    destruct (takes_over x (nth best pre NaN)) eqn:Hx.
    + apply (IH (pre ++ [x]) (length pre)).
      * lia.
      * intros j Hj. rewrite nth_middle.
        destruct (Nat.eq_dec j (length pre)) as [-> | Hne].
        -- rewrite nth_middle. apply takes_over_irrefl.
        -- rewrite app_nth1 by lia.
           apply (takes_over_chain x _ _ Hx). apply Hmax. lia.
      * intros j Hj. rewrite nth_middle, app_nth1 by lia.
        apply (takes_over_chain x _ _ Hx). apply Hmax. exact Hj.
      * rewrite nth_middle, Hlen. exact Ha.
    + apply (IH (pre ++ [x]) best).
      * lia.
      * intros j Hj. rewrite (app_nth1 pre [x] NaN Hb).
        destruct (Nat.eq_dec j (length pre)) as [-> | Hne].
        -- rewrite nth_middle. exact Hx.
        -- rewrite app_nth1 by lia. apply Hmax. lia.
      * intros j Hj. rewrite (app_nth1 pre [x] NaN Hb), app_nth1 by lia.
        apply Hfirst. exact Hj.
      * rewrite (app_nth1 pre [x] NaN Hb), Hlen. exact Ha.
Qed.

(** [np.argmax] returns the first index holding a value that no entry of
    the row is above. *)
Lemma np_argmax_first_max (row : list np_float) :
  row <> [] ->
  (np_argmax row < length row)%nat /\
  (forall j, (j < length row)%nat ->
     takes_over (nth j row NaN) (nth (np_argmax row) row NaN) = false) /\
  (forall j, (j < np_argmax row)%nat ->
     takes_over (nth (np_argmax row) row NaN) (nth j row NaN) = true).
Proof.
  destruct row as [|x l]; [congruence|]. intros _.
  apply (argmax_from_first_max l [x] 0 (np_argmax (x :: l))).
  - simpl. lia.
  - intros j Hj. simpl in Hj. replace j with 0%nat by lia.
    apply takes_over_irrefl.
  - intros j Hj. lia.
  - reflexivity.
Qed.

(** X10.  Whenever [fit_predict2] returns at least one sphere, whatever
    the kernel, there is one label for each seediness value, and the
    label of a point is the index of the first returned sphere whose
    kernel value at that point, as the kernel returned it, is the highest
    among all returned spheres in the order of [np.argmax]: no sphere has
    a value above it, and it is above the value of every earlier
    sphere. *)
Theorem fit_predict2_best_fit {M : Type} (embeddings : list (list R))
  (seediness : list R) (margins : list M) (fitfunc : kernel M)
  (s_threshold p_threshold : R) (fuel : nat)
  (cluster_all : bool) (labels : list Z) (found : list (list R * M)) :
  fit_predict2 embeddings seediness margins fitfunc s_threshold
    p_threshold fuel cluster_all = Done (labels, found) ->
  found <> [] ->
  length labels = length seediness /\
  forall k, (k < length seediness)%nat ->
  exists l sp,
    nth_error labels k = Some (Z.of_nat l) /\
    nth_error found l = Some sp /\
    (forall sp', In sp' found ->
       takes_over (sphere_value fitfunc embeddings sp' k)
                  (sphere_value fitfunc embeddings sp k) = false) /\
    (forall l' sp', (l' < l)%nat -> nth_error found l' = Some sp' ->
       takes_over (sphere_value fitfunc embeddings sp k)
                  (sphere_value fitfunc embeddings sp' k) = true).
Proof.
  intros H Hne.
  destruct (fit_predict2_result _ _ _ _ _ _ _ _ _ _ H)
    as (st & Hloop & Hfound & Hlen & Hlabels).
  destruct (fp2_loop_seeded embeddings seediness margins fitfunc
              s_threshold p_threshold fuel _ _ Hloop) as [_ Hprobs].
  { split; [constructor | reflexivity]. }
  rewrite <- Hfound in Hprobs.
  destruct Hlabels as [[Hp _] | [_ Hl]].
  { rewrite Hp in Hlen. destruct found; [congruence | discriminate]. }
  split.
  { rewrite Hl. unfold hstack_rows. rewrite !length_map, length_seq.
    reflexivity. }
  intros k Hk.
  set (row := map (fun sp => sphere_value fitfunc embeddings sp k) found).
  assert (Hrow : map (fun col => nth k col NaN) (probs st) = row).
  { rewrite Hprobs. unfold row. rewrite map_map. reflexivity. }
  assert (Hrl : length row = length found) by apply length_map.
  assert (Hnth : forall j sp, nth_error found j = Some sp ->
             nth j row NaN = sphere_value fitfunc embeddings sp k).
  { intros j sp Hj. apply nth_error_nth. unfold row.
    rewrite nth_error_map, Hj. reflexivity. }
  assert (Hrne : row <> []).
  { unfold row. destruct found; [congruence | discriminate]. }
  destruct (np_argmax_first_max row Hrne) as (Hlt & Hmax & Hfirst).
  set (l := np_argmax row) in *.
  destruct (nth_error found l) as [sp|] eqn:Hsp;
    [| apply nth_error_None in Hsp; lia].
  exists l, sp. split; [| split; [exact Hsp | split]].
  - rewrite Hl. unfold hstack_rows. rewrite !nth_error_map.
    rewrite nth_error_seq.
    destruct (Nat.ltb_spec k (length seediness)); [|lia].
    cbn [option_map Nat.add]. rewrite Hrow. reflexivity.
  - intros sp' Hin. destruct (In_nth_error _ _ Hin) as [j Hj].
    rewrite <- (Hnth j sp' Hj), <- (Hnth l sp Hsp).
    apply Hmax. rewrite Hrl. apply nth_error_Some. congruence.
  - intros l' sp' Hl' Hj.
    rewrite <- (Hnth l' sp' Hj), <- (Hnth l sp Hsp).
    apply Hfirst. exact Hl'.
Qed.

Lemma fit_predict2_best_fit_witness :
  length [1; 1; 0; 0]%Z = length [1; 9/10; 1; 9/10] /\
  exists l sp,
    nth_error [1; 1; 0; 0]%Z 0 = Some (Z.of_nat l) /\
    nth_error [([5; 5], 1/2); ([0; 0], 1/2)] l = Some sp.
Proof.
  destruct (fit_predict2_best_fit
              [[0; 0]; [1/10; 0]; [5; 5]; [51/10; 5]] [1; 9/10; 1; 9/10]
              [1/2; 1/2; 1/2; 1/2] gaussian_kernel 0 (1/2) 2 false
              [1; 1; 0; 0]%Z [([5; 5], 1/2); ([0; 0], 1/2)])
    as [Hlen Hbest].
  - apply (two_blobs_run 0).
  - discriminate.
  - split; [exact Hlen|].
    destruct (Hbest 0%nat) as (l & sp & H1 & H2 & _).
    + simpl. lia.
    + exists l, sp. split; assumption.
Defined.

(** ** The discriminative loss, in general *)

Lemma enumerate_in {A : Type} (d : A) (l : list A) (i : nat) (x : A) :
  In (i, x) (enumerate l) -> (i < length l)%nat /\ nth_error l i = Some x.
Proof.
  rewrite (enumerate_seq d). intros H. apply in_map_iff in H.
  destruct H as (j & Hj & Hin). injection Hj as <- <-.
  apply in_seq in Hin. split; [lia|].
  apply nth_error_nth'. lia.
Qed.

Lemma Rinv_nonneg (x : R) : 0 <= x -> 0 <= / x.
Proof.
  intros [H | <-]; [left; apply Rinv_0_lt_compat; exact H|].
  rewrite Rinv_0. lra.
Qed.

Section LossGeneral.
Variable norm : list R -> R.
Variable features : list (list R).
Variable labels : list Z.
Variable cluster_means : list (list R).
Variable margin : R.

Hypothesis length_labels : length labels = length features.

Lemma intra_loop_done (pairs : list (nat * Z)) (acc : R) :
  (forall i c, In (i, c) pairs -> (i < length cluster_means)%nat) ->
  0 <= acc ->
  exists v, intra_loop norm features labels cluster_means margin pairs acc
            = Done v /\ 0 <= v.
Proof.
  revert acc. induction pairs as [|[i c] pairs IH]; intros acc Hidx Hacc.
  - exists acc. split; [reflexivity | exact Hacc].
  - cbn [intra_loop]. unfold select.
    rewrite length_label_mask, length_labels, Nat.eqb_refl. cbn [bind].
    rewrite (index_nth cluster_means i [])
      by (apply (Hidx i c); left; reflexivity).
    cbn [bind]. apply IH.
    + intros i' c' H. apply (Hidx i' c'). right. exact H.
    + match goal with
      | |- 0 <= acc + Rsum (map sq ?h) / ?n =>
          pose proof (Rsum_sq_nonneg h) as Hs;
          assert (Hn : 0 <= / n) by (apply Rinv_nonneg, pos_INR)
      end.
      unfold Rdiv. nra.
Qed.

Lemma intra_loop_within_margin (pairs : list (nat * Z)) (acc : R) :
  (forall i c, In (i, c) pairs ->
     (i < length cluster_means)%nat /\
     forall x, In x (mask_rows features (label_mask labels c)) ->
       norm (add_eps (vsub x (nth i cluster_means []))) <= margin) ->
  intra_loop norm features labels cluster_means margin pairs acc = Done acc.
Proof.
  revert acc. induction pairs as [|[i c] pairs IH]; intros acc H.
  - reflexivity.
  - cbn [intra_loop]. unfold select.
    rewrite length_label_mask, length_labels, Nat.eqb_refl. cbn [bind].
    destruct (H i c (or_introl eq_refl)) as [Hi Hwithin].
    rewrite (index_nth cluster_means i [] Hi). cbn [bind].
    set (members := mask_rows features (label_mask labels c)) in *.
    assert (Hz : map sq
                   (map (fun d => Rmax (d - margin) 0)
                      (map (fun x => norm (add_eps
                              (vsub x (nth i cluster_means [])))) members))
                 = map (fun _ => 0) members).
    { rewrite !map_map. apply map_ext_in. intros x Hx.
      rewrite Rmax_right by (specialize (Hwithin x Hx); lra).
      unfold sq. ring. }
    rewrite Hz, Rsum_zeros.
    replace (acc + 0 / _) with acc by (unfold Rdiv; ring).
    apply IH. intros i' c' Hin. apply H. right. exact Hin.
Qed.
End LossGeneral.

Lemma loss_read_unbound (outside : namespace R) (name : string) :
  assoc (map (fun n => (n, PyOther (M := R))) loss_names) name = None ->
  assoc outside name = None ->
  read_global (loss_globals outside) name = Raise (NameError name).
Proof.
  intros H1 H2. apply read_global_unbound. unfold loss_globals.
  rewrite assoc_app_none by exact H1. exact H2.
Qed.

Lemma np_unique_nonempty (labels : list Z) :
  labels <> [] -> np_unique labels <> [].
Proof.
  destruct labels as [|l labels]; [congruence|]. intros _ Hnil.
  assert (Hin : In l (np_unique (l :: labels)))
    by (apply np_unique_in; left; reflexivity).
  rewrite Hnil in Hin. destruct Hin.
Qed.

Lemma torch_cluster_means_done (features : list (list R)) (labels : list Z) :
  labels <> [] -> length labels = length features ->
  exists means,
    DiscriminativeLoss_find_cluster_means features labels = Done means /\
    length means = length (np_unique labels).
Proof.
  intros Hne Hlen.
  exists (map (fun c => mean0 (ncols features)
                        (mask_rows features (label_mask labels c)))
              (np_unique labels)).
  split; [| apply length_map].
  unfold DiscriminativeLoss_find_cluster_means.
  rewrite cluster_means_loop_done by exact Hlen. cbn [bind].
  pose proof (np_unique_nonempty labels Hne) as Hu.
  destruct (np_unique labels); [congruence | reflexivity].
Qed.

Lemma combine_components_done (norm : list R -> R)
  (features : list (list R)) (labels : list Z) (kwargs : list (string * R)) :
  features <> [] -> length labels = length features ->
  exists inter_loss intra_loss reg,
    combine_components norm features labels kwargs
    = Done (inter_loss, intra_loss, reg).
Proof.
  intros Hne Hlen.
  assert (Hl : labels <> []).
  { destruct labels; [destruct features; [congruence | discriminate]|].
    discriminate. }
  destruct (torch_cluster_means_done features labels Hl Hlen)
    as (means & Hfind & Hlm).
  pose proof (np_unique_nonempty labels Hl) as Hu.
  destruct (intra_loop_done norm features labels means
              (kwargs_get kwargs "inter_margin" (3/2)) Hlen
              (enumerate (np_unique labels)) 0) as (v & Hv & _).
  { intros i c Hin. apply (enumerate_in 0%Z) in Hin. lia. }
  { lra. }
  assert (Hn : length means <> 0%nat).
  { rewrite Hlm. destruct (np_unique labels); [congruence | discriminate]. }
  unfold combine_components. rewrite Hfind. cbn [bind].
  unfold intra_cluster_loss. rewrite Hv. cbn [bind].
  destruct (Nat.eqb_spec (length means) 0); [contradiction|].
  cbn [bind]. unfold regularization.
  destruct (Nat.eqb_spec (length means) 0); [contradiction|].
  cbn [bind]. eexists _, _, _. reflexivity.
Qed.

(** X11.  As long as nothing outside the file binds [loss_var],
    [DiscriminativeLoss.combine] never returns a loss: on every non-empty
    feature matrix with as many labels as rows it raises
    NameError("loss_var") after having computed the three components,
    and on every other input it raises what the components raise. *)
Theorem combine_never_returns (norm : list R -> R) (outside : namespace R)
  (features : list (list R)) (labels : list Z) (kwargs : list (string * R)) :
  assoc outside "loss_var" = None ->
  (forall blob,
     DiscriminativeLoss_combine norm (loss_globals outside) features labels
       kwargs <> Done blob) /\
  (features <> [] -> length labels = length features ->
   DiscriminativeLoss_combine norm (loss_globals outside) features labels
     kwargs = Raise (NameError "loss_var")).
Proof.
  intros Hout.
  assert (Hread : read_global (loss_globals outside) "loss_var"
                  = Raise (NameError "loss_var"))
    by (apply loss_read_unbound; [reflexivity | exact Hout]).
  split.
  - intros blob. unfold DiscriminativeLoss_combine.
    destruct (combine_components norm features labels kwargs)
      as [[[a b] c]| |]; cbn [bind]; try discriminate.
    rewrite Hread. discriminate.
  - intros Hne Hlen.
    destruct (combine_components_done norm features labels kwargs Hne Hlen)
      as (a & b & c & Hc).
    unfold DiscriminativeLoss_combine. rewrite Hc. cbn [bind].
    rewrite Hread. reflexivity.
Qed.

Lemma combine_never_returns_witness :
  DiscriminativeLoss_combine norm2 (loss_globals []) [[0]; [2]] [0; 1]%Z []
  = Raise (NameError "loss_var").
Proof.
  apply (combine_never_returns norm2 [] [[0]; [2]] [0; 1]%Z []).
  - reflexivity.
  - discriminate.
  - reflexivity.
Defined.

Lemma intra_loop_nonneg (norm : list R -> R) (features : list (list R))
  (labels : list Z) (cluster_means : list (list R)) (margin : R)
  (pairs : list (nat * Z)) (acc v : R) :
  intra_loop norm features labels cluster_means margin pairs acc = Done v ->
  0 <= acc -> 0 <= v.
Proof.
  revert acc. induction pairs as [|[i c] pairs IH]; intros acc H Hacc.
  - simpl in H. injection H as <-. exact Hacc.
  - cbn [intra_loop] in H.
    destruct (select features (label_mask labels c)) as [members| |];
      cbn [bind] in H; try discriminate.
    destruct (index cluster_means i) as [mu| |]; cbn [bind] in H;
      try discriminate.
    apply (IH _ H).
    match goal with
    | |- 0 <= acc + Rsum (map sq ?h) / ?n =>
        pose proof (Rsum_sq_nonneg h) as Hs;
        assert (Hn : 0 <= / n) by (apply Rinv_nonneg, pos_INR)
    end.
    unfold Rdiv. nra.
Qed.

(** X12.  Whenever the three components of the loss are computed, the
    inter-cluster and the intra-cluster term are non-negative, and so is
    the regularization term for a norm that is non-negative. *)
Theorem loss_components_nonneg (norm : list R -> R)
  (features : list (list R)) (labels : list Z) (kwargs : list (string * R))
  (inter_loss intra_loss reg : R) :
  (forall v, 0 <= norm v) ->
  combine_components norm features labels kwargs
    = Done (inter_loss, intra_loss, reg) ->
  0 <= inter_loss /\ 0 <= intra_loss /\ 0 <= reg.
Proof.
  intros Hnorm. unfold combine_components.
  destruct (DiscriminativeLoss_find_cluster_means features labels)
    as [means| |]; cbn [bind]; try discriminate.
  unfold intra_cluster_loss.
  destruct (intra_loop norm features labels means _ _ 0) as [v| |] eqn:Hv;
    cbn [bind]; try discriminate.
  destruct (Nat.eqb_spec (length means) 0) as [Hz | Hnz]; cbn [bind];
    try discriminate.
  unfold regularization.
  destruct (Nat.eqb_spec (length means) 0); [contradiction|]. cbn [bind].
  intros H. injection H as <- <- <-.
  assert (Hinv : 0 <= / INR (length means)) by apply Rinv_nonneg, pos_INR.
  split; [| split].
  - unfold inter_cluster_loss.
    destruct (Nat.ltb_spec (length means) 2); [lra|].
    rewrite inter_loops_sum.
    assert (Hs : forall l,
               0 <= Rsum (map (pair_hinge (perturbed_dist norm) means
                                 (kwargs_get kwargs "intra_margin" (1/2)))
                              l)).
    { induction l as [|ij l IH]; [simpl; lra|].
      cbn [map]. unfold Rsum in *. cbn [fold_right].
      unfold pair_hinge at 1.
      pose proof (pow2_ge_0 (Rmax 0
        (2 * kwargs_get kwargs "intra_margin" (1/2)
         - perturbed_dist norm (nth (fst ij) means [])
             (nth (snd ij) means [])))).
      lra. }
    assert (Hd : 0 <= / INR ((length means - 1) * length means))
      by apply Rinv_nonneg, pos_INR.
    unfold Rdiv. apply Rmult_le_pos; [apply Hs | exact Hd].
  - pose proof (intra_loop_nonneg _ _ _ _ _ _ _ _ Hv (Rle_refl 0)) as Hpos.
    unfold Rdiv. apply Rmult_le_pos; assumption.
  - assert (Hs : forall l acc, 0 <= acc ->
               0 <= fold_left (fun a row => a + norm (add_eps row)) l acc).
    { induction l as [|row l IH]; intros acc Hacc; simpl; [exact Hacc|].
      apply IH. pose proof (Hnorm (add_eps row)). lra. }
    unfold Rdiv. apply Rmult_le_pos; [apply Hs; lra | exact Hinv].
Qed.

Lemma loss_components_nonneg_witness :
  exists inter_loss intra_loss reg,
    combine_components norm2 [[0]; [2]] [0; 1]%Z []
      = Done (inter_loss, intra_loss, reg) /\
    0 <= inter_loss /\ 0 <= intra_loss /\ 0 <= reg.
Proof.
  destruct (combine_components_done norm2 [[0]; [2]] [0; 1]%Z [])
    as (a & b & c & H); [discriminate | reflexivity |].
  exists a, b, c. split; [exact H|].
  apply (loss_components_nonneg norm2 [[0]; [2]] [0; 1]%Z [] a b c);
    [apply norm2_nonneg | exact H].
Defined.

(** X13.  When every two distinct centroids are at least [2 margin]
    apart (in the norm of the difference with [1e-8] added to every
    coordinate, which is what the code measures), the inter-cluster loss
    is exactly 0. *)
Theorem inter_cluster_loss_separated (norm : list R -> R)
  (cluster_means : list (list R)) (margin : R) :
  (forall i j, (i < length cluster_means)%nat ->
     (j < length cluster_means)%nat -> i <> j ->
     2 * margin <= perturbed_dist norm (nth i cluster_means [])
                     (nth j cluster_means [])) ->
  inter_cluster_loss norm cluster_means margin = 0.
Proof.
  intros Hsep.
  destruct (Nat.lt_ge_cases (length cluster_means) 2) as [Hs | Hl].
  - apply inter_cluster_loss_small. exact Hs.
  - rewrite inter_cluster_loss_sum by exact Hl. unfold inter_cluster_sum.
    rewrite (map_ext_in _ (fun _ => 0)).
    + rewrite Rsum_zeros. unfold Rdiv. ring.
    + intros [i j] Hin. apply ordered_pairs_in in Hin.
      destruct Hin as (Hi & Hj & Hne).
      unfold pair_hinge. cbn [fst snd].
      rewrite Rmax_left by (specialize (Hsep i j Hi Hj Hne); lra).
      ring.
Qed.

Lemma inter_cluster_loss_separated_witness :
  inter_cluster_loss norm2 [[0]; [5]] 1 = 0.
Proof.
  apply inter_cluster_loss_separated.
  intros [|[|i]] [|[|j]] Hi Hj Hne; simpl in Hi, Hj; try lia;
    unfold perturbed_dist, add_eps, vsub; cbn [nth zip_with map];
    rewrite norm2_singleton.
  - rewrite Rabs_left by (unfold eps; lra). unfold eps. lra.
  - rewrite Rabs_pos_eq by (unfold eps; lra). unfold eps. lra.
Defined.

(** X14.  When the label vector has as many entries as there are feature
    rows, there is one centroid for each distinct label, and every point
    lies within [margin] of the centroid of its label (again in the norm
    of the difference with [1e-8] added), the intra-cluster loss is
    exactly 0. *)
Theorem intra_cluster_loss_within_margin (norm : list R -> R)
  (features : list (list R)) (labels : list Z)
  (cluster_means : list (list R)) (margin : R) :
  length labels = length features ->
  labels <> [] ->
  length cluster_means = length (np_unique labels) ->
  (forall i c x,
     nth_error (np_unique labels) i = Some c ->
     In x (mask_rows features (label_mask labels c)) ->
     norm (add_eps (vsub x (nth i cluster_means []))) <= margin) ->
  intra_cluster_loss norm features labels cluster_means margin = Done 0.
Proof.
  intros Hlen Hne Hmeans Hwithin. unfold intra_cluster_loss.
  rewrite (intra_loop_within_margin norm features labels cluster_means
             margin Hlen).
  - cbn [bind].
    pose proof (np_unique_nonempty labels Hne) as Hu.
    destruct (Nat.eqb_spec (length cluster_means) 0) as [Hz | Hnz].
    + rewrite Hmeans in Hz. destruct (np_unique labels);
        [congruence | discriminate].
    + f_equal. unfold Rdiv. ring.
  - intros i c Hin. apply (enumerate_in 0%Z) in Hin.
    destruct Hin as [Hi Hc]. split; [lia|].
    intros x Hx. apply (Hwithin i c x Hc Hx).
Qed.

Lemma intra_cluster_loss_within_margin_witness :
  intra_cluster_loss norm2 [[1]; [1]] [4; 4]%Z [[1]] (1/2) = Done 0.
Proof.
  apply intra_cluster_loss_within_margin.
  - reflexivity.
  - discriminate.
  - reflexivity.
  - intros [|i] c x Hc Hx; simpl in Hc.
    + injection Hc as <-. simpl in Hx.
      destruct Hx as [<- | [<- | []]];
        unfold add_eps, vsub; cbn [nth zip_with map];
        rewrite norm2_singleton, Rabs_pos_eq by (unfold eps; lra);
        unfold eps; lra.
    + destruct i; discriminate.
Defined.

(** ** The F-score, in general *)

(** X15.  For positive purity and efficiency the F-score is a finite
    number between the smaller and the larger of the two, and it does not
    depend on their order. *)
Theorem fscore_between (purity efficiency : R) :
  0 < purity -> 0 < efficiency ->
  exists f,
    fscore purity efficiency = Fin f /\
    fscore efficiency purity = Fin f /\
    Rmin purity efficiency <= f <= Rmax purity efficiency.
Proof.
  intros Hp He.
  exists (2 * (purity * efficiency) / (purity + efficiency)).
  assert (Hi : 0 < / (purity + efficiency)) by (apply Rinv_0_lt_compat; lra).
  split; [| split].
  - unfold fscore, np_div. rewrite Reqb_false by lra. reflexivity.
  - unfold fscore, np_div. rewrite Reqb_false by lra. f_equal.
    unfold Rdiv. rewrite (Rplus_comm efficiency purity). ring.
  - assert (Hf : 2 * (purity * efficiency) / (purity + efficiency)
                 * (purity + efficiency) = 2 * (purity * efficiency))
      by (field; lra).
    set (f := 2 * (purity * efficiency) / (purity + efficiency)) in *.
    unfold Rmin, Rmax.
    destruct (Rle_dec purity efficiency); split; nra.
Qed.

Lemma fscore_between_witness :
  exists f, fscore (1/2) 1 = Fin f /\ fscore 1 (1/2) = Fin f /\
            Rmin (1/2) 1 <= f <= Rmax (1/2) 1.
Proof. apply (fscore_between (1/2) 1); lra. Defined.

(** ** The first-claim decoder, when its three names are bound *)

Lemma last_claim_app {M : Type} (K : kernel M) (E : list (list R)) (p : R)
  (l1 l2 : list (list R * M)) (t k : nat) (acc : Z) :
  last_claim K E p (l1 ++ l2) t k acc
  = last_claim K E p l2 (t + length l1) k (last_claim K E p l1 t k acc).
Proof.
  revert t acc. induction l1 as [|sp l1 IH]; intros t acc; simpl.
  - rewrite Nat.add_0_r. reflexivity.
  - rewrite IH. f_equal. lia.
Qed.

Lemma last_claim_none {M : Type} (K : kernel M) (E : list (list R)) (p : R)
  (l : list (list R * M)) (t k : nat) (acc : Z) :
  (forall sp, In sp l -> claims K E p sp k = false) ->
  last_claim K E p l t k acc = acc.
Proof.
  revert t acc. induction l as [|sp l IH]; intros t acc H; simpl;
    [reflexivity|].
  rewrite (H sp (or_introl eq_refl)). apply IH.
  intros sp' Hsp'. apply H. right. exact Hsp'.
Qed.

Lemma mask_assign_map_seq (f : nat -> Z) (mask : list bool) (v : Z)
  (start n : nat) :
  mask_assign (map f (seq start n)) mask v
  = map (fun k => if nth (k - start) mask false then v else f k)
        (seq start n).
Proof.
  revert mask start. induction n as [|n IH]; intros mask start.
  - destruct mask; reflexivity.
  - cbn [seq map]. destruct mask as [|b mask].
    + cbn [mask_assign]. f_equal.
      * rewrite Nat.sub_diag. reflexivity.
      * apply map_ext. intros k. destruct (k - start)%nat; reflexivity.
    + cbn [mask_assign]. rewrite Nat.sub_diag. cbn [nth]. f_equal.
      rewrite IH. apply map_ext_in. intros k Hk. apply in_seq in Hk.
      replace (k - start)%nat with (S (k - S start)) by lia. reflexivity.
Qed.

Section Decoder1Bound.
Context {M : Type}.
Variable globals : namespace M.
Variable E : list (list R).
Variable Sd : list R.
Variable Mg : list M.
Variable K : kernel M.
Variable s p : R.

Hypothesis bound_s : assoc globals "s_threshold" = Some (PyFloat s).
Hypothesis bound_f : assoc globals "fitfunc" = Some (PyKernel K).
Hypothesis bound_p : assoc globals "p_threshold" = Some (PyFloat p).

Lemma fp1_body_result st r :
  fp1_body globals E Sd Mg st = Done r ->
  r = inl st \/ exists c sigma, r = inr (fp1_next K E p st c sigma).
Proof.
  unfold fp1_body, read_global. rewrite bound_s, bound_f, bound_p.
  destruct (argsort_rev_first (seediness_copy1 st)) as [i| |];
    cbn [bind as_float as_kernel]; try discriminate.
  destruct (index Sd i) as [score| |]; cbn [bind]; try discriminate.
  destruct (Rltb score s).
  { intros H. injection H as <-. left. reflexivity. }
  destruct (index E i) as [c| |]; cbn [bind]; try discriminate.
  destruct (index Mg i) as [sigma| |]; cbn [bind]; try discriminate.
  unfold set_masked.
  repeat (match goal with
          | |- context [if ?b then _ else _] => destruct b
          end; cbn [bind]; try discriminate).
  intros H. injection H as <-. right. exists c, sigma. reflexivity.
Qed.

(** The labels are those of the last sphere that claimed each point. *)
Let labelled (st : @fp1_state M) : Prop :=
  pred_labels st
  = map (fun k => last_claim K E p (spheres1 st) 0 k (-1)%Z)
        (seq 0 (length E)) /\
  c st = length (spheres1 st).

Lemma labelled_next st c0 sigma :
  labelled st -> labelled (fp1_next K E p st c0 sigma).
Proof.
  intros [Hl Hc]. unfold labelled, fp1_next. cbn [pred_labels spheres1 c].
  split; [| rewrite length_app; simpl; lia].
  rewrite Hl, mask_assign_map_seq. apply map_ext. intros k.
  rewrite Nat.sub_0_r, nth_claimed, last_claim_app. cbn [last_claim].
  rewrite Hc. cbn [Nat.add]. unfold claims. cbn [fst snd].
  reflexivity.
Qed.

Lemma fp1_loop_labelled fuel st st' :
  fp1_loop globals E Sd Mg fuel st = Done st' ->
  labelled st -> labelled st'.
Proof.
  revert st. induction fuel as [|fuel IH]; intros st H Hinv.
  - simpl in H. destruct (negb _); [discriminate|].
    injection H as <-. exact Hinv.
  - cbn [fp1_loop] in H. destruct (negb _);
      [| injection H as <-; exact Hinv].
    destruct (fp1_body globals E Sd Mg st) as [r| |] eqn:Hb;
      cbn [bind] in H; try discriminate.
    destruct (fp1_body_result st r Hb) as [-> | (c0 & sigma & ->)].
    + injection H as <-. exact Hinv.
    + apply (IH _ H). apply labelled_next. exact Hinv.
Qed.

Lemma fit_predict1_labels fuel threshold labels found :
  fit_predict1 globals E Sd Mg fuel threshold false = Done (labels, found) ->
  labels = map (fun k => last_claim K E p found 0 k (-1)%Z)
               (seq 0 (length E)).
Proof.
  unfold fit_predict1.
  destruct (fp1_loop globals E Sd Mg fuel (fp1_init E Sd)) as [st| |] eqn:Hl;
    cbn [bind]; try discriminate.
  intros H. injection H as <- <-.
  apply (fp1_loop_labelled _ _ _ Hl).
  unfold labelled, fp1_init. cbn [pred_labels spheres1 c last_claim length].
  split; [| reflexivity].
  rewrite map_const, length_seq. reflexivity.
Qed.
End Decoder1Bound.

(** X16.  When the module namespace binds [s_threshold], [fitfunc] and
    [p_threshold] (to two numbers and a kernel) and [cluster_all] is
    off, [fit_predict1] labels a point that no returned sphere claims
    with -1, and a point that some sphere claims with the index of the
    last sphere that claims it: a later sphere overwrites the label an
    earlier one gave. *)
Theorem fit_predict1_last_claim_wins {M : Type} (globals : namespace M)
  (embeddings : list (list R)) (seediness : list R) (margins : list M)
  (fitfunc : kernel M) (s_threshold p_threshold : R)
  (fuel : nat) (threshold : R) (labels : list Z)
  (found : list (list R * M)) :
  assoc globals "s_threshold" = Some (PyFloat s_threshold) ->
  assoc globals "fitfunc" = Some (PyKernel fitfunc) ->
  assoc globals "p_threshold" = Some (PyFloat p_threshold) ->
  fit_predict1 globals embeddings seediness margins fuel threshold false
    = Done (labels, found) ->
  length labels = length embeddings /\
  forall k, (k < length embeddings)%nat ->
    ((forall sp, In sp found ->
        claims fitfunc embeddings p_threshold sp k = false) ->
     nth k labels 0%Z = (-1)%Z) /\
    (forall earlier sp later,
       found = earlier ++ sp :: later ->
       claims fitfunc embeddings p_threshold sp k = true ->
       (forall sp', In sp' later ->
          claims fitfunc embeddings p_threshold sp' k = false) ->
       nth k labels 0%Z = Z.of_nat (length earlier)).
Proof.
  intros Bs Bf Bp H.
  pose proof (fit_predict1_labels globals embeddings seediness margins
                fitfunc s_threshold p_threshold Bs Bf Bp fuel threshold
                labels found H) as Hl.
  split; [rewrite Hl, length_map, length_seq; reflexivity|].
  intros k Hk.
  assert (Hnth : nth k labels 0%Z
                 = last_claim fitfunc embeddings p_threshold found 0 k (-1)).
  { rewrite Hl. apply nth_error_nth. rewrite nth_error_map, nth_error_seq.
    destruct (Nat.ltb_spec k (length embeddings)); [|lia]. reflexivity. }
  split.
  - intros Hnone. rewrite Hnth. apply last_claim_none. exact Hnone.
  - intros earlier sp later -> Hsp Hlater.
    rewrite Hnth, last_claim_app. cbn [last_claim]. rewrite Hsp.
    rewrite last_claim_none by exact Hlater. reflexivity.
Qed.

Lemma fit_predict1_last_claim_wins_witness :
  length [0%Z] = length [[0]].
Proof.
  apply (fit_predict1_last_claim_wins
           [("s_threshold", PyFloat 0); ("fitfunc", PyKernel gaussian_kernel);
            ("p_threshold", PyFloat (1/2))]%string
           [[0]] [1] [1] gaussian_kernel 0 (1/2) 1 (9/10) [0%Z] [([0], 1)]).
  - reflexivity.
  - reflexivity.
  - reflexivity.
  - unfold fit_predict1, fp1_init.
    cbn [fp1_loop check_completion length repeat forallb negb andb].
    unfold fp1_body, read_global.
    repeat (progress
              (cbn [assoc String.eqb Ascii.eqb Bool.eqb as_float as_kernel
                    seediness_copy1 pred_labels spheres1 c check_completion
                    fp1_loop forallb negb andb];
               np_eval)).
    reflexivity.
Defined.

(** ** [cluster_remainder] assigns to a nearest centroid *)

Lemma argmin_from_min (r : list R) (best : nat) (bv : R) (i : nat) :
  let a := argmin_from best bv i r in
  (a = best /\ Forall (fun x => bv <= x) r) \/
  ((i <= a < i + length r)%nat /\ nth (a - i) r 0 < bv /\
   Forall (fun x => nth (a - i) r 0 <= x) r).
Proof.
  revert best bv i. induction r as [|x r IH]; intros best bv i.
  - left. split; [reflexivity | constructor].
  - cbn [argmin_from length].
    destruct (Rltb_spec x bv) as [Hlt | Hge].
    + right. destruct (IH i x (S i)) as [[Ha Hall] | (Ha & Hx & Hall)].
      * rewrite Ha, Nat.sub_diag. cbn [nth].
        split; [lia | split; [exact Hlt|]].
        constructor; [lra | exact Hall].
      * set (a := argmin_from i x (S i) r) in *.
        replace (a - i)%nat with (S (a - S i)) by lia. cbn [nth].
        split; [lia | split; [lra|]].
        constructor; [lra | exact Hall].
    + destruct (IH best bv (S i)) as [[Ha Hall] | (Ha & Hx & Hall)].
      * left. split; [exact Ha|]. constructor; [lra | exact Hall].
      * right. set (a := argmin_from best bv (S i) r) in *.
        replace (a - i)%nat with (S (a - S i)) by lia. cbn [nth].
        split; [lia | split; [exact Hx|]].
        constructor; [lra | exact Hall].
Qed.

Lemma np_argmin_is_min (r : list R) :
  r <> [] ->
  exists a, np_argmin r = Done a /\ (a < length r)%nat /\
            Forall (fun x => nth a r 0 <= x) r.
Proof.
  destruct r as [|x r]; [congruence|]. intros _.
  exists (argmin_from 0 x 1 r). split; [reflexivity|].
  destruct (argmin_from_min r 0 x 1) as [[Ha Hall] | (Ha & Hx & Hall)].
  - rewrite Ha. cbn [nth length]. split; [lia|].
    constructor; [lra | exact Hall].
  - set (a := argmin_from 0 x 1 r) in *. cbn [length].
    split; [lia|].
    destruct a as [|a']; [lia|]. cbn [nth].
    replace (S a' - 1)%nat with a' in * by lia.
    constructor; [lra | exact Hall].
Qed.

Lemma mask_scatter_rows {A : Type} (g : A -> Z) (a : list Z)
  (mask : list bool) (rows : list A) (k : nat) (x : A) :
  length mask = length a -> length rows = length a ->
  nth_error rows k = Some x -> nth k mask false = true ->
  nth_error (mask_scatter a mask (map g (mask_rows rows mask))) k
  = Some (g x).
Proof.
  revert mask rows k.
  induction a as [|z a IH]; intros [|b mask] [|r rows] k Hm Hr Hx Hk;
    simpl in *; try discriminate.
  - destruct k; discriminate.
  - injection Hm as Hm. injection Hr as Hr.
    destruct k as [|k]; simpl in *.
    + subst b. injection Hx as ->. reflexivity.
    + destruct b; simpl; apply IH; assumption.
Qed.

(** X17.  Under the conditions of X6, every point whose label was -1
    gets the position of a centroid that is nearest to its embedding, in
    Euclidean distance, among the centroids [find_cluster_means] returns
    without the first one. *)
Theorem cluster_remainder_nearest (embedding : list (list R))
  (semi_predictions : list Z) :
  length semi_predictions = length embedding ->
  In (-1)%Z semi_predictions ->
  (exists l, In l semi_predictions /\ l <> (-1)%Z) ->
  exists group_ids means out,
    find_cluster_means embedding semi_predictions = Done (group_ids, means) /\
    cluster_remainder embedding semi_predictions = Done out /\
    forall k x,
      nth_error embedding k = Some x ->
      nth_error semi_predictions k = Some (-1)%Z ->
      exists j,
        nth_error out k = Some (Z.of_nat j) /\
        (j < length (tl means))%nat /\
        forall j', (j' < length (tl means))%nat ->
          euclidean x (nth j (tl means) [])
          <= euclidean x (nth j' (tl means) []).
Proof.
  intros Hlen Hminus (l & Hl & Hlne).
  set (mask := label_mask semi_predictions (-1)).
  assert (Hmask_len : length mask = length semi_predictions)
    by apply length_label_mask.
  assert (Hc1 : (0 < count_true mask)%nat).
  { apply count_true_exists. unfold mask, label_mask. apply in_map_iff.
    exists (-1)%Z. split; [reflexivity | exact Hminus]. }
  assert (Hc2 : (0 < count_true (map negb mask))%nat).
  { apply count_true_exists. apply in_map_iff. exists false.
    split; [reflexivity|]. unfold mask, label_mask. apply in_map_iff.
    exists l. split; [apply Z.eqb_neq; exact Hlne | exact Hl]. }
  pose proof (np_unique_sorted semi_predictions) as Hsorted.
  set (ids := np_unique semi_predictions) in *.
  set (centroid := fun c => mean0 (ncols embedding)
                     (mask_rows embedding (label_mask semi_predictions c))).
  assert (Hids : (2 <= length ids)%nat).
  { assert (H1 : In (-1)%Z ids) by (apply np_unique_in; exact Hminus).
    assert (H2 : In l ids) by (apply np_unique_in; exact Hl).
    destruct ids as [|a [|b ids']]; simpl in *; try lia; contradiction. }
  assert (Hfind : find_cluster_means embedding semi_predictions
                  = Done (ids, map centroid ids)).
  { unfold find_cluster_means. rewrite py_sorted_of_sorted by exact Hsorted.
    fold ids. rewrite cluster_means_loop_done by exact Hlen.
    fold centroid. cbn [bind].
    destruct ids; [simpl in Hids; lia | reflexivity]. }
  set (targets := tl (map centroid ids)).
  assert (Htne : targets <> []).
  { unfold targets. destruct ids as [|a [|b ids']]; simpl in *;
      try lia. discriminate. }
  set (row_of := fun x : list R => map (fun y => euclidean x y) targets).
  assert (Hrow_ne : forall x, row_of x <> []).
  { intros x. unfold row_of. destruct targets; [congruence | discriminate]. }
  set (g := fun x : list R =>
              match np_argmin (row_of x) with
              | Done a => a
              | _ => 0%nat
              end).
  assert (Hg : forall x, np_argmin (row_of x) = Done (g x)).
  { intros x. unfold g.
    destruct (np_argmin_is_min (row_of x) (Hrow_ne x)) as (a & -> & _).
    reflexivity. }
  assert (Hnear : map_outcome np_argmin (cdist (mask_rows embedding mask)
                                          targets)
                  = Done (map g (mask_rows embedding mask))).
  { unfold cdist. fold row_of.
    generalize (mask_rows embedding mask) as rest.
    induction rest as [|x rest IH]; [reflexivity|].
    cbn [map map_outcome]. rewrite Hg. cbn [bind]. rewrite IH.
    reflexivity. }
  exists ids, (map centroid ids),
    (mask_scatter semi_predictions mask
       (map Z.of_nat (map g (mask_rows embedding mask)))).
  split; [exact Hfind | split].
  - unfold cluster_remainder. fold mask.
    destruct (Nat.eqb_spec (count_true mask) 0); [lia|].
    destruct (Nat.eqb_spec (count_true (map negb mask)) 0); [lia|].
    cbn [orb]. rewrite Hfind. cbn [bind snd].
    unfold select. rewrite Hmask_len, Hlen, Nat.eqb_refl. cbn [bind].
    fold targets. rewrite Hnear. reflexivity.
  - intros k x Hx Hk. exists (g x). fold targets.
    destruct (np_argmin_is_min (row_of x) (Hrow_ne x)) as (a & Ha & Hlt & Hmin).
    rewrite Hg in Ha. injection Ha as <-.
    unfold row_of in Hlt. rewrite length_map in Hlt.
    split; [| split; [exact Hlt|]].
    + rewrite map_map.
      apply (mask_scatter_rows (fun x0 => Z.of_nat (g x0))).
      * exact Hmask_len.
      * congruence.
      * exact Hx.
      * unfold mask, label_mask.
        change false with ((fun l0 => (l0 =? -1)%Z) 0%Z).
        rewrite map_nth.
        rewrite (nth_error_nth _ _ _ Hk). reflexivity.
    + intros j' Hj'. rewrite Forall_forall in Hmin.
      assert (Hn : forall j, (j < length targets)%nat ->
                 nth j (row_of x) 0 = euclidean x (nth j targets [])).
      { intros j Hj. unfold row_of.
        rewrite (nth_indep _ 0 (euclidean x [])) by (rewrite length_map; lia).
        apply (map_nth (fun y => euclidean x y)). }
      rewrite <- (Hn (g x) Hlt), <- (Hn j' Hj').
      apply Hmin. apply nth_In. unfold row_of. rewrite length_map. exact Hj'.
Qed.

Lemma cluster_remainder_nearest_witness :
  exists group_ids means out,
    find_cluster_means [[0]; [1]] [5; -1]%Z = Done (group_ids, means) /\
    cluster_remainder [[0]; [1]] [5; -1]%Z = Done out.
Proof.
  destruct (cluster_remainder_nearest [[0]; [1]] [5; -1]%Z)
    as (ids & means & out & H1 & H2 & _).
  - reflexivity.
  - right. left. reflexivity.
  - exists 5%Z. split; [left; reflexivity | lia].
  - exists ids, means, out. split; assumption.
Defined.
